(** * The legislation XHTML parser of australian-law-mcp, embedded in Rocq

    The development follows [parser.ts]: a JavaScript string is a list of
    UTF-16 code units, a regular expression literal is a value of the
    syntax [re] interpreted by a backtracking matcher that follows the
    ECMAScript matching rules for the constructs the parser uses, and each
    function of the parser is a function over these.  The retry loop of
    [fetcher.ts] and the argument handling of the ingestion script are
    embedded behind the parser: the fetcher in a state and error monad over
    the requests, the clock and the log. *)

From Stdlib Require Import NArith ZArith String Ascii.
From stdpp Require Import base option list gmap.

Set Warnings "-abstract-large-number".

Open Scope N_scope.
Open Scope nat_scope.

(** ** JavaScript strings *)

(** A string is its sequence of UTF-16 code units; [length] is the
    JavaScript [.length]. *)
Abbreviation jsstring := (list N).

(** The code units of an ASCII literal. *)
Definition js (s : string) : jsstring :=
  map N_of_ascii (list_ascii_of_string s).

(** The double quote, which a literal above cannot hold. *)
Definition dq : N := 34%N.

(** [s.substring(a, b)]: both indices are clamped to the length and swapped
    when they come in the wrong order. *)
Definition substring (s : jsstring) (a b : nat) : jsstring :=
  let a' := a `min` length s in
  let b' := b `min` length s in
  take (a' `max` b' - a' `min` b') (drop (a' `min` b') s).

(** [parts.join(sep)] *)
Fixpoint join (sep : jsstring) (parts : list jsstring) : jsstring :=
  match parts with
  | [] => []
  | [p] => p
  | p :: ps => p ++ sep ++ join sep ps
  end.

(** [s.includes(w)] *)
Fixpoint is_prefix (w s : jsstring) : bool :=
  match w, s with
  | [], _ => true
  | _ :: _, [] => false
  | a :: w', b :: s' => (a =? b)%N && is_prefix w' s'
  end.

Fixpoint includes (s w : jsstring) : bool :=
  is_prefix w s || match s with [] => false | _ :: s' => includes s' w end.

(** White space and line terminators of ECMAScript: the members of [\s] and
    what [trim] removes. *)
Definition is_space (c : N) : bool :=
  ((9 <=? c) && (c <=? 13) || (c =? 32) || (c =? 160) || (c =? 5760)
   || (8192 <=? c) && (c <=? 8202) || (c =? 8232) || (c =? 8233)
   || (c =? 8239) || (c =? 8287) || (c =? 12288) || (c =? 65279))%N.

Fixpoint trim_start (s : jsstring) : jsstring :=
  match s with
  | c :: s' => if is_space c then trim_start s' else s
  | [] => []
  end.

Definition trim (s : jsstring) : jsstring :=
  rev (trim_start (rev (trim_start s))).

(** [parseInt] on a string of decimal digits (the only strings the parser
    passes to it are single digits captured by [\d]). *)
Definition parseInt (s : jsstring) : nat :=
  fold_left (fun acc d => 10 * acc + (N.to_nat d - 48)) s 0.

(** ** Regular expressions *)

(** Members of a character class. *)
Inductive cset :=
| CChar (c : N)
| CRange (lo hi : N)
| CDigit
| CSpace
| CNotSpace
| CWord.

(** The regular expression syntax the parser uses.  [Grp i r] is the i-th
    capturing group; non-capturing groups are plain nesting. *)
Inductive re :=
| Eps
| Lit (c : N)
| Class (neg : bool) (items : list cset)
| Dot
| Seq (r1 r2 : re)
| Alt (r1 r2 : re)
| Star (greedy : bool) (r : re)
| Grp (i : nat) (r : re)
| Bol
| Eol.

(** [r+] *)
Definition Plus (r : re) : re := Seq r (Star true r).

(** A literal word, and an alternation of words. *)
Definition lits (w : jsstring) : re := foldr (fun c r => Seq (Lit c) r) Eps w.
Definition word (s : string) : re := lits (js s).

Fixpoint alts (rs : list re) : re :=
  match rs with
  | [] => Class false []
  | [r] => r
  | r :: rs' => Alt r (alts rs')
  end.

Fixpoint seqs (rs : list re) : re :=
  match rs with
  | [] => Eps
  | [r] => r
  | r :: rs' => Seq r (seqs rs')
  end.

(** Case folding of the [i] flag without the [u] flag: a code unit is
    compared through its upper case, and a non-ASCII code unit never folds
    to an ASCII one, so against the ASCII patterns of the parser only the
    letters a-z and A-Z fold. *)
Definition ascii_upper (c : N) : N :=
  if ((97 <=? c) && (c <=? 122))%N then (c - 32)%N else c.
Definition ascii_lower (c : N) : N :=
  if ((65 <=? c) && (c <=? 90))%N then (c + 32)%N else c.

Definition is_digit (c : N) : bool := ((48 <=? c) && (c <=? 57))%N.
Definition is_word (c : N) : bool :=
  (is_digit c || (65 <=? c) && (c <=? 90) || (97 <=? c) && (c <=? 122)
   || (c =? 95))%N.
Definition is_line_terminator (c : N) : bool :=
  ((c =? 10) || (c =? 13) || (c =? 8232) || (c =? 8233))%N.

Definition in_cset (c : N) (item : cset) : bool :=
  match item with
  | CChar a => (c =? a)%N
  | CRange lo hi => ((lo <=? c) && (c <=? hi))%N
  | CDigit => is_digit c
  | CSpace => is_space c
  | CNotSpace => negb (is_space c)
  | CWord => is_word c
  end.

(** Does the code unit [c] belong to the class, under the flag [ic]? *)
Definition in_class (ic : bool) (items : list cset) (c : N) : bool :=
  existsb (fun item =>
    in_cset c item
    || ic && (in_cset (ascii_upper c) item || in_cset (ascii_lower c) item))
    items.

Definition lit_eq (ic : bool) (a c : N) : bool :=
  if ic then (ascii_upper a =? ascii_upper c)%N else (a =? c)%N.

(** Captures: the most recent binding of a group comes first. *)
Abbreviation caps := (list (nat * jsstring)).

Fixpoint group (i : nat) (c : caps) : option jsstring :=
  match c with
  | [] => None
  | (j, w) :: c' => if Nat.eqb i j then Some w else group i c'
  end.

(** The backtracking matcher, in continuation-passing style: [m r k s c]
    matches [r] at the front of the remaining input [s] with captures [c]
    and hands what is left to [k]; the first success in the order of
    ECMAScript (left alternative first, greedy or lazy repetition) is the
    result.  [n] is the length of the whole input, for [^].  An iteration of
    a repetition that consumes nothing is rejected, as in ECMAScript, so a
    repetition takes at most [length s] iterations. *)
Section Matcher.
Context {A : Type}.
Variable ic : bool.
Variable n : nat.

(** The repetition of [body], given the matcher of one iteration.  [fuel]
    bounds the number of iterations; the matcher starts it at the length of
    the input, which is never exhausted early ([star_loop_fuel] below). *)
Fixpoint star_loop (greedy : bool)
    (body : (jsstring -> caps -> option A) -> jsstring -> caps -> option A)
    (k : jsstring -> caps -> option A)
    (fuel : nat) (s : jsstring) (c : caps) {struct fuel} : option A :=
  match fuel with
  | O => k s c
  | S fuel' =>
      let again :=
        body (fun s' c' =>
                if length s' <? length s
                then star_loop greedy body k fuel' s' c'
                else None) s c in
      if greedy
      then match again with Some x => Some x | None => k s c end
      else match k s c with Some x => Some x | None => again end
  end.

Fixpoint m (r : re) (k : jsstring -> caps -> option A)
    (s : jsstring) (c : caps) {struct r} : option A :=
  match r with
  | Eps => k s c
  | Lit a =>
      match s with
      | x :: s' => if lit_eq ic a x then k s' c else None
      | [] => None
      end
  | Class neg items =>
      match s with
      | x :: s' => if xorb neg (in_class ic items x) then k s' c else None
      | [] => None
      end
  | Dot =>
      match s with
      | x :: s' => if is_line_terminator x then None else k s' c
      | [] => None
      end
  | Seq r1 r2 => m r1 (m r2 k) s c
  | Alt r1 r2 =>
      match m r1 k s c with
      | Some x => Some x
      | None => m r2 k s c
      end
  | Star greedy r0 => star_loop greedy (m r0) k (length s) s c
  | Grp i r0 =>
      m r0 (fun s' c' => k s' ((i, take (length s - length s') s) :: c')) s c
  | Bol => if length s =? n then k s c else None
  | Eol => match s with [] => k s c | _ => None end
  end.
End Matcher.

(** The words a regular expression can match, regardless of what surrounds
    them: the declarative reading of [re] against which the matcher is
    sound.  The anchors match the empty word. *)
Fixpoint lang (ic : bool) (r : re) (w : jsstring) : Prop :=
  match r with
  | Eps => w = []
  | Lit a => exists x, w = [x] /\ lit_eq ic a x = true
  | Class neg items => exists x, w = [x] /\ xorb neg (in_class ic items x) = true
  | Dot => exists x, w = [x] /\ is_line_terminator x = false
  | Seq r1 r2 => exists w1 w2, w = w1 ++ w2 /\ lang ic r1 w1 /\ lang ic r2 w2
  | Alt r1 r2 => lang ic r1 w \/ lang ic r2 w
  | Star _ r0 => exists ws, w = concat ws /\ Forall (lang ic r0) ws
  | Grp _ r0 => lang ic r0 w
  | Bol => w = []
  | Eol => w = []
  end.

(** The capturing groups of an expression. *)
Fixpoint grp_ids (r : re) : list nat :=
  match r with
  | Seq r1 r2 | Alt r1 r2 => grp_ids r1 ++ grp_ids r2
  | Star _ r0 => grp_ids r0
  | Grp i r0 => i :: grp_ids r0
  | _ => []
  end.

(** What a successful match hands to its continuation [k]: the input left
    after a word of the expression, with the captures of the other groups
    untouched. *)
Definition hands_over {A : Type} (ic : bool) (r : re)
    (k : jsstring -> caps -> option A)
    (s : jsstring) (c : caps) (x : A) : Prop :=
  exists w s' c',
    s = w ++ s' /\ lang ic r w /\ k s' c' = Some x
    /\ forall i, i ∉ grp_ids r -> group i c' = group i c.

(** A match: where it starts, the matched text and the captures. *)
Record MatchResult := {
  mindex : nat;
  matched : jsstring;
  groups : caps;
}.

(** The i-th capture of a match, [match[i]]; an unset group reads as the
    empty string where the parser uses it as a string. *)
Definition capture (i : nat) (mr : MatchResult) : jsstring :=
  default [] (group i (groups mr)).

Section Exec.
Variable ic : bool.
Variable r : re.
Variable n : nat.

(** One attempt at the front of [s]: what is left after the match, and
    the captures. *)
Definition match_here (s : jsstring) : option (jsstring * caps) :=
  m ic n r (fun s' c' => Some (s', c')) s [].

(** The leftmost match at or after the current position [pos]. *)
Fixpoint search_from (s : jsstring) (pos : nat) : option MatchResult :=
  match match_here s with
  | Some (rest, c) =>
      Some {| mindex := pos; matched := take (length s - length rest) s;
              groups := c |}
  | None =>
      match s with
      | [] => None
      | _ :: s' => search_from s' (S pos)
      end
  end.

(** All matches of a [g] regular expression from left to right, each
    search starting where the previous match ended: the loop
    [while ((match = re.exec(s)) !== null)].  [skip] counts the code units
    of the previous match still to pass.  (The loop of the source does
    not end on an empty match; the expressions it is used with match at
    least two code units.) *)
Fixpoint exec_go (s : jsstring) (pos skip : nat) : list MatchResult :=
  match skip with
  | S skip' =>
      match s with
      | [] => []
      | _ :: s' => exec_go s' (S pos) skip'
      end
  | O =>
      match match_here s with
      | Some (rest, c) =>
          let len := length s - length rest in
          {| mindex := pos; matched := take len s; groups := c |}
          :: match s with
             | [] => []
             | _ :: s' => exec_go s' (S pos) (len - 1)
             end
      | None =>
          match s with
          | [] => []
          | _ :: s' => exec_go s' (S pos) 0
          end
      end
  end.

(** [s.replace(re, rep)] for a [g] regular expression and a replacement
    without [$] patterns. *)
Fixpoint replace_go (rep : jsstring) (s : jsstring) (skip : nat) : jsstring :=
  match skip with
  | S skip' =>
      match s with
      | [] => []
      | _ :: s' => replace_go rep s' skip'
      end
  | O =>
      match match_here s with
      | Some (rest, _) =>
          let len := length s - length rest in
          rep ++ match s with
                 | [] => []
                 | x :: s' =>
                     if len =? 0 then x :: replace_go rep s' 0
                     else replace_go rep s' (len - 1)
                 end
      | None =>
          match s with
          | [] => []
          | x :: s' => x :: replace_go rep s' 0
          end
      end
  end.
End Exec.

(** [s.match(re)] without the [g] flag: the leftmost match. *)
Definition search (ic : bool) (r : re) (s : jsstring) : option MatchResult :=
  search_from ic r (length s) s 0.

(** The matches of the loop [while ((match = re.exec(s)) !== null)]. *)
Definition exec_all (ic : bool) (r : re) (s : jsstring) : list MatchResult :=
  exec_go ic r (length s) s 0 0.

(** [s.replace(re, rep)] with the [g] flag. *)
Definition replace (ic : bool) (r : re) (rep : jsstring) (s : jsstring) : jsstring :=
  replace_go ic r (length s) rep s 0.

(** Matches that follow one another between the positions [lo] and [hi]:
    each starts after its predecessor's start and not before its end. *)
Fixpoint chained (lo : nat) (l : list MatchResult) (hi : nat) : Prop :=
  match l with
  | [] => True
  | mr :: l' =>
      lo <= mindex mr /\ mindex mr + length (matched mr) <= hi
      /\ chained (S (mindex mr) `max` (mindex mr + length (matched mr))) l' hi
  end.

(** ** The parser *)

Definition ch (a : ascii) : N := N_of_ascii a.

(** [[^>]], [[\s\S]], [\d] and [\s] *)
Definition not_gt : re := Class true [CChar (ch ">")].
Definition any : re := Class false [CSpace; CNotSpace].
Definition digit : re := Class false [CDigit].
Definition space : re := Class false [CSpace].

(** Strip HTML/XML tags and decode common entities.  Normalize whitespace. *)
Definition stripHtml (html : jsstring) : jsstring :=
  let s := replace false (seqs [Lit (ch "<"); Plus not_gt; Lit (ch ">")]) (js " ") html in
  let s := replace true (word "&#xa0;") (js " ") s in
  let s := replace true (word "&#x2011;") (js "-") s in
  let s := replace true (word "&#x2013;") [8211%N] s in
  let s := replace true (word "&#x2014;") [8212%N] s in
  let s := replace true (word "&#x2018;") [8216%N] s in
  let s := replace true (word "&#x2019;") [8217%N] s in
  let s := replace true
             (seqs [word "&#x201";
                    Class false [CChar (ch "c"); CChar (ch "C");
                                 CChar (ch "d"); CChar (ch "D")];
                    Lit (ch ";")]) [dq] s in
  let s := replace true (seqs [word "&#x"; Plus (Class false [CWord]); Lit (ch ";")])
             (js " ") s in
  let s := replace true (word "&nbsp;") (js " ") s in
  let s := replace false (word "&amp;") (js "&") s in
  let s := replace false (word "&lt;") (js "<") s in
  let s := replace false (word "&gt;") (js ">") s in
  let s := replace false (word "&quot;") [dq] s in
  let s := replace false (word "&#39;") (js "'") s in
  let s := replace false (word "&rsquo;") [8217%N] s in
  let s := replace false (word "&lsquo;") [8216%N] s in
  let s := replace false (word "&rdquo;") [8221%N] s in
  let s := replace false (word "&ldquo;") [8220%N] s in
  let s := replace false (word "&mdash;") [8212%N] s in
  let s := replace false (word "&ndash;") [8211%N] s in
  let s := replace false (Plus space) (js " ") s in
  trim s.

(** Content CSS classes that make up section body text. *)
Definition CONTENT_CLASSES : list string :=
  ["subsection"; "subsection2"; "paragraph"; "paragraphsub";
   "paragraphsub-sub"; "Definition"; "Penalty"; "notetext"; "notepara";
   "SubsectionHead"; "Tabletext"; "Tablea"; "TableHeading"; "SOText";
   "SOPara"; "SOBullet"; "indenta"; "indentii"; "Item"; "NewItem";
   "Emphasis"]%string.

Record Heading := {
  class : jsstring;
  text : jsstring;
  index : nat;
  end_ : nat;
}.

Record SectionRec := {
  sectionNum : jsstring;
  sectionTitle : jsstring;
  bodyHtml : jsstring;
  partContext : option jsstring;
  position : nat;
}.

Record ParsedProvision := {
  provision_ref : jsstring;
  chapter : option jsstring;
  section : jsstring;
  title : jsstring;
  content : jsstring;
}.

Record ParsedDefinition := {
  term : jsstring;
  definition : jsstring;
  source_provision : option jsstring;
}.

(** The part of [ParsedAct] that comes from the markup; the other fields
    copy the act descriptor and the version metadata. *)
Record ParsedAct := {
  provisions : list ParsedProvision;
  definitions : list ParsedDefinition;
}.

(** [/<p[^>]*class="((?:ActHead|New|Heading)[1-9])"[^>]*>([\s\S]*?)<\/p>/gi] *)
Definition headingRegex : re :=
  seqs [word "<p"; Star true not_gt; word "class="; Lit dq;
        Grp 1 (Seq (alts [word "ActHead"; word "New"; word "Heading"])
                   (Class false [CRange (ch "1") (ch "9")]));
        Lit dq; Star true not_gt; Lit (ch ">");
        Grp 2 (Star false any); word "</p>"].

(** [/(\d)$/] *)
Definition levelRegex : re := Seq (Grp 1 digit) Eol.

(** The section heading pattern, written with spaces between its parts:
    [^ ( \d+ (?: \. \d+ )* [A-Za-z]* ) \s+ ( .* )] *)
Definition sectRegex : re :=
  seqs [Bol;
        Grp 1 (seqs [Plus digit; Star true (Seq (Lit (ch ".")) (Plus digit));
                     Star true (Class false [CRange (ch "A") (ch "Z");
                                             CRange (ch "a") (ch "z")])]);
        Plus space; Grp 2 (Star true Dot)].

(** The headings of the markup, in the order of the scan. *)
Definition scanHeadings (html : jsstring) : list Heading :=
  map (fun mr => {| class := capture 1 mr;
                    text := stripHtml (capture 2 mr);
                    index := mindex mr;
                    end_ := mindex mr + length (matched mr) |})
      (exec_all true headingRegex html).

(** The local variables of [splitIntoSections] that its loop updates. *)
Record split_state := {
  sections : list SectionRec;
  currentPart : option jsstring;
  currentDivision : option jsstring;
}.

(** [headings.filter(Boolean)] on optional strings: [undefined] and the
    empty string are dropped. *)
Definition filter_Boolean (l : list (option jsstring)) : list jsstring :=
  flat_map (fun o => match o with
                     | Some (c :: s) => [c :: s]
                     | _ => []
                     end) l.

(** [s || undefined] *)
Definition or_undefined (s : jsstring) : option jsstring :=
  match s with [] => None | _ => Some s end.

Definition level_of (heading : Heading) : nat :=
  match search false levelRegex (class heading) with
  | Some levelMatch => parseInt (capture 1 levelMatch)
  | None => 0
  end.

(** One turn of the loop [for (let i = 0; i < headings.length; i++)]. *)
Definition split_iter (html : jsstring) (headings : list Heading)
    (st : split_state) (i : nat) : split_state :=
  match headings !! i with
  | None => st
  | Some heading =>
      let headingText := text heading in
      let level := level_of heading in
      if level =? 1 then
        {| sections := sections st; currentPart := Some headingText;
           currentDivision := None |}
      else if level =? 2 then
        {| sections := sections st; currentPart := Some headingText;
           currentDivision := None |}
      else if level =? 3 then
        {| sections := sections st; currentPart := currentPart st;
           currentDivision := Some headingText |}
      else if level =? 4 then
        {| sections := sections st; currentPart := currentPart st;
           currentDivision := Some headingText |}
      else if (level =? 5) || (level =? 9) then
        match search false sectRegex headingText with
        | None => st
        | Some sectMatch =>
            let sectionNum := capture 1 sectMatch in
            let sectionTitle := trim (capture 2 sectMatch) in
            let nextHeadingIdx :=
              if i + 1 <? length headings
              then match headings !! (i + 1) with
                   | Some next => index next
                   | None => length html
                   end
              else length html in
            let bodyHtml := substring html (end_ heading) nextHeadingIdx in
            let partContext :=
              or_undefined
                (join (js " > ")
                   (filter_Boolean [currentPart st; currentDivision st])) in
            {| sections :=
                 sections st ++
                 [{| sectionNum := sectionNum; sectionTitle := sectionTitle;
                     bodyHtml := bodyHtml; partContext := partContext;
                     position := index heading |}];
               currentPart := currentPart st;
               currentDivision := currentDivision st |}
        end
      else st
  end.

(** Where the body of the heading [i] stops: at the start of the next
    heading, or at the end of the document. *)
Definition next_start (html : jsstring) (headings : list Heading) (i : nat)
    : nat :=
  match headings !! (i + 1) with
  | Some next => index next
  | None => length html
  end.

(** The state of the loop before its turn [k]. *)
Definition split_run (html : jsstring) (headings : list Heading) (k : nat)
    : split_state :=
  fold_left (split_iter html headings) (seq 0 k)
    {| sections := []; currentPart := None; currentDivision := None |}.

(** Split XHTML into sections based on ActHead5 elements. *)
Definition splitIntoSections (html : jsstring) : list SectionRec :=
  let headings := scanHeadings html in
  sections (split_run html headings (length headings)).

(** The structural context label in the words of the specification: both
    labels joined when both are present, the present one when only one is,
    none otherwise; a label is present when it is set and not empty. *)
Definition context_label (part division : option jsstring) : option jsstring :=
  match part, division with
  | Some (a :: p), Some (b :: d) => Some ((a :: p) ++ js " > " ++ (b :: d))
  | Some (a :: p), _ => Some (a :: p)
  | _, Some (b :: d) => Some (b :: d)
  | _, _ => None
  end.

(** The escaping that [extractSectionContent] applies to a class name
    before it joins the names into a pattern: a backslash before each of
    the characters [. * + ? ^ $ { } ( ) | [ ] \]. *)
Definition is_meta (c : N) : bool :=
  existsb (N.eqb c) (js ".*+?^${}()|[]" ++ [92%N]).

Definition escape_meta (c : jsstring) : jsstring :=
  flat_map (fun x => if is_meta x then [92%N; x] else [x]) c.

(** The expression built from [CONTENT_CLASSES]: the escaping leaves every
    class name as it is ([CONTENT_CLASSES_plain] below), so the pattern is
    the alternation of the names. *)
Definition contentRegex : re :=
  seqs [word "<p"; Star true not_gt; word "class="; Lit dq;
        Grp 1 (alts (map word CONTENT_CLASSES));
        Lit dq; Star true not_gt; Lit (ch ">");
        Grp 2 (Star false any); word "</p>"].

(** The loop of [extractSectionContent] over the content paragraphs. *)
Definition content_iter (contentParts : list jsstring) (mr : MatchResult)
    : list jsstring :=
  let text := stripHtml (capture 2 mr) in
  if 2 <? length text then contentParts ++ [text] else contentParts.

(** Extract text content from a section's body HTML. *)
Definition extractSectionContent (bodyHtml : jsstring) : jsstring :=
  let contentParts :=
    fold_left content_iter (exec_all true contentRegex bodyHtml) [] in
  let contentParts :=
    if length contentParts =? 0 then
      let fallback := stripHtml bodyHtml in
      if 10 <? length fallback then contentParts ++ [fallback]
      else contentParts
    else contentParts in
  substring (join (js " ") contentParts) 0 8000.

(** [/<p[^>]*class="Definition"[^>]*>([\s\S]*?)<\/p>/gi] *)
Definition defRegex : re :=
  seqs [word "<p"; Star true not_gt; word "class="; Lit dq;
        word "Definition"; Lit dq; Star true not_gt; Lit (ch ">");
        Grp 1 (Star false any); word "</p>"].

(** The emphasised term pattern (flag i), written with spaces between its
    parts:
    [< (?: b | i | em | strong | span [^>]* font-style: \s* italic [^>]* ) >
     ( [\s\S]*? ) <\/ (?: b | i | em | strong | span ) >] *)
Definition termRegex : re :=
  seqs [Lit (ch "<");
        alts [word "b"; word "i"; word "em"; word "strong";
              seqs [word "span"; Star true not_gt; word "font-style:";
                    Star true space; word "italic"; Star true not_gt]];
        Lit (ch ">");
        Grp 1 (Star false any);
        word "</";
        alts [word "b"; word "i"; word "em"; word "strong"; word "span"];
        Lit (ch ">")].

(** One turn of the loop of [extractDefinitions]. *)
Definition definition_iter (provisionRef : jsstring)
    (definitions : list ParsedDefinition) (mr : MatchResult)
    : list ParsedDefinition :=
  let fullText := stripHtml (capture 1 mr) in
  match search true termRegex (capture 1 mr) with
  | Some termMatch =>
      let term := trim (stripHtml (capture 1 termMatch)) in
      if negb (length term =? 0) && (1 <? length term) && (length term <? 100)
      then definitions ++
           [{| term := term; definition := substring fullText 0 4000;
               source_provision := Some provisionRef |}]
      else definitions
  | None => definitions
  end.

(** Extract definitions from the body HTML of a definitions section. *)
Definition extractDefinitions (bodyHtml provisionRef : jsstring)
    : list ParsedDefinition :=
  fold_left (definition_iter provisionRef) (exec_all true defRegex bodyHtml) [].

(** The local variables of [parseAustralianHtml] that its loop updates. *)
Record parse_state := {
  acc_provisions : list ParsedProvision;
  acc_definitions : list ParsedDefinition;
  seenRefs : gset jsstring;
}.

Section Assembler.
(** [String.prototype.toLowerCase], whose table of case mappings is the
    host's. *)
Variable toLowerCase : jsstring -> jsstring.

(** Does the title look like a definitions section? *)
Definition is_definitions_title (sectionTitle : jsstring) : bool :=
  let lowerTitle := toLowerCase sectionTitle in
  includes lowerTitle (js "interpretation")
  || includes lowerTitle (js "definition")
  || bool_decide (lowerTitle = js "definitions").

(** One turn of the loop [for (const section of sections)]. *)
Definition parse_iter (st : parse_state) (sec : SectionRec) : parse_state :=
  let provisionRef := js "s" ++ sectionNum sec in
  if decide (provisionRef ∈ seenRefs st) then st
  else
    let seen := {[provisionRef]} ∪ seenRefs st in
    let content := extractSectionContent (bodyHtml sec) in
    if length content <? 5 then
      {| acc_provisions := acc_provisions st;
         acc_definitions := acc_definitions st;
         seenRefs := seen |}
    else
      let provs :=
        acc_provisions st ++
        [{| provision_ref := provisionRef; chapter := partContext sec;
            section := sectionNum sec; title := sectionTitle sec;
            content := content |}] in
      if is_definitions_title (sectionTitle sec) then
        {| acc_provisions := provs;
           acc_definitions :=
             acc_definitions st
             ++ extractDefinitions (bodyHtml sec) provisionRef;
           seenRefs := seen |}
      else
        {| acc_provisions := provs;
           acc_definitions := acc_definitions st;
           seenRefs := seen |}.

Definition parse_init : parse_state :=
  {| acc_provisions := []; acc_definitions := []; seenRefs := ∅ |}.

(** The state of the loop after the sections [secs]. *)
Definition parse_run (secs : list SectionRec) : parse_state :=
  fold_left parse_iter secs parse_init.

(** Parse Australian legislation XHTML into structured provisions. *)
Definition parseAustralianHtml (html : jsstring) : ParsedAct :=
  let st := parse_run (splitIntoSections html) in
  {| provisions := acc_provisions st; definitions := acc_definitions st |}.
End Assembler.

(** Lower case of the letters A-Z, the part of [toLowerCase] that the
    examples below use. *)
Definition ascii_toLowerCase (s : jsstring) : jsstring := map ascii_lower s.



(** ** The claims in the words of the specification *)

(** The Definition that a definition-class fragment yields: the first
    emphasised span of the raw fragment gives the term, accepted when its
    normalized text is longer than 1 and shorter than 100 characters; the
    definition text is the normalized fragment capped at 4000 characters and
    the source is the reference of the section. *)
Definition definition_of_fragment (provisionRef fragment : jsstring)
    : option ParsedDefinition :=
  match search true termRegex fragment with
  | Some span =>
      let term := stripHtml (capture 1 span) in
      if (1 <? length term) && (length term <? 100)
      then Some {| term := term;
                   definition := take 4000 (stripHtml fragment);
                   source_provision := Some provisionRef |}
      else None
  | None => None
  end.

(** The rule of deduplication as the specification words it: at its turn a
    section is skipped as a duplicate exactly when a provision with its
    reference has been emitted already. *)
Definition skipped_iff_emitted (toLowerCase : jsstring -> jsstring)
    (secs : list SectionRec) : Prop :=
  forall k sec,
    secs !! k = Some sec ->
    let st := parse_run toLowerCase (take k secs) in
    js "s" ++ sectionNum sec ∈ seenRefs st
    <-> exists p, p ∈ acc_provisions st
          /\ provision_ref p = js "s" ++ sectionNum sec.

(** ** Example documents *)

Definition p_open (cls : string) : jsstring :=
  js "<p class=" ++ [dq] ++ js cls ++ [dq] ++ js ">".
Definition p_close : jsstring := js "</p>".

(** A part heading, the section "6  Interpretation" and one definition. *)
Definition doc_interpretation : jsstring :=
  p_open "ActHead2" ++ js "Part I&#x2014;Preliminary" ++ p_close
  ++ p_open "ActHead5" ++ js "6  Interpretation" ++ p_close
  ++ p_open "Definition"
  ++ js "<b>personal information</b> means information about an identified individual."
  ++ p_close.

(** A section-level heading whose text is not a section heading. *)
Definition doc_schedule : jsstring :=
  p_open "ActHead5" ++ [8212%N] ++ js "Schedule" ++ [8212%N] ++ p_close
  ++ p_open "subsection" ++ js "(1) The text of the schedule." ++ p_close.

(** A section whose body is a plain paragraph of fifty characters, and one
    whose body is a plain paragraph of eight. *)
Definition fifty : jsstring :=
  js "This Act may be cited as the Examples Act of 2001.".
Definition doc_plain50 : jsstring :=
  p_open "ActHead5" ++ js "1  Short title" ++ p_close
  ++ js "<p>" ++ fifty ++ js "</p>".
Definition doc_plain8 : jsstring :=
  p_open "ActHead5" ++ js "1  Short title" ++ p_close
  ++ js "<p>" ++ js "Repealed" ++ js "</p>".

(** Two sections numbered 10, the first with too little content. *)
Definition doc_duplicate : jsstring :=
  p_open "ActHead5" ++ js "10  Duplicate" ++ p_close
  ++ p_open "subsection" ++ js "ab" ++ p_close
  ++ p_open "ActHead5" ++ js "10  Duplicate" ++ p_close
  ++ p_open "subsection" ++ js "(1) The text of section ten." ++ p_close.

(** Two sections numbered 10 with different bodies. *)
Definition doc_duplicate_bodies : jsstring :=
  p_open "ActHead5" ++ js "10  Duplicate" ++ p_close
  ++ p_open "subsection" ++ js "(1) The first body." ++ p_close
  ++ p_open "ActHead5" ++ js "10  Duplicate" ++ p_close
  ++ p_open "subsection" ++ js "(1) The second body." ++ p_close.

(** A legacy heading of level 9. *)
Definition doc_level9 : jsstring :=
  p_open "Heading9" ++ js "3LA  Person with knowledge" ++ p_close
  ++ p_open "indenta" ++ js "(a) a person." ++ p_close.

(** A definitions section with too little content. *)
Definition doc_short_definitions : jsstring :=
  p_open "ActHead5" ++ js "4  Definitions" ++ p_close
  ++ p_open "Definition" ++ js "<b>ab</b>" ++ p_close.

(** ** Markers in the markup *)

(** The code units of [s] from the position [a] up to the position [b]. *)
Definition slice (s : jsstring) (a b : nat) : jsstring :=
  take (b - a) (drop a s).

(** [w] is the word [u] up to the case of its ASCII letters. *)
Definition same_word (u : string) (w : jsstring) : Prop :=
  map ascii_upper w = map ascii_upper (js u).

(** A paragraph element with the class [cls] and the content [inner]:
    [<p], attributes, [class="cls"], attributes, [>], the content, [</p>];
    the attributes hold no [>]. *)
Definition paragraph (cls inner w : jsstring) : Prop :=
  exists lp a1 cl a2 close,
    w = lp ++ a1 ++ cl ++ [dq] ++ cls ++ [dq] ++ a2 ++ [ch ">"]
        ++ inner ++ close
    /\ same_word "<p" lp
    /\ Forall (fun x => x <> ch ">") a1
    /\ same_word "class=" cl
    /\ Forall (fun x => x <> ch ">") a2
    /\ same_word "</p>" close.



(** A definition-class fragment in its paragraph. *)
Definition definition_paragraph (fragment w : jsstring) : Prop :=
  exists cls, same_word "Definition" cls /\ paragraph cls fragment w.



(** A definitions body of three definition paragraphs: one with an
    emphasised term, one without, and one whose emphasised term has a single
    character. *)
Definition fragment_personal : jsstring :=
  js "<b>personal information</b> means information about an identified individual.".
Definition fragment_plain : jsstring :=
  js "record has no emphasised term here.".
Definition fragment_short : jsstring :=
  js "<i>x</i> is a term of one character.".
Definition body_definitions : jsstring :=
  p_open "Definition" ++ fragment_personal ++ p_close
  ++ p_open "Definition" ++ fragment_plain ++ p_close
  ++ p_open "Definition" ++ fragment_short ++ p_close.

(** ** Measures on expressions and strings *)

(** A lower bound on the length of the words of an expression. *)
Fixpoint min_len (r : re) : nat :=
  match r with
  | Eps | Bol | Eol => 0
  | Lit _ | Class _ _ | Dot => 1
  | Seq r1 r2 => min_len r1 + min_len r2
  | Alt r1 r2 => min_len r1 `min` min_len r2
  | Star _ _ => 0
  | Grp _ r0 => min_len r0
  end.

(** The longest prefix whose code units satisfy [p], and what follows it. *)
Fixpoint take_while (p : N -> bool) (s : jsstring) : jsstring :=
  match s with
  | x :: s' => if p x then x :: take_while p s' else []
  | [] => []
  end.

Fixpoint drop_while (p : N -> bool) (s : jsstring) : jsstring :=
  match s with
  | x :: s' => if p x then drop_while p s' else s
  | [] => []
  end.

(** White space is collapsed: every white space code unit is an ASCII space
    and is not followed by white space. *)
Fixpoint ws_collapsed (t : jsstring) : bool :=
  match t with
  | [] => true
  | c :: t' =>
      (if is_space c
       then (c =? 32)%N
            && match t' with d :: _ => negb (is_space d) | [] => true end
       else true)
      && ws_collapsed t'
  end.

(** No white space at the start, none at the end. *)
Definition starts_clean (t : jsstring) : bool :=
  match t with c :: _ => negb (is_space c) | [] => true end.
Definition ends_clean (t : jsstring) : bool := starts_clean (rev t).

(** The code units of a section number: digits, dots and ASCII letters. *)
Definition is_ascii_letter (c : N) : bool :=
  ((65 <=? c) && (c <=? 90) || (97 <=? c) && (c <=? 122))%N.
Definition is_section_char (c : N) : bool :=
  is_digit c || (c =? 46)%N || is_ascii_letter c.

(** The provision that [parseAustralianHtml] pushes for a section. *)
Definition provision_of (sec : SectionRec) : ParsedProvision :=
  {| provision_ref := js "s" ++ sectionNum sec;
     chapter := partContext sec;
     section := sectionNum sec;
     title := sectionTitle sec;
     content := extractSectionContent (bodyHtml sec) |}.

(** A body whose only content paragraph is too short to count, beside
    plain text. *)
Definition doc_short_fragment : jsstring :=
  p_open "subsection" ++ js "ab" ++ p_close
  ++ js "<p>Some plain text that is long enough.</p>".

(** ** The descriptive fields of the record *)

Inductive Status := in_force | amended | repealed | not_yet_in_force.

Module Act.
Record ActIndexEntry := {
  id : jsstring;
  title : jsstring;
  year : N;
  titleId : jsstring;
  url : jsstring;
  status : Status;
}.
End Act.

Module Version.
Record VersionInfo := {
  titleId : jsstring;
  name : jsstring;
  status : jsstring;
  registerId : jsstring;
  start : jsstring;
  retrospectiveStart : jsstring;
  compilationNumber : jsstring;
  isLatest : bool;
  isCurrent : bool;
  makingDate : option jsstring;
}.
End Version.

(** The decimal digits of a number: the string of a non-negative integer
    below 10^21, which the years of the act index are. *)
Fixpoint uint_digits (u : Decimal.uint) : jsstring :=
  match u with
  | Decimal.Nil => []
  | Decimal.D0 u' => 48%N :: uint_digits u'
  | Decimal.D1 u' => 49%N :: uint_digits u'
  | Decimal.D2 u' => 50%N :: uint_digits u'
  | Decimal.D3 u' => 51%N :: uint_digits u'
  | Decimal.D4 u' => 52%N :: uint_digits u'
  | Decimal.D5 u' => 53%N :: uint_digits u'
  | Decimal.D6 u' => 54%N :: uint_digits u'
  | Decimal.D7 u' => 55%N :: uint_digits u'
  | Decimal.D8 u' => 56%N :: uint_digits u'
  | Decimal.D9 u' => 57%N :: uint_digits u'
  end.

Definition Number_toString (n : N) : jsstring := uint_digits (N.to_uint n).

(** [s.split('T')[0]]: what comes before the first [T]. *)
Definition before_T (s : jsstring) : jsstring :=
  take_while (fun c => negb (c =? ch "T")%N) s.

(** Is a string truthy? *)
Definition truthy (s : jsstring) : bool := negb (length s =? 0).

(** The value of [statusMap[key]]: a status for the four own keys of the
    table, and for the names that every object inherits from
    [Object.prototype] the inherited member, which is not a status. *)
Inductive StatusValue :=
| StatusOf (s : Status)
| PrototypeMember (key : jsstring).

Definition statusMap : list (string * Status) :=
  [("InForce", in_force); ("Ceased", repealed); ("Repealed", repealed);
   ("NeverEffective", repealed)]%string.

Definition Object_prototype_names : list string :=
  ["constructor"; "__defineGetter__"; "__defineSetter__"; "hasOwnProperty";
   "__lookupGetter__"; "__lookupSetter__"; "isPrototypeOf";
   "propertyIsEnumerable"; "toString"; "valueOf"; "__proto__";
   "toLocaleString"]%string.

Definition statusMap_get (key : jsstring) : option StatusValue :=
  match list_find (fun kv => key = js kv.1) statusMap with
  | Some (_, (_, s)) => Some (StatusOf s)
  | None =>
      if bool_decide (key ∈ js <$> Object_prototype_names)
      then Some (PrototypeMember key)
      else None
  end.

Module Parsed.
Record ParsedAct := {
  id : jsstring;
  type : jsstring;
  title : jsstring;
  title_en : jsstring;
  short_name : jsstring;
  status : StatusValue;
  issued_date : jsstring;
  in_force_date : jsstring;
  url : jsstring;
  description : jsstring;
  provisions : list ParsedProvision;
  definitions : list ParsedDefinition;
}.
End Parsed.

Section Descriptor.
Variable toLowerCase : jsstring -> jsstring.

(** The whole of [parseAustralianHtml]: the provisions and definitions of
    the loop, and the fields taken from the act and the version. *)
Definition parseAustralianHtml_record (html : jsstring)
    (act : Act.ActIndexEntry) (versionInfo : option Version.VersionInfo)
    : Parsed.ParsedAct :=
  let parsed := parseAustralianHtml toLowerCase html in
  let fallbackDate := Number_toString (Act.year act) ++ js "-01-01" in
  let makingDate :=
    match versionInfo with
    | Some v =>
        match Version.makingDate v with
        | Some d => if truthy d then before_T d else fallbackDate
        | None => fallbackDate
        end
    | None => fallbackDate
    end in
  let inForceDate :=
    match versionInfo with
    | Some v =>
        if truthy (Version.start v) then before_T (Version.start v)
        else fallbackDate
    | None => fallbackDate
    end in
  let status :=
    match versionInfo with
    | Some v =>
        if truthy (Version.status v)
        then default (StatusOf in_force) (statusMap_get (Version.status v))
        else StatusOf (Act.status act)
    | None => StatusOf (Act.status act)
    end in
  let description :=
    Act.title act ++ js " - Australian federal legislation. "
    ++ js "Register ID: "
    ++ match versionInfo with
       | Some v => Version.registerId v
       | None => js "unknown"
       end ++ js ". "
    ++ js "Compilation number: "
    ++ match versionInfo with
       | Some v => Version.compilationNumber v
       | None => js "unknown"
       end ++ js ". "
    ++ js "Source: Federal Register of Legislation (legislation.gov.au)." in
  {| Parsed.id := Act.id act;
     Parsed.type := js "statute";
     Parsed.title := Act.title act;
     Parsed.title_en := Act.title act;
     Parsed.short_name := Act.title act;
     Parsed.status := status;
     Parsed.issued_date := makingDate;
     Parsed.in_force_date := inForceDate;
     Parsed.url := Act.url act;
     Parsed.description := description;
     Parsed.provisions := provisions parsed;
     Parsed.definitions := definitions parsed |}.
End Descriptor.

(** A version as the register reports it. *)
Definition version_example : Version.VersionInfo :=
  {| Version.titleId := js "C2004A03712";
     Version.name := js "Privacy Act 1988";
     Version.status := js "InForce";
     Version.registerId := js "C2025C00123";
     Version.start := js "2025-06-10T00:00:00";
     Version.retrospectiveStart := js "2025-06-10T00:00:00";
     Version.compilationNumber := js "101";
     Version.isLatest := true;
     Version.isCurrent := true;
     Version.makingDate := Some (js "1988-12-14T00:00:00") |}.

Definition act_example : Act.ActIndexEntry :=
  {| Act.id := js "privacy-act-1988";
     Act.title := js "Privacy Act 1988";
     Act.year := 1988%N;
     Act.titleId := js "C2004A03712";
     Act.url := js "https://www.legislation.gov.au/C2004A03712/latest/text";
     Act.status := in_force |}.

(** ** The fetcher *)

(** The fetcher talks to the network, reads the clock, sleeps and writes to
    the console.  Its functions are embedded in a state and error monad over
    a world that counts the requests and the readings of the clock, keeps
    [lastRequestTime], and records what was done in a trace.  What the
    network answers and what the clock shows are not the program's: they are
    the variables [network] and [Date_now] of the section below. *)

Definition MIN_DELAY_MS : Z := 500.
Definition WWW_BASE : jsstring := js "https://www.legislation.gov.au".
Definition DEFAULT_ACCEPT : jsstring :=
  js "text/html, application/xhtml+xml, application/xml, */*".
Definition DEFAULT_MAX_RETRIES : Z := 3.
Definition SPA_SHELL_MARKER : jsstring :=
  js "<!DOCTYPE html><html lang=" ++ [dq] ++ js "en" ++ [dq].

(** The answer of the network to a request: [text] is [None] when reading
    the body fails. *)
Module Http.
Record Response := {
  status : N;
  text : option jsstring;
  content_type : option jsstring;
}.
End Http.

Module Fetch.
Record FetchResult := {
  status : N;
  body : jsstring;
  contentType : jsstring;
}.
End Fetch.

Module Legislation.
Record Result := {
  status : N;
  body : jsstring;
  contentType : jsstring;
  versionInfo : option Version.VersionInfo;
}.
End Legislation.

(** What the fetcher does to the world, in order: the timers it waits for,
    the requests it sends, and the lines it logs (the values the line is
    made of, not its text). *)
Inductive Event :=
| Sleep (ms : Z)
| Request (url accept : jsstring)
| LogRetry (status : N) (url : jsstring) (backoff : Z)
| LogSpaShell (titleId : jsstring).

Inductive Error :=
| Rejected
| FailedToFetch (url : jsstring) (maxRetries : Z)
| OtherError (message : jsstring).

Inductive Outcome (A : Type) :=
| Returned (a : A)
| Threw (e : Error).
Arguments Returned {A} a.
Arguments Threw {A} e.

Record World := {
  lastRequestTime : Z;
  clock_reads : nat;
  requests : nat;
  trace : list Event;
}.

Definition M (A : Type) : Type := World -> Outcome A * World.

Definition ret {A} (a : A) : M A := fun w => (Returned a, w).
Definition throw {A} (e : Error) : M A := fun w => (Threw e, w).
Definition bind {A B} (m : M A) (k : A -> M B) : M B :=
  fun w =>
    match m w with
    | (Returned a, w') => k a w'
    | (Threw e, w') => (Threw e, w')
    end.

Declare Scope fetch_scope.
Delimit Scope fetch_scope with fetch.
Notation "x <- m ;; k" := (bind m (fun x => k))
  (at level 100, m at next level, k at level 200) : fetch_scope.
Notation "m ;; k" := (bind m (fun _ => k))
  (at level 100, k at level 200) : fetch_scope.

Definition emit (e : Event) : M unit :=
  fun w =>
    (Returned tt,
     {| lastRequestTime := lastRequestTime w; clock_reads := clock_reads w;
        requests := requests w; trace := trace w ++ [e] |}).

Definition get_lastRequestTime : M Z :=
  fun w => (Returned (lastRequestTime w), w).

Definition set_lastRequestTime (t : Z) : M unit :=
  fun w =>
    (Returned tt,
     {| lastRequestTime := t; clock_reads := clock_reads w;
        requests := requests w; trace := trace w |}).

(** [Math.pow(2, attempt + 1) * 1000]; the product is the number JavaScript
    computes as long as it is exact in a double, which it is up to an
    exponent of 1013. *)
Definition backoff_ms (attempt : Z) : Z := 2 ^ (attempt + 1) * 1000.

Definition retryable (status : N) : bool :=
  ((status =? 429) || (500 <=? status))%N.

Section Net.
(** The [k]-th reading of the clock, and the answer to the [k]-th request
    ([None] when [fetch] rejects). *)
Variable Date_now : nat -> Z.
Variable network : nat -> jsstring -> jsstring -> option Http.Response.

Definition date_now : M Z :=
  fun w =>
    (Returned (Date_now (clock_reads w)),
     {| lastRequestTime := lastRequestTime w;
        clock_reads := S (clock_reads w);
        requests := requests w; trace := trace w |}).

Definition fetch (url accept : jsstring) : M Http.Response :=
  fun w =>
    let w' := {| lastRequestTime := lastRequestTime w;
                 clock_reads := clock_reads w;
                 requests := S (requests w);
                 trace := trace w ++ [Request url accept] |} in
    match network (requests w) url accept with
    | Some response => (Returned response, w')
    | None => (Threw Rejected, w')
    end.

Definition response_text (response : Http.Response) : M jsstring :=
  match Http.text response with
  | Some body => ret body
  | None => throw Rejected
  end.

Definition rateLimit : M unit :=
  (now <- date_now ;;
   last <- get_lastRequestTime ;;
   let elapsed := (now - last)%Z in
   (if (elapsed <? MIN_DELAY_MS)%Z
    then emit (Sleep (MIN_DELAY_MS - elapsed))
    else ret tt) ;;
   t <- date_now ;;
   set_lastRequestTime t)%fetch.

(** The loop of [fetchWithRateLimit]: [remaining] counts the iterations
    that [attempt <= maxRetries] still allows. *)
Fixpoint attempts (remaining : nat) (url accept : jsstring)
    (maxRetries attempt : Z) : M Fetch.FetchResult :=
  match remaining with
  | 0 => throw (FailedToFetch url maxRetries)
  | S remaining' =>
      (response <- fetch url accept ;;
       if retryable (Http.status response) && (attempt <? maxRetries)%Z
       then
         let backoff := backoff_ms attempt in
         emit (LogRetry (Http.status response) url backoff) ;;
         emit (Sleep backoff) ;;
         attempts remaining' url accept maxRetries (attempt + 1)
       else
         body <- response_text response ;;
         ret {| Fetch.status := Http.status response;
                Fetch.body := body;
                Fetch.contentType :=
                  default [] (Http.content_type response) |})%fetch
  end.

Definition fetchWithRateLimit (url accept : jsstring) (maxRetries : Z)
    : M Fetch.FetchResult :=
  (rateLimit ;;
   attempts (Z.to_nat (maxRetries + 1)) url accept maxRetries 0)%fetch.

Definition formatDate (isoDateTime : jsstring) : jsstring :=
  before_T isoDateTime.

Definition buildEpubHtmlUrl (titleId start retrospectiveStart : jsstring)
    : jsstring :=
  let startDate := formatDate start in
  let retroDate := formatDate retrospectiveStart in
  WWW_BASE ++ js "/" ++ titleId ++ js "/" ++ startDate ++ js "/" ++ retroDate
  ++ js "/text/original/epub/OEBPS/document_1/document_1.html".

(** [fetchVersionInfo] reads JSON, which is not modelled: what it does and
    returns is left open. *)
Variable fetchVersionInfo : jsstring -> M (option Version.VersionInfo).

Definition fetchLegislationHtml (titleId : jsstring) : M Legislation.Result :=
  (versionInfo <- fetchVersionInfo titleId ;;
   match versionInfo with
   | None =>
       ret {| Legislation.status := 404%N; Legislation.body := [];
              Legislation.contentType := [];
              Legislation.versionInfo := None |}
   | Some v =>
       let epubUrl :=
         buildEpubHtmlUrl (Version.titleId v) (Version.start v)
           (Version.retrospectiveStart v) in
       result <- fetchWithRateLimit epubUrl DEFAULT_ACCEPT
                   DEFAULT_MAX_RETRIES ;;
       if (Fetch.status result =? 200)%N
          && includes (Fetch.body result) SPA_SHELL_MARKER
       then
         emit (LogSpaShell titleId) ;;
         ret {| Legislation.status := 404%N; Legislation.body := [];
                Legislation.contentType := [];
                Legislation.versionInfo := Some v |}
       else
         ret {| Legislation.status := Fetch.status result;
                Legislation.body := Fetch.body result;
                Legislation.contentType := Fetch.contentType result;
                Legislation.versionInfo := Some v |}
   end)%fetch.
End Net.

(** The requests of a trace, and its timers. *)
Definition requests_of (t : list Event) : list (jsstring * jsstring) :=
  omap (fun e => match e with Request u a => Some (u, a) | _ => None end) t.

(** One failed attempt in the trace: the request, the line logged and the
    timer. *)
Definition retry_events (url accept : jsstring) (attempt : Z) (status : N)
    : list Event :=
  [Request url accept; LogRetry status url (backoff_ms attempt);
   Sleep (backoff_ms attempt)].

Fixpoint retries_events (url accept : jsstring) (attempt : Z)
    (statuses : list N) : list Event :=
  match statuses with
  | [] => []
  | s :: statuses' =>
      retry_events url accept attempt s
      ++ retries_events url accept (attempt + 1) statuses'
  end.


Definition shell_network (k : nat) (url accept : jsstring)
    : option Http.Response :=
  Some {| Http.status := 200%N;
          Http.text := Some (SPA_SHELL_MARKER ++ js "><head>");
          Http.content_type := Some (js "text/html") |}.



(** ** The ingestion script *)

(** The act index. *)
Definition act_entry (id title : string) (year : N) (titleId url : string)
    : Act.ActIndexEntry :=
  {| Act.id := js id; Act.title := js title; Act.year := year;
     Act.titleId := js titleId; Act.url := js url; Act.status := in_force |}.

Definition KEY_AUSTRALIAN_ACTS : list Act.ActIndexEntry :=
  [ act_entry "privacy-act-1988" "Privacy Act 1988" 1988
      "C2004A03712"
      "https://www.legislation.gov.au/C2004A03712/latest/text";
    act_entry "soci-act-2018" "Security of Critical Infrastructure Act 2018" 2018
      "C2018A00029"
      "https://www.legislation.gov.au/C2018A00029/latest/text";
    act_entry "cybercrime-act-2001" "Cybercrime Act 2001" 2001
      "C2004A00937"
      "https://www.legislation.gov.au/C2004A00937/latest/text";
    act_entry "electronic-transactions-act-1999" "Electronic Transactions Act 1999" 1999
      "C2004A00553"
      "https://www.legislation.gov.au/C2004A00553/latest/text";
    act_entry "telecommunications-act-1997" "Telecommunications Act 1997" 1997
      "C2004A05145"
      "https://www.legislation.gov.au/C2004A05145/latest/text";
    act_entry "criminal-code-act-1995" "Criminal Code Act 1995" 1995
      "C2004A04868"
      "https://www.legislation.gov.au/C2004A04868/latest/text";
    act_entry "spam-act-2003" "Spam Act 2003" 2003
      "C2004A01214"
      "https://www.legislation.gov.au/C2004A01214/latest/text";
    act_entry "surveillance-devices-act-2004" "Surveillance Devices Act 2004" 2004
      "C2004A01387"
      "https://www.legislation.gov.au/C2004A01387/latest/text";
    act_entry "corporations-act-2001" "Corporations Act 2001" 2001
      "C2004A00818"
      "https://www.legislation.gov.au/C2004A00818/latest/text";
    act_entry "cca-2010" "Competition and Consumer Act 2010" 2010
      "C2004A00109"
      "https://www.legislation.gov.au/C2004A00109/latest/text" ].

(** The value of [limit]: [null], [NaN] or an integer. *)
Inductive Limit :=
| JsNull
| JsNaN
| JsInt (z : Z).

(** [parseInt(s, 10)]: white space is skipped, a sign is read, and then the
    decimal digits up to the first other code unit; without a digit the
    result is [NaN].  The value is the integer the digits denote (JavaScript
    rounds it to a double beyond 2^53). *)
Definition digits_value (ds : jsstring) : Z :=
  fold_left (fun acc c => (10 * acc + Z.of_N (c - 48))%Z) ds 0%Z.

Definition parseInt10 (s : jsstring) : Limit :=
  let s1 := trim_start s in
  let sign :=
    match s1 with
    | c :: _ => if (c =? ch "-")%N then (-1)%Z else 1%Z
    | [] => 1%Z
    end in
  let s2 :=
    match s1 with
    | c :: rest => if (c =? ch "+")%N || (c =? ch "-")%N then rest else s1
    | [] => s1
    end in
  let z := take_while is_digit s2 in
  match z with
  | [] => JsNaN
  | _ => JsInt (sign * digits_value z)
  end.

Module Args.
Record t := { limit : Limit; skipFetch : bool }.
End Args.

(** The loop of [parseArgs] over the arguments from index [i] on; after
    [--limit] with a non-empty next argument the index is advanced twice. *)
Fixpoint parseArgs_loop (args : list jsstring) (limit : Limit)
    (skipFetch : bool) : Args.t :=
  match args with
  | [] => {| Args.limit := limit; Args.skipFetch := skipFetch |}
  | a :: rest =>
      let otherwise :=
        if bool_decide (a = js "--skip-fetch")
        then parseArgs_loop rest limit true
        else parseArgs_loop rest limit skipFetch in
      match rest with
      | next :: rest' =>
          if bool_decide (a = js "--limit") && truthy next
          then parseArgs_loop rest' (parseInt10 next) skipFetch
          else otherwise
      | [] => otherwise
      end
  end.

Definition parseArgs (argv : list jsstring) : Args.t :=
  let args := drop 2 argv in
  parseArgs_loop args JsNull false.

(** [l.slice(0, e)] for an integer [e]. *)
Definition slice_0 {A} (l : list A) (e : Z) : list A :=
  let len := Z.of_nat (length l) in
  let k := (if e <? 0 then Z.max (len + e) 0 else Z.min e len)%Z in
  take (Z.to_nat k) l.

(** The acts that [main] hands to [fetchAndParseActs]:
    [limit ? KEY_AUSTRALIAN_ACTS.slice(0, limit) : KEY_AUSTRALIAN_ACTS]. *)
Definition limit_truthy (limit : Limit) : bool :=
  match limit with
  | JsInt z => negb (z =? 0)%Z
  | JsNull | JsNaN => false
  end.

Definition selected_acts (limit : Limit) : list Act.ActIndexEntry :=
  match limit with
  | JsInt z =>
      if limit_truthy limit then slice_0 KEY_AUSTRALIAN_ACTS z
      else KEY_AUSTRALIAN_ACTS
  | JsNull | JsNaN => KEY_AUSTRALIAN_ACTS
  end.

Definition main_acts (argv : list jsstring) : list Act.ActIndexEntry :=
  selected_acts (Args.limit (parseArgs argv)).

Definition argv_of (args : list string) : list jsstring :=
  js "node" :: js "ingest.ts" :: (js <$> args).

(** * Properties *)

(** ** Strings *)

Lemma substring_0 (s : jsstring) (k : nat) : substring s 0 k = take k s.
Proof.
  unfold substring. rewrite Nat.min_0_l, Nat.max_0_l, Nat.sub_0_r, drop_0.
  destruct (Nat.min_spec k (length s)) as [[_ ->]|[Hle ->]]; [reflexivity|].
  rewrite (take_ge s (length s)), (take_ge s k) by lia. reflexivity.
Qed.

Lemma substring_0_length (s : jsstring) (k : nat) :
  length (substring s 0 k) <= k.
Proof. rewrite substring_0, length_take. apply Nat.le_min_l. Qed.

Lemma substring_slice (s : jsstring) (a b : nat) :
  a <= b -> b <= length s -> substring s a b = take (b - a) (drop a s).
Proof.
  intros Hab Hb. unfold substring.
  rewrite (Nat.min_l a), (Nat.min_l b), Nat.max_r, Nat.min_l by lia.
  reflexivity.
Qed.

Lemma trim_start_fix (s : jsstring) :
  match s with c :: _ => is_space c = false | [] => True end ->
  trim_start s = s.
Proof. destruct s as [|c s]; simpl; [reflexivity|]. intros ->. reflexivity. Qed.

Lemma trim_start_head (s : jsstring) :
  match trim_start s with c :: _ => is_space c = false | [] => True end.
Proof.
  induction s as [|c s IH]; simpl; [exact I|].
  destruct (is_space c) eqn:E; [exact IH|exact E].
Qed.

Lemma trim_start_suffix (s : jsstring) : exists p, s = p ++ trim_start s.
Proof.
  induction s as [|c s [p IH]]; simpl.
  - exists []. reflexivity.
  - destruct (is_space c).
    + exists (c :: p). simpl. f_equal. exact IH.
    + exists []. reflexivity.
Qed.

(** [trim] leaves a trimmed string as it is. *)
Lemma trim_idemp (s : jsstring) : trim (trim s) = trim s.
Proof.
  unfold trim.
  pose proof (trim_start_head s) as Hh.
  set (t := trim_start s) in *.
  pose proof (trim_start_head (rev t)) as Hu.
  destruct (trim_start_suffix (rev t)) as [p Hp].
  set (u := trim_start (rev t)) in *.
  destruct u as [|x u'] eqn:Eu; [reflexivity|].
  assert (Ht : t = rev (x :: u') ++ rev p).
  { rewrite <- (rev_involutive t), Hp, rev_app_distr. reflexivity. }
  rewrite (trim_start_fix (rev (x :: u'))).
  - rewrite rev_involutive. rewrite (trim_start_fix (x :: u')); [reflexivity|exact Hu].
  - destruct (rev (x :: u')) as [|y v] eqn:Er.
    + exact I.
    + rewrite Ht in Hh. simpl in Hh. exact Hh.
Qed.

(** ** The matcher *)

Section MatcherSound.
Context {A : Type}.
Variable ic : bool.
Variable n : nat.

Lemma star_loop_sound greedy r0
    (body : (jsstring -> caps -> option A) -> jsstring -> caps -> option A) :
  (forall k s c x, body k s c = Some x -> hands_over ic r0 k s c x) ->
  forall fuel k s c x,
    star_loop greedy body k fuel s c = Some x ->
    hands_over ic (Star greedy r0) k s c x.
Proof.
  intros Hbody fuel k. induction fuel as [|fuel IH]; intros s c x H.
  - simpl in H. exists [], s, c. split_and!; try done.
    exists []. split; [done|constructor].
  - simpl in H.
    assert (Hk : k s c = Some x -> hands_over ic (Star greedy r0) k s c x).
    { intros Hk. exists [], s, c. split_and!; try done.
      exists []. split; [done|constructor]. }
    assert (Hagain :
      body (fun s' c' => if length s' <? length s
                         then star_loop greedy body k fuel s' c'
                         else None) s c = Some x ->
      hands_over ic (Star greedy r0) k s c x).
    { intros Hb. apply Hbody in Hb as (w & s1 & c1 & -> & Hw & Hb & Hg).
      destruct (length s1 <? length (w ++ s1)); [|done].
      apply IH in Hb as (w2 & s2 & c2 & -> & (ws & -> & Hws) & Hk2 & Hg2).
      exists (w ++ concat ws), s2, c2. split_and!.
      - by rewrite app_assoc.
      - exists (w :: ws). split; [done|by constructor].
      - done.
      - intros i Hi. rewrite Hg2 by done. apply Hg. done. }
    destruct greedy.
    + destruct (body _ s c) eqn:E; [|by apply Hk].
      apply Hagain. by rewrite <- H.
    + destruct (k s c) eqn:E; [by apply Hk|]. by apply Hagain.
Qed.

(** The matcher is sound: a success went through a word of the
    expression, and touched only the captures of its own groups. *)
Lemma m_sound r : forall (k : jsstring -> caps -> option A) s c x,
  m ic n r k s c = Some x -> hands_over ic r k s c x.
Proof.
  induction r as [|a|neg items| |r1 IH1 r2 IH2|r1 IH1 r2 IH2|g r0 IH|i r0 IH| |];
    intros k s c x H; simpl in H.
  - exists [], s, c. done.
  - destruct s as [|y s]; [done|]. destruct (lit_eq ic a y) eqn:E; [|done].
    exists [y], s, c. split_and!; try done. by exists y.
  - destruct s as [|y s]; [done|].
    destruct (xorb neg (in_class ic items y)) eqn:E; [|done].
    exists [y], s, c. split_and!; try done. by exists y.
  - destruct s as [|y s]; [done|].
    destruct (is_line_terminator y) eqn:E; [done|].
    exists [y], s, c. split_and!; try done. by exists y.
  - apply IH1 in H as (w1 & s1 & c1 & -> & Hw1 & H & Hg1).
    apply IH2 in H as (w2 & s2 & c2 & -> & Hw2 & H & Hg2).
    exists (w1 ++ w2), s2, c2. split_and!.
    + by rewrite app_assoc.
    + by exists w1, w2.
    + done.
    + intros i Hi. simpl in Hi. rewrite elem_of_app in Hi.
      rewrite Hg2, Hg1; tauto.
  - destruct (m ic n r1 k s c) eqn:E.
    + apply IH1 in E as (w & s' & c' & -> & Hw & Hk & Hg).
      exists w, s', c'. split_and!; try done.
      * by left.
      * congruence.
      * intros i Hi. simpl in Hi. rewrite elem_of_app in Hi. apply Hg. tauto.
    + apply IH2 in H as (w & s' & c' & -> & Hw & Hk & Hg).
      exists w, s', c'. split_and!; try done.
      * by right.
      * intros i Hi. simpl in Hi. rewrite elem_of_app in Hi. apply Hg. tauto.
  - eapply star_loop_sound; [exact IH|exact H].
  - apply IH in H as (w & s' & c' & -> & Hw & Hk & Hg).
    exists w, s', ((i, w) :: c'). split_and!; try done.
    + rewrite <- Hk. do 3 f_equal.
      rewrite length_app, Nat.add_sub, take_app_length. done.
    + intros j Hj. simpl in Hj. rewrite elem_of_cons in Hj. simpl.
      destruct (Nat.eqb_spec j i); [tauto|]. apply Hg. tauto.
  - destruct (length s =? n); [|done]. exists [], s, c. done.
  - destruct s; [|done]. exists [], [], c. done.
Qed.
End MatcherSound.

(** The matcher consults its continuation only on what is left of the
    input. *)
Lemma star_loop_ext {A} greedy
    (body : (jsstring -> caps -> option A) -> jsstring -> caps -> option A) :
  (forall k1 k2 s c,
      (forall s' c', length s' <= length s -> k1 s' c' = k2 s' c') ->
      body k1 s c = body k2 s c) ->
  forall fuel k1 k2 s c,
    (forall s' c', length s' <= length s -> k1 s' c' = k2 s' c') ->
    star_loop greedy body k1 fuel s c = star_loop greedy body k2 fuel s c.
Proof.
  intros Hbody fuel. induction fuel as [|fuel IH]; intros k1 k2 s c H.
  - simpl. by apply H.
  - simpl. rewrite (H s c) by done.
    rewrite (Hbody _ (fun s' c' => if length s' <? length s
                                   then star_loop greedy body k2 fuel s' c'
                                   else None)); [done|].
    intros s' c' _. destruct (Nat.ltb_spec (length s') (length s)); [|done].
    apply IH. intros s'' c'' Hs''. apply H. lia.
Qed.

Lemma m_ext {A} ic n r : forall (k1 k2 : jsstring -> caps -> option A) s c,
  (forall s' c', length s' <= length s -> k1 s' c' = k2 s' c') ->
  m ic n r k1 s c = m ic n r k2 s c.
Proof.
  induction r as [|a|neg items| |r1 IH1 r2 IH2|r1 IH1 r2 IH2|g r0 IH|i r0 IH| |];
    intros k1 k2 s c H; simpl.
  - by apply H.
  - destruct s as [|x s]; [done|]. destruct (lit_eq ic a x); [|done].
    apply H. simpl. lia.
  - destruct s as [|x s]; [done|].
    destruct (xorb neg (in_class ic items x)); [|done]. apply H. simpl. lia.
  - destruct s as [|x s]; [done|]. destruct (is_line_terminator x); [done|].
    apply H. simpl. lia.
  - apply IH1. intros s' c' Hs'. apply IH2. intros s'' c'' Hs''. apply H. lia.
  - by rewrite (IH1 k1 k2), (IH2 k1 k2).
  - by apply star_loop_ext.
  - apply IH. intros s' c' Hs'. by apply H.
  - destruct (length s =? n); [|done]. by apply H.
  - destruct s; [|done]. by apply H.
Qed.

Lemma m_fail {A} ic n r s c :
  m ic n r (fun _ _ => @None A) s c = None.
Proof.
  destruct (m ic n r (fun _ _ => None) s c) as [x|] eqn:E; [|done].
  by apply m_sound in E as (? & ? & ? & _ & _ & ? & _).
Qed.

(** The repetition never runs short of iterations: any bound that is at
    least the length of the input gives the same result, since an iteration
    has to consume a code unit. *)
Lemma star_loop_fuel {A} ic n greedy r0 (k : jsstring -> caps -> option A) :
  forall fuel1 fuel2 s c,
    length s <= fuel1 -> length s <= fuel2 ->
    star_loop greedy (m ic n r0) k fuel1 s c
    = star_loop greedy (m ic n r0) k fuel2 s c.
Proof.
  assert (Hzero : forall fuel s c,
             length s = 0 ->
             star_loop greedy (m ic n r0) k fuel s c = k s c).
  { intros [|fuel] s c Hs; [done|]. simpl.
    rewrite (m_ext ic n r0 _ (fun _ _ => None)), m_fail.
    - by destruct greedy, (k s c).
    - intros s' c' _. destruct (Nat.ltb_spec (length s') (length s)); [lia|done]. }
  induction fuel1 as [|fuel1 IH]; intros fuel2 s c H1 H2.
  - rewrite !Hzero by lia. done.
  - destruct fuel2 as [|fuel2]; [rewrite !Hzero by lia; done|].
    simpl.
    rewrite (m_ext ic n r0 _
               (fun s' c' => if length s' <? length s
                             then star_loop greedy (m ic n r0) k fuel2 s' c'
                             else None)); [done|].
    intros s' c' _. destruct (Nat.ltb_spec (length s') (length s)); [|done].
    apply IH; lia.
Qed.


Lemma match_here_sound ic r n s rest c :
  match_here ic r n s = Some (rest, c) ->
  exists w, s = w ++ rest /\ lang ic r w.
Proof.
  intros H. apply m_sound in H as (w & s' & c' & -> & Hw & [= <- <-] & _).
  by exists w.
Qed.

Lemma m_seqs_cons {A} ic n r rs (k : jsstring -> caps -> option A) s c :
  m ic n (seqs (r :: rs)) k s c = m ic n r (m ic n (seqs rs) k) s c.
Proof. destruct rs; reflexivity. Qed.

(** The capture of a group in a sequence is a word of the group, when the
    expressions after it leave the group alone. *)
Lemma seqs_capture ic n pre i R post :
  i ∉ grp_ids (seqs post) ->
  forall s c0 rest c,
    m ic n (seqs (pre ++ Grp i R :: post)) (fun s' c' => Some (s', c')) s c0
    = Some (rest, c) ->
    exists w, group i c = Some w /\ lang ic R w.
Proof.
  intros Hpost. induction pre as [|a pre IH]; intros s c0 rest c H.
  - simpl app in H. rewrite m_seqs_cons in H. simpl in H.
    apply m_sound in H as (w & s1 & c1 & -> & Hw & H & _).
    apply m_sound in H as (w2 & s2 & c2 & -> & _ & [= <- <-] & Hg).
    exists w. split; [|done].
    rewrite Hg.
    + simpl. rewrite Nat.eqb_refl, length_app, Nat.add_sub, take_app_length. done.
    + exact Hpost.
  - change ((a :: pre) ++ Grp i R :: post) with (a :: (pre ++ Grp i R :: post)) in H.
    rewrite m_seqs_cons in H.
    apply m_sound in H as (w & s1 & c1 & -> & _ & H & _).
    by apply IH in H.
Qed.



Lemma CONTENT_CLASSES_plain :
  Forall (fun c => escape_meta (js c) = js c) CONTENT_CLASSES.
Proof. apply (bool_decide_unpack _). vm_compute. exact I. Qed.

(** ** The scan *)

Lemma chained_weaken lo lo' l hi : lo' <= lo -> chained lo l hi -> chained lo' l hi.
Proof. destruct l; simpl; [done|]. intros ? (? & ? & ?). split_and!; [lia|done..]. Qed.

Lemma exec_go_chained ic r n s : forall pos skip,
  chained (pos + skip) (exec_go ic r n s pos skip) (pos + length s).
Proof.
  induction s as [|x s IH]; intros pos skip.
  - destruct skip; simpl; [|done].
    destruct (match_here ic r n []) as [[rest c]|]; simpl; [|done].
    rewrite ?take_nil. simpl. split_and!; [lia..|done].
  - destruct skip as [|skip].
    + cbn [exec_go].
      destruct (match_here ic r n (x :: s)) as [[rest c]|].
      * cbn [chained mindex matched]. rewrite length_take.
        set (len := length (x :: s) - length rest).
        assert (len <= length (x :: s)) by (subst len; lia).
        split_and!; [lia..|].
        eapply chained_weaken; [|replace (pos + length (x :: s)) with (S pos + length s) by (simpl; lia); apply IH].
        lia.
      * eapply chained_weaken; [|replace (pos + length (x :: s)) with (S pos + length s) by (simpl; lia); apply IH].
        lia.
    + cbn [exec_go].
      eapply chained_weaken; [|replace (pos + length (x :: s)) with (S pos + length s) by (simpl; lia); apply IH].
      lia.
Qed.

Lemma chained_lookup lo l hi i a :
  chained lo l hi -> l !! i = Some a ->
  lo <= mindex a /\ mindex a + length (matched a) <= hi
  /\ forall j b, i < j -> l !! j = Some b ->
       mindex a < mindex b /\ mindex a + length (matched a) <= mindex b.
Proof.
  revert lo i a. induction l as [|mr l IH]; intros lo i a Hc Hi; [done|].
  destruct Hc as (Hlo & Hhi & Hc). destruct i as [|i].
  - injection Hi as ->. split_and!; [done..|].
    intros j b Hj Hb. destruct j as [|j]; [lia|]. simpl in Hb.
    destruct (IH _ _ _ Hc Hb) as (? & _). lia.
  - simpl in Hi. destruct (IH _ _ _ Hc Hi) as (? & ? & Hn).
    split_and!; [lia|done|].
    intros j b Hj Hb. destruct j as [|j]; [lia|]. simpl in Hb.
    apply (Hn j); [lia|done].
Qed.

(** Every match of the loop is a match of the expression somewhere in the
    input. *)
Lemma exec_go_match ic r n s : forall pos skip mr,
  mr ∈ exec_go ic r n s pos skip ->
  exists s0 rest,
    match_here ic r n s0 = Some (rest, groups mr)
    /\ matched mr = take (length s0 - length rest) s0.
Proof.
  induction s as [|x s IH]; intros pos skip mr.
  - destruct skip; simpl; [|by intros ?%elem_of_nil].
    destruct (match_here ic r n []) as [[rest c]|] eqn:E; [|by intros ?%elem_of_nil].
    intros ->%list_elem_of_singleton. exists [], rest. done.
  - destruct skip as [|skip]; cbn [exec_go]; [|by apply IH].
    destruct (match_here ic r n (x :: s)) as [[rest c]|] eqn:E; [|by apply IH].
    intros [->|H]%elem_of_cons; [|by eapply IH].
    exists (x :: s), rest. done.
Qed.

(** Case analysis on the comparisons of code units in the goal. *)
Ltac nbool :=
  repeat match goal with
         | H : context [(?a <=? ?b)%N] |- _ => destruct (N.leb_spec a b); simpl in *
         | |- context [(?a <=? ?b)%N] => destruct (N.leb_spec a b); simpl in *
         | H : context [(?a =? ?b)%N] |- _ => destruct (N.eqb_spec a b); simpl in *
         | |- context [(?a =? ?b)%N] => destruct (N.eqb_spec a b); simpl in *
         end; try done; try lia.

Lemma in_class_digit ic x : in_class ic [CDigit] x = is_digit x.
Proof.
  unfold in_class. simpl. rewrite orb_false_r.
  destruct (is_digit x) eqn:E; [done|]. destruct ic; [|done]. simpl.
  unfold is_digit, ascii_upper, ascii_lower in *. nbool.
Qed.

Lemma in_class_1_9 ic x :
  in_class ic [CRange (ch "1") (ch "9")] x = true -> (49 <= x <= 57)%N.
Proof.
  unfold in_class, ch. simpl. rewrite orb_false_r.
  unfold ascii_upper, ascii_lower. destruct ic; simpl; nbool.
Qed.

(** A word matched by a literal without regard to case is the literal up to
    the case of its letters. *)
Lemma lang_lits u : forall w,
  lang true (lits u) w -> map ascii_upper w = map ascii_upper u.
Proof.
  induction u as [|a u IH]; intros w; simpl.
  - by intros ->.
  - intros (w1 & w2 & -> & (x & -> & Hx) & Hw2). simpl.
    apply N.eqb_eq in Hx. rewrite (IH _ Hw2). by f_equal.
Qed.

(** ** Heading levels *)

Lemma level_match_here n x s :
  match_here false levelRegex n (x :: s)
  = if is_digit x
    then match s with [] => Some ([], [(1, [x])]) | _ => None end
    else None.
Proof.
  unfold match_here, levelRegex, digit. cbn [m]. rewrite in_class_digit.
  destruct (is_digit x); [|done]. cbn [xorb]. destruct s; done.
Qed.

Lemma level_search n d : forall w pos,
  is_digit d = true ->
  search_from false levelRegex n (w ++ [d]) pos
  = Some {| mindex := pos + length w; matched := [d]; groups := [(1, [d])] |}.
Proof.
  induction w as [|x w IH]; intros pos Hd.
  - cbn [app search_from]. rewrite level_match_here, Hd.
    simpl. by rewrite Nat.add_0_r.
  - assert (H0 : match_here false levelRegex n (x :: w ++ [d]) = None).
    { rewrite level_match_here. destruct (is_digit x); [|done]. by destruct w. }
    cbn [app search_from]. rewrite H0.
    rewrite IH by done. simpl. do 2 f_equal. lia.
Qed.

(** The level of a heading is the digit that ends its class. *)
Lemma level_of_suffix h fam d :
  class h = fam ++ [d] -> is_digit d = true -> level_of h = N.to_nat d - 48.
Proof.
  intros Hc Hd. unfold level_of, search. rewrite Hc, level_search by done.
  reflexivity.
Qed.

Lemma scanHeadings_lookup html i h :
  scanHeadings html !! i = Some h ->
  exists mr, exec_all true headingRegex html !! i = Some mr
    /\ class h = capture 1 mr /\ text h = stripHtml (capture 2 mr)
    /\ index h = mindex mr /\ end_ h = mindex mr + length (matched mr).
Proof.
  unfold scanHeadings. rewrite list_lookup_fmap.
  destruct (exec_all true headingRegex html !! i) as [mr|]; [|done].
  intros [= <-]. by exists mr.
Qed.

(** The headings come in the order of the document and do not overlap. *)
Lemma headings_ordered html i h :
  scanHeadings html !! i = Some h ->
  index h <= end_ h /\ end_ h <= length html
  /\ forall j h', i < j -> scanHeadings html !! j = Some h' ->
       index h < index h' /\ end_ h <= index h'.
Proof.
  intros (mr & Hmr & _ & _ & Hi & He)%scanHeadings_lookup.
  pose proof (exec_go_chained true headingRegex (length html) html 0 0) as Hc.
  destruct (chained_lookup _ _ _ _ _ Hc Hmr) as (_ & Hhi & Hn).
  rewrite Hi, He. split_and!; [lia|simpl in Hhi; lia|].
  intros j h' Hj (mr' & Hmr' & _ & _ & Hi' & _)%scanHeadings_lookup.
  rewrite Hi'. by apply (Hn j).
Qed.

(** The class of a scanned heading is one of the three families followed by
    a digit from 1 to 9. *)
Lemma heading_class html h :
  h ∈ scanHeadings html ->
  exists fam d,
    class h = fam ++ [d]
    /\ map ascii_upper fam ∈ [js "ACTHEAD"; js "NEW"; js "HEADING"]
    /\ (49 <= d <= 57)%N.
Proof.
  intros (i & Hi)%list_elem_of_lookup.
  apply scanHeadings_lookup in Hi as (mr & Hmr & Hc & _).
  apply list_elem_of_lookup_2 in Hmr.
  apply exec_go_match in Hmr as (s0 & rest & Hm & _).
  unfold match_here, headingRegex in Hm.
  apply (seqs_capture true (length html)
           [word "<p"; Star true not_gt; word "class="; Lit dq] 1 _
           [Lit dq; Star true not_gt; Lit (ch ">"); Grp 2 (Star false any);
            word "</p>"]) in Hm.
  - destruct Hm as (w & Hg & w1 & w2 & -> & Hfam & (d & -> & Hd)).
    exists w1, d. unfold capture in Hc. rewrite Hg in Hc. simpl in Hc.
    split; [done|]. split; [|by apply in_class_1_9 in Hd].
    destruct Hfam as [H|[H|H]]; apply lang_lits in H; rewrite H;
      vm_compute; set_solver.
  - apply (bool_decide_unpack _). vm_compute. exact I.
Qed.

(** ** The loop of [splitIntoSections] *)

Lemma split_run_S html hs k :
  split_run html hs (S k) = split_iter html hs (split_run html hs k) k.
Proof. unfold split_run. rewrite seq_S, fold_left_app. reflexivity. Qed.

Lemma split_iter_none html hs st i :
  hs !! i = None -> split_iter html hs st i = st.
Proof. unfold split_iter. by intros ->. Qed.

Lemma split_iter_part html hs st i h :
  hs !! i = Some h -> level_of h = 1 \/ level_of h = 2 ->
  split_iter html hs st i
  = {| sections := sections st; currentPart := Some (text h);
       currentDivision := None |}.
Proof. unfold split_iter. intros -> [-> | ->]; reflexivity. Qed.

Lemma split_iter_division html hs st i h :
  hs !! i = Some h -> level_of h = 3 \/ level_of h = 4 ->
  split_iter html hs st i
  = {| sections := sections st; currentPart := currentPart st;
       currentDivision := Some (text h) |}.
Proof. unfold split_iter. intros -> [-> | ->]; reflexivity. Qed.

Lemma split_iter_skip html hs st i h :
  hs !! i = Some h -> level_of h = 5 \/ level_of h = 9 ->
  search false sectRegex (text h) = None ->
  split_iter html hs st i = st.
Proof. unfold split_iter. intros -> [-> | ->] ->; reflexivity. Qed.

Lemma context_label_eq p d :
  or_undefined (join (js " > ") (filter_Boolean [p; d])) = context_label p d.
Proof. destruct p as [[|a p]|], d as [[|b d]|]; reflexivity. Qed.

Lemma split_iter_section html hs st i h sectMatch :
  hs !! i = Some h -> level_of h = 5 \/ level_of h = 9 ->
  search false sectRegex (text h) = Some sectMatch ->
  split_iter html hs st i
  = {| sections :=
         sections st ++
         [{| sectionNum := capture 1 sectMatch;
             sectionTitle := trim (capture 2 sectMatch);
             bodyHtml := substring html (end_ h) (next_start html hs i);
             partContext :=
               context_label (currentPart st) (currentDivision st);
             position := index h |}];
       currentPart := currentPart st;
       currentDivision := currentDivision st |}.
Proof.
  intros Hi Hl Hs. unfold split_iter. rewrite Hi, Hs, context_label_eq.
  assert ((if i + 1 <? length hs
           then match hs !! (i + 1) with
                | Some next => index next
                | None => length html
                end
           else length html) = next_start html hs i) as ->.
  { unfold next_start. destruct (hs !! (i + 1)) eqn:E.
    - apply lookup_lt_Some in E. apply Nat.ltb_lt in E. by rewrite E.
    - by destruct (i + 1 <? length hs). }
  destruct Hl as [-> | ->]; reflexivity.
Qed.

Lemma split_iter_other html hs st i h :
  hs !! i = Some h ->
  level_of h ∉ [1; 2; 3; 4; 5; 9] ->
  split_iter html hs st i = st.
Proof.
  intros Hi Hl. unfold split_iter. rewrite Hi.
  repeat match goal with
         | |- context [level_of h =? ?k] =>
             destruct (Nat.eqb_spec (level_of h) k) as [E|_];
             [exfalso; apply Hl; rewrite E; set_solver|]
         end.
  reflexivity.
Qed.

(** What one turn of the loop does to the sections: it adds at most one,
    for a section heading whose text has the form of a section heading. *)
Lemma split_iter_emits html hs st i :
  sections (split_iter html hs st i) = sections st
  \/ exists h sectMatch,
       hs !! i = Some h /\ (level_of h = 5 \/ level_of h = 9)
       /\ search false sectRegex (text h) = Some sectMatch
       /\ sections (split_iter html hs st i)
          = sections st ++
            [{| sectionNum := capture 1 sectMatch;
                sectionTitle := trim (capture 2 sectMatch);
                bodyHtml := substring html (end_ h) (next_start html hs i);
                partContext :=
                  context_label (currentPart st) (currentDivision st);
                position := index h |}].
Proof.
  destruct (hs !! i) as [h|] eqn:Hi; [|left; by rewrite split_iter_none].
  destruct (decide (level_of h = 1 \/ level_of h = 2)) as [H12|H12];
    [left; by erewrite split_iter_part|].
  destruct (decide (level_of h = 3 \/ level_of h = 4)) as [H34|H34];
    [left; by erewrite split_iter_division|].
  destruct (decide (level_of h = 5 \/ level_of h = 9)) as [H59|H59].
  - destruct (search false sectRegex (text h)) as [sm|] eqn:Hs.
    + right. exists h, sm. split_and!; try done.
      by erewrite split_iter_section.
    + left. by erewrite split_iter_skip.
  - left. erewrite split_iter_other; [done..|].
    rewrite !elem_of_cons, elem_of_nil. tauto.
Qed.

Lemma split_run_prefix html hs k k' :
  k <= k' -> sections (split_run html hs k) `prefix_of` sections (split_run html hs k').
Proof.
  induction 1 as [|k' _ IH]; [done|].
  etrans; [exact IH|]. rewrite split_run_S.
  destruct (split_iter_emits html hs (split_run html hs k') k')
    as [-> | (h & sm & _ & _ & _ & ->)]; [done|].
  by apply prefix_app_r.
Qed.

(** Every section of the loop comes from the turn of a section heading. *)
Lemma split_run_origin html hs k sec :
  sec ∈ sections (split_run html hs k) ->
  exists i h sectMatch,
    i < k /\ hs !! i = Some h /\ (level_of h = 5 \/ level_of h = 9)
    /\ search false sectRegex (text h) = Some sectMatch
    /\ position sec = index h
    /\ bodyHtml sec = substring html (end_ h) (next_start html hs i).
Proof.
  induction k as [|k IH]; [by intros ?%elem_of_nil|].
  rewrite split_run_S.
  destruct (split_iter_emits html hs (split_run html hs k) k)
    as [-> | (h & sm & Hi & Hl & Hs & ->)].
  - intros (i & h & sm & ? & ?)%IH. exists i, h, sm. split; [lia|done].
  - rewrite elem_of_app, list_elem_of_singleton. intros [H| ->].
    + apply IH in H as (i & h' & sm' & ? & ?). exists i, h', sm'. split; [lia|done].
    + exists k, h, sm. split_and!; try done. lia.
Qed.

Lemma next_start_bounds html i h :
  scanHeadings html !! i = Some h ->
  end_ h <= next_start html (scanHeadings html) i
  /\ next_start html (scanHeadings html) i <= length html.
Proof.
  intros Hi. destruct (headings_ordered _ _ _ Hi) as (_ & He & Hn).
  unfold next_start. destruct (scanHeadings html !! (i + 1)) as [h'|] eqn:E.
  - destruct (Hn (i + 1) h') as [_ ?]; [lia|done|].
    destruct (headings_ordered _ _ _ E) as (? & ? & _). lia.
  - lia.
Qed.

(** ** The parser on the example documents *)

Example parse_interpretation :
  parseAustralianHtml ascii_toLowerCase doc_interpretation
  = {| provisions :=
         [{| provision_ref := js "s6";
             chapter := Some (js "Part I" ++ [8212%N] ++ js "Preliminary");
             section := js "6";
             title := js "Interpretation";
             content :=
               js "personal information means information about an identified individual." |}];
       definitions :=
         [{| term := js "personal information";
             definition :=
               js "personal information means information about an identified individual.";
             source_provision := Some (js "s6") |}] |}.
Proof. vm_compute. reflexivity. Qed.

Example parse_level9 :
  parseAustralianHtml ascii_toLowerCase doc_level9
  = {| provisions :=
         [{| provision_ref := js "s3LA"; chapter := None;
             section := js "3LA"; title := js "Person with knowledge";
             content := js "(a) a person." |}];
       definitions := [] |}.
Proof. vm_compute. reflexivity. Qed.

Example parse_duplicate_bodies :
  parseAustralianHtml ascii_toLowerCase doc_duplicate_bodies
  = {| provisions :=
         [{| provision_ref := js "s10"; chapter := None;
             section := js "10"; title := js "Duplicate";
             content := js "(1) The first body." |}];
       definitions := [] |}.
Proof. vm_compute. reflexivity. Qed.

Example parse_duplicate :
  parseAustralianHtml ascii_toLowerCase doc_duplicate
  = {| provisions := []; definitions := [] |}.
Proof. vm_compute. reflexivity. Qed.

(** ** Headings and sections: the claims *)

(** C6.  At the turn of the heading [h], with the context [st] in force
    before it: a heading of level 1 or 2 sets the part to its text and
    empties the division; a heading of level 3 or 4 sets the division and
    leaves the part; a section heading (level 5, or the legacy 9) leaves
    both.  A section emitted at this turn carries the context in force
    before the turn, as "part > division" when both are present, the present
    one when only one is, and none when neither is; it stays in the result
    of the loop. *)
Theorem context_tracking html hs i h :
  let st := split_run html hs i in
  let st' := split_run html hs (S i) in
  hs !! i = Some h ->
  (level_of h = 1 \/ level_of h = 2 ->
     currentPart st' = Some (text h) /\ currentDivision st' = None
     /\ sections st' = sections st)
  /\ (level_of h = 3 \/ level_of h = 4 ->
        currentPart st' = currentPart st
        /\ currentDivision st' = Some (text h)
        /\ sections st' = sections st)
  /\ (level_of h = 5 \/ level_of h = 9 ->
        currentPart st' = currentPart st
        /\ currentDivision st' = currentDivision st)
  /\ exists emitted,
       sections st' = sections st ++ emitted
       /\ length emitted <= 1
       /\ Forall (fun sec =>
                    position sec = index h
                    /\ partContext sec
                       = context_label (currentPart st) (currentDivision st))
            emitted
       /\ sections st' `prefix_of` sections (split_run html hs (length hs)).
Proof.
  intros st st' Hi. subst st'. rewrite split_run_S. fold st.
  split_and!.
  - intros Hl. by rewrite (split_iter_part html hs st i h).
  - intros Hl. by rewrite (split_iter_division html hs st i h).
  - intros Hl. destruct (search false sectRegex (text h)) as [sm|] eqn:Hs.
    + by rewrite (split_iter_section html hs st i h sm).
    + by rewrite (split_iter_skip html hs st i h).
  - assert (Hp : sections (split_iter html hs st i)
                 `prefix_of` sections (split_run html hs (length hs))).
    { subst st. rewrite <- split_run_S. apply split_run_prefix.
      by eapply lookup_lt_Some. }
    destruct (split_iter_emits html hs st i)
      as [E | (h' & sm & Hi' & _ & _ & E)].
    + exists []. rewrite app_nil_r. split_and!; [done|simpl; lia|constructor|done].
    + rewrite Hi in Hi'. injection Hi' as <-.
      eexists [_]. split_and!; [exact E|simpl; lia| |done].
      constructor; [|constructor]. done.
Qed.

Lemma context_tracking_witness :
  exists h sec,
    scanHeadings doc_interpretation !! 1 = Some h
    /\ currentPart (split_run doc_interpretation
                      (scanHeadings doc_interpretation) 1)
       = Some (js "Part I" ++ [8212%N] ++ js "Preliminary")
    /\ sections (split_run doc_interpretation
                   (scanHeadings doc_interpretation) 2) = [sec]
    /\ partContext sec = Some (js "Part I" ++ [8212%N] ++ js "Preliminary").
Proof.
  eexists _.
  destruct (context_tracking doc_interpretation
              (scanHeadings doc_interpretation) 1 _
              ltac:(vm_compute; reflexivity))
    as (_ & _ & _ & emitted & Hem & _ & Hall & _).
  assert (Hs : sections (split_run doc_interpretation
                 (scanHeadings doc_interpretation) 1) = [])
    by (vm_compute; reflexivity).
  rewrite Hs, app_nil_l in Hem.
  assert (Hlen : length emitted = 1)
    by (rewrite <- Hem; vm_compute; reflexivity).
  destruct emitted as [|sec [|? ?]]; try discriminate Hlen.
  exists sec.
  split; [vm_compute; reflexivity|].
  split; [vm_compute; reflexivity|].
  split; [exact Hem|].
  apply Forall_inv in Hall as [_ Hall]. rewrite Hall.
  vm_compute. reflexivity.
Defined.

(** C7.  A section-level heading whose text does not have the form of a
    section heading is passed over: its turn of the loop changes neither the
    sections nor the context, whatever they are, no section of the result
    stems from it, and the parse goes on (the functions are total: nothing
    is raised or reported).  The heading of the schedule document yields no
    provision and no definition. *)
Theorem malformed_heading_skipped :
  (forall html hs st i h,
      hs !! i = Some h ->
      level_of h = 5 \/ level_of h = 9 ->
      search false sectRegex (text h) = None ->
      split_iter html hs st i = st)
  /\ (forall html i h,
        scanHeadings html !! i = Some h ->
        level_of h = 5 \/ level_of h = 9 ->
        search false sectRegex (text h) = None ->
        forall sec, sec ∈ splitIntoSections html -> position sec <> index h)
  /\ (forall toLowerCase,
        exists h,
          scanHeadings doc_schedule = [h] /\ level_of h = 5
          /\ text h = [8212%N] ++ js "Schedule" ++ [8212%N]
          /\ search false sectRegex (text h) = None
          /\ parseAustralianHtml toLowerCase doc_schedule
             = {| provisions := []; definitions := [] |}).
Proof.
  split_and!.
  - intros html hs st i h. apply split_iter_skip.
  - intros html i h Hi Hl Hs sec Hsec Hpos.
    apply split_run_origin in Hsec
      as (j & h' & sm & _ & Hj & _ & Hs' & Hpos' & _).
    rewrite Hpos' in Hpos.
    destruct (Nat.lt_trichotomy i j) as [Hlt|[->|Hlt]].
    + destruct (headings_ordered _ _ _ Hi) as (_ & _ & Hn).
      destruct (Hn j h' Hlt Hj). lia.
    + rewrite Hi in Hj. injection Hj as <-. congruence.
    + destruct (headings_ordered _ _ _ Hj) as (_ & _ & Hn).
      destruct (Hn i h Hlt Hi). lia.
  - intros toLowerCase. eexists.
    split; [vm_compute; reflexivity|].
    split; [vm_compute; reflexivity|].
    split; [vm_compute; reflexivity|].
    split; [vm_compute; reflexivity|].
    unfold parseAustralianHtml.
    assert (splitIntoSections doc_schedule = []) as ->
      by (vm_compute; reflexivity).
    reflexivity.
Qed.

Lemma malformed_heading_skipped_witness :
  exists h,
    scanHeadings doc_schedule !! 0 = Some h
    /\ level_of h = 5
    /\ search false sectRegex (text h) = None
    /\ split_iter doc_schedule (scanHeadings doc_schedule)
         (split_run doc_schedule (scanHeadings doc_schedule) 0) 0
       = split_run doc_schedule (scanHeadings doc_schedule) 0
    /\ forall sec, sec ∈ splitIntoSections doc_schedule ->
         position sec <> index h.
Proof.
  destruct malformed_heading_skipped as (Hstep & Hres & _).
  eexists.
  split; [vm_compute; reflexivity|].
  split; [vm_compute; reflexivity|].
  split; [vm_compute; reflexivity|].
  split.
  - apply (Hstep doc_schedule (scanHeadings doc_schedule) _ 0 _
             ltac:(vm_compute; reflexivity)
             ltac:(left; vm_compute; reflexivity)
             ltac:(vm_compute; reflexivity)).
  - apply (Hres doc_schedule 0 _
             ltac:(vm_compute; reflexivity)
             ltac:(left; vm_compute; reflexivity)
             ltac:(vm_compute; reflexivity)).
Defined.

(** ** Content and definitions *)

#[local] Arguments stripHtml : simpl never.
#[local] Arguments search : simpl never.
#[local] Arguments exec_all : simpl never.
#[local] Arguments extractSectionContent : simpl never.
#[local] Arguments extractDefinitions : simpl never.

Lemma stripHtml_trim (html : jsstring) : trim (stripHtml html) = stripHtml html.
Proof. unfold stripHtml. cbv zeta. apply trim_idemp. Qed.

Lemma extractSectionContent_length (bodyHtml : jsstring) :
  length (extractSectionContent bodyHtml) <= 8000.
Proof. unfold extractSectionContent. cbv zeta. apply substring_0_length. Qed.

Lemma definition_iter_spec provisionRef definitions mr :
  definition_iter provisionRef definitions mr
  = definitions
    ++ option_list (definition_of_fragment provisionRef (capture 1 mr)).
Proof.
  unfold definition_iter, definition_of_fragment.
  destruct (search true termRegex (capture 1 mr)) as [span|];
    [|symmetry; apply app_nil_r].
  cbv zeta. rewrite stripHtml_trim, substring_0.
  set (t := stripHtml (capture 1 span)).
  set (f := stripHtml (capture 1 mr)).
  assert (E : negb (length t =? 0) && (1 <? length t) = (1 <? length t)).
  { destruct (length t) as [|[|k]]; reflexivity. }
  rewrite E.
  destruct ((1 <? length t) && (length t <? 100)).
  - reflexivity.
  - rewrite app_nil_r. reflexivity.
Qed.

Lemma fold_definition_iter provisionRef l : forall definitions,
  fold_left (definition_iter provisionRef) l definitions
  = definitions
    ++ omap (fun mr => definition_of_fragment provisionRef (capture 1 mr)) l.
Proof.
  induction l as [|mr l IH]; intros defs; simpl; [by rewrite app_nil_r|].
  rewrite IH, definition_iter_spec, <- app_assoc. f_equal.
  by destruct (definition_of_fragment provisionRef (capture 1 mr)).
Qed.

Lemma definition_of_fragment_Some provisionRef fragment d :
  definition_of_fragment provisionRef fragment = Some d
  <-> exists span,
        search true termRegex fragment = Some span
        /\ 1 < length (stripHtml (capture 1 span)) < 100
        /\ d = {| term := stripHtml (capture 1 span);
                  definition := take 4000 (stripHtml fragment);
                  source_provision := Some provisionRef |}.
Proof.
  unfold definition_of_fragment.
  destruct (search true termRegex fragment) as [span|]; cbv zeta.
  - set (t := stripHtml (capture 1 span)).
    set (f := take 4000 (stripHtml fragment)).
    destruct (Nat.ltb_spec 1 (length t)) as [H1|H1];
      destruct (Nat.ltb_spec (length t) 100) as [H2|H2]; cbn [andb].
    + split.
      * intros [= <-]. exists span. auto.
      * intros (span' & [= <-] & _ & ->). reflexivity.
    + split; [intros [=]|]. intros (span' & [= <-] & [_ H] & _).
      fold t in H. exfalso. apply (Nat.lt_irrefl 100). eapply Nat.le_lt_trans; eassumption.
    + split; [intros [=]|]. intros (span' & [= <-] & [H _] & _).
      fold t in H. exfalso. apply (Nat.lt_irrefl 1). eapply Nat.lt_le_trans; eassumption.
    + split; [intros [=]|]. intros (span' & [= <-] & [H _] & _).
      fold t in H. exfalso. apply (Nat.lt_irrefl 1). eapply Nat.lt_le_trans; eassumption.
  - split; [intros [=]|]. intros (? & [=] & _).
Qed.

Lemma extractDefinitions_elem bodyHtml provisionRef d :
  d ∈ extractDefinitions bodyHtml provisionRef ->
  source_provision d = Some provisionRef /\ length (definition d) <= 4000.
Proof.
  unfold extractDefinitions. rewrite fold_definition_iter, app_nil_l.
  rewrite list_elem_of_omap.
  intros (mr & _ & (span & _ & _ & ->)%definition_of_fragment_Some).
  cbn [source_provision definition].
  split; [reflexivity|]. rewrite length_take. apply Nat.le_min_l.
Qed.

(** ** The loop of [parseAustralianHtml] *)

Lemma fold_left_inv {A B} (f : A -> B -> A) (P : A -> Prop) (l : list B) :
  (forall a b, P a -> P (f a b)) -> forall a, P a -> P (fold_left f l a).
Proof. intros Hf. induction l; simpl; auto. Qed.

Section AssemblerFacts.
Variable toLowerCase : jsstring -> jsstring.

Lemma parse_run_snoc secs sec :
  parse_run toLowerCase (secs ++ [sec])
  = parse_iter toLowerCase (parse_run toLowerCase secs) sec.
Proof. unfold parse_run. by rewrite fold_left_app. Qed.

Lemma parse_iter_provisions st sec :
  acc_provisions (parse_iter toLowerCase st sec)
  = if decide (js "s" ++ sectionNum sec ∈ seenRefs st)
    then acc_provisions st
    else if length (extractSectionContent (bodyHtml sec)) <? 5
         then acc_provisions st
         else acc_provisions st ++
              [{| provision_ref := js "s" ++ sectionNum sec;
                  chapter := partContext sec;
                  section := sectionNum sec;
                  title := sectionTitle sec;
                  content := extractSectionContent (bodyHtml sec) |}].
Proof.
  unfold parse_iter. cbv zeta. case_decide; [done|].
  destruct (length (extractSectionContent (bodyHtml sec)) <? 5); [done|].
  by destruct (is_definitions_title toLowerCase (sectionTitle sec)).
Qed.

Lemma parse_iter_definitions st sec :
  acc_definitions (parse_iter toLowerCase st sec)
  = if decide (js "s" ++ sectionNum sec ∈ seenRefs st)
    then acc_definitions st
    else if length (extractSectionContent (bodyHtml sec)) <? 5
         then acc_definitions st
         else if is_definitions_title toLowerCase (sectionTitle sec)
              then acc_definitions st
                   ++ extractDefinitions (bodyHtml sec)
                        (js "s" ++ sectionNum sec)
              else acc_definitions st.
Proof.
  unfold parse_iter. cbv zeta. case_decide; [done|].
  destruct (length (extractSectionContent (bodyHtml sec)) <? 5); [done|].
  by destruct (is_definitions_title toLowerCase (sectionTitle sec)).
Qed.

Lemma parse_iter_seen st sec x :
  x ∈ seenRefs (parse_iter toLowerCase st sec)
  <-> x = js "s" ++ sectionNum sec \/ x ∈ seenRefs st.
Proof.
  unfold parse_iter. cbv zeta. case_decide as Hd.
  - split; [by right|]. by intros [->|?].
  - destruct (length (extractSectionContent (bodyHtml sec)) <? 5);
      [|destruct (is_definitions_title toLowerCase (sectionTitle sec))];
      simpl; set_solver.
Qed.

Lemma parse_run_seen secs x :
  x ∈ seenRefs (parse_run toLowerCase secs)
  <-> exists sec, sec ∈ secs /\ x = js "s" ++ sectionNum sec.
Proof.
  induction secs as [|sec secs IH] using rev_ind.
  - split; [by intros ?%elem_of_empty|]. by intros (? & ?%elem_of_nil & _).
  - rewrite parse_run_snoc, parse_iter_seen, IH. split.
    + intros [->|(s' & ? & ->)].
      * exists sec. split; [|done]. rewrite elem_of_app, list_elem_of_singleton. by right.
      * exists s'. split; [|done]. rewrite elem_of_app. by left.
    + intros (s' & [?| ->%list_elem_of_singleton]%elem_of_app & ->);
        [right; by exists s'|by left].
Qed.

Lemma parse_iter_duplicate st sec :
  js "s" ++ sectionNum sec ∈ seenRefs st ->
  parse_iter toLowerCase st sec = st.
Proof. intros H. unfold parse_iter. cbv zeta. by rewrite decide_True. Qed.
(** The references of the provisions emitted so far are distinct, and all of
    them have been seen. *)
Lemma parse_run_refs secs :
  NoDup (provision_ref <$> acc_provisions (parse_run toLowerCase secs))
  /\ forall p, p ∈ acc_provisions (parse_run toLowerCase secs) ->
       provision_ref p ∈ seenRefs (parse_run toLowerCase secs).
Proof.
  unfold parse_run.
  apply (fold_left_inv (parse_iter toLowerCase)
           (fun st =>
              NoDup (provision_ref <$> acc_provisions st)
              /\ forall p, p ∈ acc_provisions st ->
                   provision_ref p ∈ seenRefs st)).
  - intros st sec [Hnd Hseen].
    rewrite parse_iter_provisions.
    destruct (decide (js "s" ++ sectionNum sec ∈ seenRefs st)) as [Hd|Hd].
    + split; [exact Hnd|]. intros p Hp.
      apply parse_iter_seen. right. by apply Hseen.
    + destruct (length (extractSectionContent (bodyHtml sec)) <? 5).
      * split; [exact Hnd|]. intros p Hp.
        apply parse_iter_seen. right. by apply Hseen.
      * split.
        -- rewrite fmap_app. apply NoDup_app. split_and!; [exact Hnd| |].
           ++ intros x Hx Hx'. cbn [fmap list_fmap provision_ref] in Hx'.
              apply list_elem_of_singleton in Hx' as ->.
              apply list_elem_of_fmap in Hx as (p & Hp & Hin).
              apply Hd. rewrite Hp. by apply Hseen.
           ++ cbn [fmap list_fmap]. apply NoDup_singleton.
        -- intros p [Hp| ->%list_elem_of_singleton]%elem_of_app;
             apply parse_iter_seen; [right; by apply Hseen|by left].
  - split; [constructor|]. by intros p ?%elem_of_nil.
Qed.

(** Every provision emitted so far is that of the first section with its
    number. *)
Lemma parse_run_first secs k p :
  p ∈ acc_provisions (parse_run toLowerCase (take k secs)) ->
  exists i sec,
    i < k /\ secs !! i = Some sec
    /\ (forall j sec', j < i -> secs !! j = Some sec' ->
          sectionNum sec' <> sectionNum sec)
    /\ p = {| provision_ref := js "s" ++ sectionNum sec;
              chapter := partContext sec;
              section := sectionNum sec;
              title := sectionTitle sec;
              content := extractSectionContent (bodyHtml sec) |}.
Proof.
  induction k as [|k IH]; [by intros ?%elem_of_nil|].
  destruct (secs !! k) as [sec|] eqn:Hk.
  - rewrite (take_S_r _ _ _ Hk), parse_run_snoc, parse_iter_provisions.
    assert (Hold : p ∈ acc_provisions (parse_run toLowerCase (take k secs)) ->
                   exists i sec0, i < S k /\ secs !! i = Some sec0
                     /\ (forall j sec', j < i -> secs !! j = Some sec' ->
                           sectionNum sec' <> sectionNum sec0)
                     /\ p = {| provision_ref := js "s" ++ sectionNum sec0;
                               chapter := partContext sec0;
                               section := sectionNum sec0;
                               title := sectionTitle sec0;
                               content := extractSectionContent (bodyHtml sec0) |}).
    { intros (i & sec0 & Hi & Hrest)%IH. exists i, sec0. split; [lia|exact Hrest]. }
    destruct (decide _) as [Hd|Hd]; [exact Hold|].
    destruct (_ <? _); [exact Hold|].
    intros [Hp| ->%list_elem_of_singleton]%elem_of_app; [by apply Hold|].
    exists k, sec. split_and!; [lia|done| |done].
    intros j sec' Hj Hs Heq. apply Hd. apply parse_run_seen.
    exists sec'. split; [|by rewrite Heq].
    apply list_elem_of_lookup. exists j. by rewrite lookup_take_lt.
  - apply lookup_ge_None in Hk.
    assert (take (S k) secs = take k secs) as ->
      by (rewrite (take_ge secs (S k)), (take_ge secs k) by lia; reflexivity).
    intros (i & sec0 & Hi & Hrest)%IH. exists i, sec0. split; [lia|exact Hrest].
Qed.
End AssemblerFacts.

(** The sections come in the order of the document. *)
Lemma sections_in_document_order html k :
  forall i j a b,
    i < j ->
    sections (split_run html (scanHeadings html) k) !! i = Some a ->
    sections (split_run html (scanHeadings html) k) !! j = Some b ->
    position a < position b.
Proof.
  induction k as [|k IH]; intros i j a b Hij Ha Hb; [done|].
  rewrite split_run_S in Ha, Hb.
  destruct (split_iter_emits html (scanHeadings html)
              (split_run html (scanHeadings html) k) k)
    as [E | (h & sm & Hk & _ & _ & E)]; rewrite E in Ha, Hb.
  - by apply (IH i j).
  - set (secs := sections (split_run html (scanHeadings html) k)) in *.
    destruct (decide (j < length secs)) as [Hj|Hj].
    + rewrite lookup_app_l in Ha, Hb by lia. by apply (IH i j).
    + assert (Hlen : j = length secs).
      { apply lookup_lt_Some in Hb. rewrite length_app in Hb. simpl in Hb. lia. }
      subst j. rewrite lookup_app_l in Ha by lia.
      rewrite list_lookup_middle in Hb by done. injection Hb as <-.
      apply list_elem_of_lookup_2 in Ha.
      apply split_run_origin in Ha as (i' & h' & _ & Hi' & Hh' & _ & _ & -> & _).
      cbn [position].
      destruct (headings_ordered _ _ _ Hh') as (_ & _ & Hn).
      by destruct (Hn k h Hi' Hk).
Qed.

(** ** The assembler: the claims *)

(** C1, as the code has it.  The sections are visited in the order of the
    document.  At its turn a section is skipped as a duplicate exactly when
    an earlier section has the same section number, whether or not that
    earlier section yielded a provision; a skipped section leaves the
    provisions, the definitions and the set of references as they were.  So
    the first occurrence wins: every provision of the record is that of the
    first section with its number, and no two provisions share a
    reference. *)
Theorem duplicate_sections_skipped toLowerCase html :
  let secs := splitIntoSections html in
  (forall j k a b,
      j < k -> secs !! j = Some a -> secs !! k = Some b ->
      position a < position b)
  /\ (forall k sec,
        secs !! k = Some sec ->
        let st := parse_run toLowerCase (take k secs) in
        parse_run toLowerCase (take (S k) secs) = parse_iter toLowerCase st sec
        /\ (js "s" ++ sectionNum sec ∈ seenRefs st
            <-> exists j sec',
                  j < k /\ secs !! j = Some sec'
                  /\ sectionNum sec' = sectionNum sec)
        /\ (js "s" ++ sectionNum sec ∈ seenRefs st ->
            parse_iter toLowerCase st sec = st))
  /\ (forall p,
        p ∈ provisions (parseAustralianHtml toLowerCase html) ->
        exists k sec,
          secs !! k = Some sec
          /\ (forall j sec', j < k -> secs !! j = Some sec' ->
                sectionNum sec' <> sectionNum sec)
          /\ p = {| provision_ref := js "s" ++ sectionNum sec;
                    chapter := partContext sec;
                    section := sectionNum sec;
                    title := sectionTitle sec;
                    content := extractSectionContent (bodyHtml sec) |})
  /\ NoDup (provision_ref <$> provisions (parseAustralianHtml toLowerCase html)).
Proof.
  intros secs. split_and!.
  - apply (sections_in_document_order html (length (scanHeadings html))).
  - intros k sec Hk st. split_and!.
    + rewrite (take_S_r _ _ _ Hk). apply parse_run_snoc.
    + subst st. rewrite parse_run_seen. split.
      * intros (sec' & Hin & Heq%app_inv_head).
        apply list_elem_of_lookup in Hin as (j & Hj).
        pose proof (lookup_lt_Some _ _ _ Hj) as Hlt.
        rewrite length_take in Hlt.
        rewrite lookup_take_lt in Hj by lia.
        exists j, sec'. split_and!; [lia|done|done].
      * intros (j & sec' & Hj & Hs & Heq).
        exists sec'. split; [|by rewrite Heq].
        apply list_elem_of_lookup. exists j. by rewrite lookup_take_lt.
    + apply parse_iter_duplicate.
  - intros p. unfold parseAustralianHtml. cbv zeta. cbn [provisions]. fold secs.
    assert (secs = take (length secs) secs) as Heq
      by (rewrite take_ge by lia; reflexivity).
    rewrite Heq at 1.
    intros (i & sec & _ & Hrest)%parse_run_first. exists i, sec. exact Hrest.
  - unfold parseAustralianHtml. cbv zeta. cbn [provisions].
    apply parse_run_refs.
Qed.

Lemma duplicate_sections_skipped_witness :
  exists sec,
    splitIntoSections doc_duplicate !! 1 = Some sec
    /\ js "s" ++ sectionNum sec
       ∈ seenRefs (parse_run ascii_toLowerCase
                     (take 1 (splitIntoSections doc_duplicate)))
    /\ parse_iter ascii_toLowerCase
         (parse_run ascii_toLowerCase
            (take 1 (splitIntoSections doc_duplicate))) sec
       = parse_run ascii_toLowerCase
           (take 1 (splitIntoSections doc_duplicate)).
Proof.
  eexists.
  destruct (duplicate_sections_skipped ascii_toLowerCase doc_duplicate)
    as (_ & H & _ & _).
  destruct (H 1 _ ltac:(vm_compute; reflexivity)) as (_ & Hiff & Hskip).
  split; [vm_compute; reflexivity|].
  assert (Hseen : js "s" ++ js "10"
            ∈ seenRefs (parse_run ascii_toLowerCase
                          (take 1 (splitIntoSections doc_duplicate)))).
  { apply Hiff. eexists 0, _. split; [lia|].
    split; vm_compute; reflexivity. }
  split; [exact Hseen|exact (Hskip Hseen)].
Defined.

(** C1, as the specification words it, fails: in the document with two
    sections numbered 10 whose first has too little content, the second is
    skipped as a duplicate although no provision s10 has been emitted. *)
Lemma duplicate_skipped_without_provision :
  ~ skipped_iff_emitted ascii_toLowerCase (splitIntoSections doc_duplicate).
Proof.
  intros H.
  assert (Hk : splitIntoSections doc_duplicate !! 1
               = Some {| sectionNum := js "10"; sectionTitle := js "Duplicate";
                         bodyHtml := p_open "subsection"
                                     ++ js "(1) The text of section ten."
                                     ++ p_close;
                         partContext := None; position := 65 |})
    by (vm_compute; reflexivity).
  apply H in Hk. cbv zeta in Hk. cbn [sectionNum] in Hk.
  assert (Hp : acc_provisions
                 (parse_run ascii_toLowerCase
                    (take 1 (splitIntoSections doc_duplicate))) = [])
    by (vm_compute; reflexivity).
  rewrite Hp in Hk.
  destruct Hk as [Hk _].
  destruct Hk as (p & Hin & _).
  - apply (bool_decide_unpack _). vm_compute. exact I.
  - by apply elem_of_nil in Hin.
Qed.

(** C3.  When the body holds no paragraph of a content class, the content
    is the normalized body as a whole if that is longer than 10 characters,
    and empty otherwise.  So the section whose body is a plain paragraph of
    50 characters yields one provision with these 50 characters, and the
    section whose body is a plain paragraph of 8 characters yields none. *)
Theorem fallback_content :
  (forall bodyHtml,
      exec_all true contentRegex bodyHtml = [] ->
      extractSectionContent bodyHtml
      = if 10 <? length (stripHtml bodyHtml)
        then take 8000 (stripHtml bodyHtml)
        else [])
  /\ (forall toLowerCase,
        exec_all true contentRegex (js "<p>" ++ fifty ++ js "</p>") = []
        /\ length fifty = 50
        /\ parseAustralianHtml toLowerCase doc_plain50
           = {| provisions :=
                  [{| provision_ref := js "s1"; chapter := None;
                      section := js "1"; title := js "Short title";
                      content := fifty |}];
                definitions := [] |})
  /\ (forall toLowerCase,
        exec_all true contentRegex (js "<p>Repealed</p>") = []
        /\ parseAustralianHtml toLowerCase doc_plain8
           = {| provisions := []; definitions := [] |}).
Proof.
  split_and!.
  - intros bodyHtml H. unfold extractSectionContent. rewrite H.
    cbn [fold_left length Nat.eqb]. cbv zeta.
    destruct (10 <? length (stripHtml bodyHtml)).
    + cbn [app join]. apply substring_0.
    + cbn [join]. rewrite substring_0. apply take_nil.
  - intros toLowerCase.
    split; [vm_compute; reflexivity|]. split; [vm_compute; reflexivity|].
    unfold parseAustralianHtml. cbv zeta.
    assert (splitIntoSections doc_plain50
            = [{| sectionNum := js "1"; sectionTitle := js "Short title";
                  bodyHtml := js "<p>" ++ fifty ++ js "</p>";
                  partContext := None; position := 0 |}]) as ->
      by (vm_compute; reflexivity).
    unfold parse_run. cbn [fold_left].
    set (sec := {| sectionNum := js "1"; sectionTitle := js "Short title";
                   bodyHtml := js "<p>" ++ fifty ++ js "</p>";
                   partContext := None; position := 0 |}).
    assert (Hp : acc_provisions (parse_iter toLowerCase parse_init sec)
                 = [{| provision_ref := js "s1"; chapter := None;
                       section := js "1"; title := js "Short title";
                       content := fifty |}]).
    { rewrite parse_iter_provisions. vm_compute. reflexivity. }
    assert (Hd : acc_definitions (parse_iter toLowerCase parse_init sec) = []).
    { rewrite parse_iter_definitions. subst sec. cbn [bodyHtml sectionNum].
      assert (extractDefinitions (js "<p>" ++ fifty ++ js "</p>")
                (js "s" ++ js "1") = []) as -> by (vm_compute; reflexivity).
      destruct (decide _); [reflexivity|].
      destruct (_ <? _); [reflexivity|].
      destruct (is_definitions_title _ _); reflexivity. }
    rewrite Hp, Hd. reflexivity.
  - intros toLowerCase. split; [vm_compute; reflexivity|].
    unfold parseAustralianHtml. cbv zeta.
    assert (splitIntoSections doc_plain8
            = [{| sectionNum := js "1"; sectionTitle := js "Short title";
                  bodyHtml := js "<p>Repealed</p>";
                  partContext := None; position := 0 |}]) as ->
      by (vm_compute; reflexivity).
    unfold parse_run. cbn [fold_left].
    set (sec := {| sectionNum := js "1"; sectionTitle := js "Short title";
                   bodyHtml := js "<p>Repealed</p>";
                   partContext := None; position := 0 |}).
    assert (Hp : acc_provisions (parse_iter toLowerCase parse_init sec) = []).
    { rewrite parse_iter_provisions. vm_compute. reflexivity. }
    assert (Hd : acc_definitions (parse_iter toLowerCase parse_init sec) = []).
    { rewrite parse_iter_definitions. subst sec. cbn [bodyHtml sectionNum].
      assert ((length (extractSectionContent (js "<p>Repealed</p>")) <? 5)
              = true) as -> by (vm_compute; reflexivity).
      destruct (decide _); reflexivity. }
    rewrite Hp, Hd. reflexivity.
Qed.

Lemma fallback_content_witness :
  exec_all true contentRegex (js "<p>" ++ fifty ++ js "</p>") = []
  /\ extractSectionContent (js "<p>" ++ fifty ++ js "</p>") = fifty.
Proof.
  split; [vm_compute; reflexivity|].
  rewrite (proj1 fallback_content (js "<p>" ++ fifty ++ js "</p>")
             ltac:(vm_compute; reflexivity)).
  vm_compute. reflexivity.
Defined.

(** C4.  A section whose content is shorter than 5 characters adds neither
    a provision nor a definition, whatever its title: its turn leaves both
    sequences as they were, the definitions are not scanned.  So every
    provision of a record has a content of 5 characters or more. *)
Theorem short_content_dropped toLowerCase :
  (forall st sec,
      length (extractSectionContent (bodyHtml sec)) < 5 ->
      acc_provisions (parse_iter toLowerCase st sec) = acc_provisions st
      /\ acc_definitions (parse_iter toLowerCase st sec) = acc_definitions st)
  /\ (forall html,
        Forall (fun p => 5 <= length (content p))
          (provisions (parseAustralianHtml toLowerCase html))).
Proof.
  split.
  - intros st sec H. apply Nat.ltb_lt in H.
    rewrite parse_iter_provisions, parse_iter_definitions, H.
    by destruct (decide _).
  - intros html. unfold parseAustralianHtml. cbv zeta. cbn [provisions].
    unfold parse_run. apply fold_left_inv; [|constructor].
    intros st sec Hst. rewrite parse_iter_provisions.
    destruct (decide _); [done|].
    destruct (Nat.ltb_spec (length (extractSectionContent (bodyHtml sec))) 5);
      [done|].
    apply Forall_app. split; [done|]. constructor; [|constructor]. done.
Qed.

Lemma short_content_dropped_witness :
  exists sec,
    splitIntoSections doc_short_definitions = [sec]
    /\ is_definitions_title ascii_toLowerCase (sectionTitle sec) = true
    /\ length (extractDefinitions (bodyHtml sec) (js "s4")) = 1
    /\ length (extractSectionContent (bodyHtml sec)) < 5
    /\ acc_provisions (parse_iter ascii_toLowerCase
                         (parse_init) sec) = []
    /\ acc_definitions (parse_iter ascii_toLowerCase
                          (parse_init) sec) = [].
Proof.
  eexists.
  split; [vm_compute; reflexivity|].
  split; [vm_compute; reflexivity|].
  split; [vm_compute; reflexivity|].
  split; [vm_compute; lia|].
  apply (proj1 (short_content_dropped ascii_toLowerCase) parse_init).
  vm_compute. lia.
Defined.

(** ** The scan and the markup *)

(** *** The matcher finds every word of an expression without anchors *)




(** ** The scan is leftmost: what lies between its matches *)

(** Before the first match of the scan, and when it finds none, the
    expression matches at no position that the scan tries. *)
Lemma exec_go_head ic r n s : forall pos skip,
  match exec_go ic r n s pos skip with
  | mr :: _ =>
      pos + skip <= mindex mr
      /\ forall p, skip <= p -> pos + p < mindex mr ->
           match_here ic r n (drop p s) = None
  | [] =>
      forall p, skip <= p -> p <= length s ->
        match_here ic r n (drop p s) = None
  end.
Proof.
  induction s as [|x s IH]; intros pos skip.
  - destruct skip as [|skip]; cbn [exec_go].
    + destruct (match_here ic r n []) as [[rest c]|] eqn:E.
      * cbn [mindex]. split; [lia|]. intros p _ Hp. lia.
      * intros p _ Hp. by rewrite drop_nil.
    + intros p H1 H2. simpl in H2. lia.
  - destruct skip as [|skip]; cbn [exec_go].
    + destruct (match_here ic r n (x :: s)) as [[rest c]|] eqn:E.
      * cbn [mindex]. split; [lia|]. intros p _ Hp. lia.
      * specialize (IH (S pos) 0).
        destruct (exec_go ic r n s (S pos) 0) as [|mr l].
        -- intros [|p] _ Hp; [exact E|]. cbn [drop]. apply IH; [lia|].
           simpl in Hp. lia.
        -- destruct IH as [Hlo IH]. split; [lia|].
           intros [|p] _ Hp; [exact E|]. cbn [drop]. apply IH; lia.
    + specialize (IH (S pos) skip).
      destruct (exec_go ic r n s (S pos) skip) as [|mr l].
      * intros [|p] H1 Hp; [lia|]. cbn [drop]. apply IH; [lia|].
        simpl in Hp. lia.
      * destruct IH as [Hlo IH]. split; [lia|].
        intros [|p] H1 Hp; [lia|]. cbn [drop]. apply IH; lia.
Qed.

(** Every match of the scan is a match of the expression at its position,
    and up to the next match of the scan, or to the end when it is the last,
    the expression matches at no position after the match. *)
Lemma exec_go_gap ic r n s : forall pos skip i mr,
  exec_go ic r n s pos skip !! i = Some mr ->
  pos <= mindex mr /\ mindex mr - pos <= length s
  /\ (exists rest,
        match_here ic r n (drop (mindex mr - pos) s) = Some (rest, groups mr)
        /\ matched mr
           = take (length (drop (mindex mr - pos) s) - length rest)
               (drop (mindex mr - pos) s))
  /\ match exec_go ic r n s pos skip !! S i with
     | Some next =>
         forall p,
           S (mindex mr) `max` (mindex mr + length (matched mr)) <= pos + p ->
           pos + p < mindex next ->
           match_here ic r n (drop p s) = None
     | None =>
         forall p,
           S (mindex mr) `max` (mindex mr + length (matched mr)) <= pos + p ->
           p <= length s ->
           match_here ic r n (drop p s) = None
     end.
Proof.
  induction s as [|x s IH]; intros pos skip i mr.
  - destruct skip as [|skip]; cbn [exec_go]; [|done].
    destruct (match_here ic r n []) as [[rest c]|] eqn:E; [|done].
    destruct i as [|i]; [|done]. intros [= <-]. cbn [mindex matched groups].
    rewrite Nat.sub_diag. cbn [drop]. split; [lia|]. split; [simpl; lia|].
    split; [by exists rest|].
    cbn [lookup list_lookup]. intros p Hp Hp'. simpl in Hp'. lia.
  - assert (Hshift : forall skip' i,
              exec_go ic r n s (S pos) skip' !! i = Some mr ->
              pos <= mindex mr /\ mindex mr - pos <= length (x :: s)
              /\ (exists rest,
                    match_here ic r n (drop (mindex mr - pos) (x :: s))
                    = Some (rest, groups mr)
                    /\ matched mr
                       = take (length (drop (mindex mr - pos) (x :: s))
                               - length rest)
                           (drop (mindex mr - pos) (x :: s)))
              /\ match exec_go ic r n s (S pos) skip' !! S i with
                 | Some next =>
                     forall p,
                       S (mindex mr) `max` (mindex mr + length (matched mr))
                       <= pos + p ->
                       pos + p < mindex next ->
                       match_here ic r n (drop p (x :: s)) = None
                 | None =>
                     forall p,
                       S (mindex mr) `max` (mindex mr + length (matched mr))
                       <= pos + p ->
                       p <= length (x :: s) ->
                       match_here ic r n (drop p (x :: s)) = None
                 end).
    { intros skip' j Hj.
      destruct (IH (S pos) skip' j mr Hj) as (Hlo & Hhi & Hm & Hgap).
      replace (mindex mr - pos) with (S (mindex mr - S pos)) by lia.
      cbn [drop]. split; [lia|]. split; [simpl; lia|]. split; [exact Hm|].
      destruct (exec_go ic r n s (S pos) skip' !! S j) as [next|].
      - intros [|p] H1 H2; [lia|]. cbn [drop]. apply Hgap; lia.
      - intros [|p] H1 H2; [lia|]. cbn [drop]. apply Hgap; [lia|].
        simpl in H2. lia. }
    destruct skip as [|skip]; cbn [exec_go]; [|apply Hshift].
    destruct (match_here ic r n (x :: s)) as [[rest c]|] eqn:E;
      [|apply Hshift].
    cbv zeta. destruct i as [|i]; [|apply Hshift].
    intros [= <-]. cbn [mindex matched groups].
    rewrite Nat.sub_diag. cbn [drop]. split; [lia|]. split; [lia|].
    split; [by exists rest|].
    cbn [lookup list_lookup].
    change (S (length s)) with (length (x :: s)).
    rewrite length_take.
    set (len := length (x :: s) - length rest).
    assert (Hlen : len `min` length (x :: s) = len) by (subst len; lia).
    rewrite Hlen. clear Hlen.
    pose proof (exec_go_head ic r n s (S pos) (len - 1)) as Hhead.
    destruct (exec_go ic r n s (S pos) (len - 1)) as [|next l].
    + cbn [lookup list_lookup]. intros [|p] H1 H2; [lia|]. cbn [drop].
      apply Hhead; [lia|]. simpl in H2. lia.
    + cbn [lookup list_lookup]. destruct Hhead as [_ Hhead].
      intros [|p] H1 H2; [lia|]. cbn [drop]. apply Hhead; lia.
Qed.

(** The same for the matches of a whole string. *)
Lemma exec_all_gap ic r s i mr :
  exec_all ic r s !! i = Some mr ->
  exists rest,
    match_here ic r (length s) (drop (mindex mr) s) = Some (rest, groups mr)
    /\ mindex mr <= length s
    /\ drop (mindex mr) s = matched mr ++ rest
    /\ forall p,
         S (mindex mr) `max` (mindex mr + length (matched mr)) <= p ->
         p < match exec_all ic r s !! S i with
             | Some next => mindex next
             | None => S (length s)
             end ->
         match_here ic r (length s) (drop p s) = None.
Proof.
  unfold exec_all. intros Hi.
  destruct (exec_go_gap ic r (length s) s 0 0 i mr Hi)
    as (_ & Hhi & (rest & Hm & Hmatched) & Hgap).
  rewrite Nat.sub_0_r in *.
  exists rest. split; [exact Hm|]. split; [exact Hhi|]. split.
  - destruct (match_here_sound _ _ _ _ _ _ Hm) as (w & Hw & _).
    rewrite Hmatched, Hw, length_app, Nat.add_sub, take_app_length. done.
  - intros p H1 H2.
    destruct (exec_go ic r (length s) s 0 0 !! S i) as [next|].
    + apply (Hgap p); simpl; lia.
    + apply (Hgap p); simpl; lia.
Qed.

Lemma slice_of_drop (s : jsstring) a w rest :
  a <= length s -> drop a s = w ++ rest ->
  a + length w <= length s /\ slice s a (a + length w) = w.
Proof.
  intros Ha H. split.
  - assert (Hl : length (drop a s) = length w + length rest)
      by (by rewrite H, length_app).
    rewrite length_drop in Hl. lia.
  - unfold slice. rewrite Nat.add_comm, Nat.add_sub, H.
    apply take_app_length.
Qed.

(** ** The words of the paragraph expressions *)

Lemma lang_seqs_cons ic a rs w :
  lang ic (seqs (a :: rs)) w
  <-> exists w1 w2, w = w1 ++ w2 /\ lang ic a w1 /\ lang ic (seqs rs) w2.
Proof.
  destruct rs as [|b rs]; [|reflexivity]. cbn [seqs lang]. split.
  - intros Hw. exists w, []. by rewrite app_nil_r.
  - intros (w1 & w2 & -> & Hw & ->). by rewrite app_nil_r.
Qed.

Lemma lang_seqs_app ic l1 l2 w :
  lang ic (seqs (l1 ++ l2)) w
  <-> exists w1 w2, w = w1 ++ w2 /\ lang ic (seqs l1) w1 /\ lang ic (seqs l2) w2.
Proof.
  revert w. induction l1 as [|a l1 IH]; intros w.
  - cbn [app]. split.
    + intros Hw. by exists [], w.
    + intros (w1 & w2 & -> & -> & Hw). exact Hw.
  - change ((a :: l1) ++ l2) with (a :: (l1 ++ l2)).
    rewrite !lang_seqs_cons. split.
    + intros (wa & w' & -> & Ha & (w1 & w2 & -> & H1 & H2)%IH).
      exists (wa ++ w1), w2. rewrite <- app_assoc. split; [done|].
      split; [|done]. apply lang_seqs_cons. by exists wa, w1.
    + intros (w1 & w2 & -> & (wa & w1' & -> & Ha & H1)%lang_seqs_cons & H2).
      exists wa, (w1' ++ w2). rewrite <- app_assoc. split; [done|].
      split; [done|]. apply IH. by exists w1', w2.
Qed.

Lemma lang_lits_iff u w :
  lang true (lits u) w <-> map ascii_upper w = map ascii_upper u.
Proof.
  split; [apply lang_lits|]. revert w.
  induction u as [|a u IH]; intros w Hw; cbn [lits foldr lang].
  - by destruct w.
  - destruct w as [|x w]; [done|]. injection Hw as Hx Hw.
    exists [x], w. split; [done|]. split; [|by apply IH].
    exists x. split; [done|]. unfold lit_eq. apply N.eqb_eq. by rewrite Hx.
Qed.

Lemma lang_word u w : lang true (word u) w <-> same_word u w.
Proof. apply lang_lits_iff. Qed.

(** A code unit that is no letter is matched by itself only. *)
Lemma lit_eq_plain a x :
  ascii_upper a = a -> ascii_lower a = a ->
  lit_eq true a x = true <-> x = a.
Proof.
  intros Hup Hlow. unfold lit_eq. rewrite N.eqb_eq, Hup. split.
  - intros H. unfold ascii_upper in H.
    destruct ((97 <=? x) && (x <=? 122))%N eqn:E; [|done].
    apply andb_true_iff in E as [E1%N.leb_le E2%N.leb_le].
    unfold ascii_lower in Hlow.
    destruct ((65 <=? a) && (a <=? 90))%N eqn:E'.
    + apply andb_true_iff in E' as [E3%N.leb_le E4%N.leb_le]. lia.
    + apply andb_false_iff in E' as [E3%N.leb_gt|E3%N.leb_gt]; lia.
  - intros ->. by rewrite Hup.
Qed.

Lemma lang_Lit_plain a w :
  ascii_upper a = a -> ascii_lower a = a ->
  lang true (Lit a) w <-> w = [a].
Proof.
  intros Hup Hlow. cbn [lang]. split.
  - intros (x & -> & Hx). f_equal. by apply (lit_eq_plain a x).
  - intros ->. exists a. split; [done|]. by apply lit_eq_plain.
Qed.

Lemma in_class_not_gt x :
  xorb true (in_class true [CChar (ch ">")] x) = true <-> x <> ch ">".
Proof.
  unfold in_class. cbn [existsb in_cset andb]. rewrite orb_false_r.
  change (ch ">") with 62%N. split.
  - intros H ->. done.
  - intros Hx.
    assert ((x =? 62)%N = false) as -> by by apply N.eqb_neq.
    assert ((ascii_upper x =? 62)%N = false) as ->.
    { apply N.eqb_neq. unfold ascii_upper.
      destruct ((97 <=? x) && (x <=? 122))%N eqn:E; [|done].
      apply andb_true_iff in E as [E1%N.leb_le E2%N.leb_le]. lia. }
    assert ((ascii_lower x =? 62)%N = false) as ->.
    { apply N.eqb_neq. unfold ascii_lower.
      destruct ((65 <=? x) && (x <=? 90))%N eqn:E; [|done].
      apply andb_true_iff in E as [E1%N.leb_le E2%N.leb_le]. lia. }
    done.
Qed.

Lemma in_class_any ic x : in_class ic [CSpace; CNotSpace] x = true.
Proof.
  unfold in_class. cbn [existsb in_cset]. destruct (is_space x); [done|].
  cbn [negb orb]. apply orb_true_r.
Qed.

Lemma lang_star_chars ic g neg items w :
  lang ic (Star g (Class neg items)) w
  <-> Forall (fun x => xorb neg (in_class ic items x) = true) w.
Proof.
  split.
  - intros (ws & -> & Hws). induction Hws as [|v ws (x & -> & Hx) _ IH].
    + constructor.
    + cbn [concat app]. by constructor.
  - intros Hw. exists ((fun x => [x]) <$> w). split.
    + induction w as [|x w IH]; [done|]. cbn [fmap list_fmap concat app].
      f_equal. apply IH. by apply Forall_inv_tail in Hw.
    + apply Forall_fmap. eapply Forall_impl; [exact Hw|].
      intros x Hx. by exists x.
Qed.

Lemma lang_not_gt g w :
  lang true (Star g not_gt) w <-> Forall (fun x => x <> ch ">") w.
Proof.
  unfold not_gt. rewrite lang_star_chars. split; intros H;
    (eapply Forall_impl; [exact H|]); intros x Hx; by apply in_class_not_gt.
Qed.


Lemma lang_open_tag wp :
  lang true (seqs [word "<p"; Star true not_gt; word "class="; Lit dq]) wp
  <-> exists lp a1 cl,
        wp = lp ++ a1 ++ cl ++ [dq]
        /\ same_word "<p" lp /\ Forall (fun x => x <> ch ">") a1
        /\ same_word "class=" cl.
Proof.
  split.
  - intros H.
    apply lang_seqs_cons in H as (lp & w1 & -> & Hlp%lang_word & H).
    apply lang_seqs_cons in H as (a1 & w2 & -> & Ha1%lang_not_gt & H).
    apply lang_seqs_cons in H as (cl & w3 & -> & Hcl%lang_word & H).
    apply (lang_Lit_plain dq) in H; [|reflexivity..]. subst w3.
    by exists lp, a1, cl.
  - intros (lp & a1 & cl & -> & Hlp & Ha1 & Hcl).
    apply lang_seqs_cons. exists lp, (a1 ++ cl ++ [dq]).
    split; [done|]. split; [by apply lang_word|].
    apply lang_seqs_cons. exists a1, (cl ++ [dq]).
    split; [done|]. split; [by apply lang_not_gt|].
    apply lang_seqs_cons. exists cl, [dq].
    split; [done|]. split; [by apply lang_word|].
    by apply (lang_Lit_plain dq).
Qed.

Lemma lang_end_tag wm :
  lang true (seqs [Lit dq; Star true not_gt; Lit (ch ">")]) wm
  <-> exists a2, wm = [dq] ++ a2 ++ [ch ">"]
        /\ Forall (fun x => x <> ch ">") a2.
Proof.
  split.
  - intros H.
    apply lang_seqs_cons in H as (q & w1 & -> & Hq & H).
    apply (lang_Lit_plain dq) in Hq; [|reflexivity..]. subst q.
    apply lang_seqs_cons in H as (a2 & w2 & -> & Ha2%lang_not_gt & H).
    apply (lang_Lit_plain (ch ">")) in H; [|reflexivity..]. subst w2.
    by exists a2.
  - intros (a2 & -> & Ha2).
    apply lang_seqs_cons. exists [dq], (a2 ++ [ch ">"]).
    split; [done|]. split; [by apply (lang_Lit_plain dq)|].
    apply lang_seqs_cons. exists a2, [ch ">"].
    split; [done|]. split; [by apply lang_not_gt|].
    by apply (lang_Lit_plain (ch ">")).
Qed.



Lemma defRegex_parts :
  defRegex
  = seqs (([word "<p"; Star true not_gt; word "class="; Lit dq]
           ++ [word "Definition"]
           ++ [Lit dq; Star true not_gt; Lit (ch ">")])
          ++ Grp 1 (Star false any) :: [word "</p>"]).
Proof. reflexivity. Qed.


(** ** The captures of a match of a sequence *)

Lemma grp_ids_seqs_cons a rs j :
  j ∈ grp_ids (seqs (a :: rs)) <-> j ∈ grp_ids a \/ j ∈ grp_ids (seqs rs).
Proof.
  destruct rs as [|b rs].
  - cbn [seqs grp_ids]. rewrite elem_of_nil. tauto.
  - change (seqs (a :: b :: rs)) with (Seq a (seqs (b :: rs))).
    cbn [grp_ids]. apply elem_of_app.
Qed.

(** A match of a sequence with a group in it: the word before the group,
    the word of the group, and the match of what follows the group, which
    starts with the capture of the group. *)
Lemma seqs_group_split {A} ic n pre i R post
    (k : jsstring -> caps -> option A) : forall s c0 x,
  m ic n (seqs (pre ++ Grp i R :: post)) k s c0 = Some x ->
  exists wp w s1 c1,
    s = wp ++ w ++ s1 /\ lang ic (seqs pre) wp /\ lang ic R w
    /\ (forall j, j ∉ grp_ids (seqs pre) -> j ∉ grp_ids R ->
          group j c1 = group j c0)
    /\ m ic n (seqs post) k s1 ((i, w) :: c1) = Some x.
Proof.
  induction pre as [|a pre IH]; intros s c0 x H.
  - cbn [app] in H. rewrite m_seqs_cons in H. cbn [m] in H.
    apply m_sound in H as (w & s1 & c1 & -> & Hw & H & Hg).
    rewrite length_app, Nat.add_sub, take_app_length in H.
    exists [], w, s1, c1. split; [done|]. split; [done|]. split; [done|].
    split; [|exact H]. intros j _ Hj. by apply Hg.
  - change ((a :: pre) ++ Grp i R :: post)
      with (a :: (pre ++ Grp i R :: post)) in H.
    rewrite m_seqs_cons in H.
    apply m_sound in H as (wa & s1 & c1 & -> & Hwa & H & Hg).
    apply IH in H as (wp & w & s2 & c2 & -> & Hwp & Hw & Hg2 & H).
    exists (wa ++ wp), w, s2, c2. split; [by rewrite <- app_assoc|].
    split; [apply lang_seqs_cons; by exists wa, wp|]. split; [done|].
    split; [|exact H]. intros j Hj HjR.
    rewrite Hg2; [apply Hg| |done].
    + intros Hin. apply Hj. apply grp_ids_seqs_cons. by left.
    + intros Hin. apply Hj. apply grp_ids_seqs_cons. by right.
Qed.


(** A match of the definition expression lies over a paragraph whose class
    is Definition and whose content is the capture. *)
Lemma definition_match_shape n s rest c :
  match_here true defRegex n s = Some (rest, c) ->
  exists fragment w,
    s = w ++ rest /\ group 1 c = Some fragment
    /\ definition_paragraph fragment w.
Proof.
  unfold match_here. rewrite defRegex_parts. intros H.
  apply seqs_group_split in H as (wp & inner & s1 & c1 & -> & Hwp & _ & _ & H).
  apply m_sound in H as (close & s3 & c3 & -> & Hclose & [= <- <-] & Hg3).
  apply lang_seqs_app in Hwp as (wo & w1 & -> & Hwo & Hwp).
  apply lang_seqs_app in Hwp as (cls & wm & -> & Hcls & Hwm).
  apply lang_open_tag in Hwo as (lp & a1 & cl & -> & Hlp & Ha1 & Hcl).
  apply lang_end_tag in Hwm as (a2 & -> & Ha2).
  apply lang_word in Hclose. apply lang_word in Hcls.
  exists inner,
    (lp ++ a1 ++ cl ++ [dq] ++ cls ++ [dq] ++ a2 ++ [ch ">"] ++ inner ++ close).
  split; [by rewrite <- !app_assoc|].
  split.
  { rewrite Hg3 by (intros ?%elem_of_nil; done). cbn [group Nat.eqb]. done. }
  exists cls. split; [exact Hcls|]. by exists lp, a1, cl, a2, close.
Qed.

(** ** Where the headings of the scan lie in the markup *)



(** ** Section bodies and heading levels: the claims *)



(** C5.  The level of a heading is the digit that ends its class: for a
    digit from 1 to 8 the level is that digit.  A heading whose class ends in
    9 is folded into level 5: the loop treats it exactly as it treats the same
    heading with a class of level 5, and it is a section heading: when its
    text has the form of a section heading, its turn of the loop emits the
    section of that number and title, with the body that follows the heading
    and the context in force, and leaves the context as it is; the section is
    in the result of [splitIntoSections].  No other suffix yields a heading:
    the class of every heading of the scan is one of the families ActHead,
    New and Heading (in any case) followed by a digit from 1 to 9, and the
    scan is a total function, so other markup is passed over without an
    error. *)
Theorem heading_level_normalization :
  (forall h fam d,
      class h = fam ++ [d] -> (49 <= d <= 56)%N ->
      level_of h = N.to_nat d - 48 /\ 1 <= level_of h <= 8)
  /\ (forall html hs st i h h5 fam fam5,
        hs !! i = Some h ->
        class h = fam ++ [ch "9"] -> class h5 = fam5 ++ [ch "5"] ->
        text h5 = text h -> index h5 = index h -> end_ h5 = end_ h ->
        level_of h = 9 /\ level_of h5 = 5
        /\ split_iter html hs st i = split_iter html (<[i:=h5]> hs) st i)
  /\ (forall html h,
        h ∈ scanHeadings html ->
        exists fam d,
          class h = fam ++ [d]
          /\ map ascii_upper fam ∈ [js "ACTHEAD"; js "NEW"; js "HEADING"]
          /\ (49 <= d <= 57)%N)
  /\ (forall html hs st i h fam sectMatch,
        hs !! i = Some h ->
        class h = fam ++ [ch "9"] ->
        search false sectRegex (text h) = Some sectMatch ->
        split_iter html hs st i
        = {| sections :=
               sections st ++
               [{| sectionNum := capture 1 sectMatch;
                   sectionTitle := trim (capture 2 sectMatch);
                   bodyHtml := substring html (end_ h) (next_start html hs i);
                   partContext :=
                     context_label (currentPart st) (currentDivision st);
                   position := index h |}];
             currentPart := currentPart st;
             currentDivision := currentDivision st |})
  /\ (forall html i h fam sectMatch,
        scanHeadings html !! i = Some h ->
        class h = fam ++ [ch "9"] ->
        search false sectRegex (text h) = Some sectMatch ->
        exists sec,
          sec ∈ splitIntoSections html
          /\ position sec = index h
          /\ sectionNum sec = capture 1 sectMatch
          /\ sectionTitle sec = trim (capture 2 sectMatch)
          /\ bodyHtml sec
             = slice html (end_ h) (next_start html (scanHeadings html) i)).
Proof.
  split_and!.
  - intros h fam d Hc Hd.
    assert (Hdig : is_digit d = true) by (unfold is_digit; nbool).
    rewrite (level_of_suffix h fam d Hc Hdig). lia.
  - intros html hs st i h h5 fam fam5 Hi Hc Hc5 Ht Hx He.
    assert (H9 : level_of h = 9) by (by rewrite (level_of_suffix h fam _ Hc)).
    assert (H5 : level_of h5 = 5) by (by rewrite (level_of_suffix h5 fam5 _ Hc5)).
    split_and!; [done..|].
    assert (Hi5 : <[i:=h5]> hs !! i = Some h5).
    { apply list_lookup_insert_eq. by eapply lookup_lt_Some. }
    destruct (search false sectRegex (text h)) as [sm|] eqn:Hs.
    + rewrite (split_iter_section html hs st i h sm) by auto.
      rewrite (split_iter_section html (<[i:=h5]> hs) st i h5 sm)
        by (rewrite ?Ht; auto).
      unfold next_start. rewrite list_lookup_insert_ne by lia.
      by rewrite Hx, He.
    + rewrite (split_iter_skip html hs st i h) by auto.
      rewrite (split_iter_skip html (<[i:=h5]> hs) st i h5)
        by (rewrite ?Ht; auto).
      done.
  - apply heading_class.
  - intros html hs st i h fam sectMatch Hi Hc Hs.
    assert (H9 : level_of h = 9) by (by rewrite (level_of_suffix h fam _ Hc)).
    apply split_iter_section; auto.
  - intros html i h fam sectMatch Hi Hc Hs.
    assert (H9 : level_of h = 9) by (by rewrite (level_of_suffix h fam _ Hc)).
    set (hs := scanHeadings html) in *.
    eexists. split.
    { unfold splitIntoSections. fold hs.
      eapply elem_of_prefix; [|apply (split_run_prefix html hs (S i))].
      + rewrite split_run_S, (split_iter_section html hs _ i h sectMatch)
          by auto.
        cbn [sections]. rewrite elem_of_app, list_elem_of_singleton. by right.
      + by eapply lookup_lt_Some. }
    cbn [position sectionNum sectionTitle bodyHtml].
    split; [done|]. split; [done|]. split; [done|].
    destruct (next_start_bounds html i h Hi) as [Hlo Hhi].
    by apply substring_slice.
Qed.

Lemma heading_level_normalization_witness :
  (exists h h5,
     scanHeadings doc_level9 !! 0 = Some h
     /\ class h = js "Heading" ++ [ch "9"]
     /\ class h5 = js "Heading" ++ [ch "5"]
     /\ level_of h5 = 5
     /\ level_of h = 9
     /\ split_iter doc_level9 (scanHeadings doc_level9)
          (split_run doc_level9 (scanHeadings doc_level9) 0) 0
        = split_iter doc_level9 (<[0:=h5]> (scanHeadings doc_level9))
            (split_run doc_level9 (scanHeadings doc_level9) 0) 0
     /\ (exists fam d, class h = fam ++ [d]
           /\ map ascii_upper fam ∈ [js "ACTHEAD"; js "NEW"; js "HEADING"]
           /\ (49 <= d <= 57)%N))
  /\ (exists sec,
        sec ∈ splitIntoSections doc_level9
        /\ position sec = 0
        /\ sectionNum sec = js "3LA"
        /\ sectionTitle sec = js "Person with knowledge"
        /\ bodyHtml sec = p_open "indenta" ++ js "(a) a person." ++ p_close)
  /\ provisions (parseAustralianHtml ascii_toLowerCase doc_level9)
     = [{| provision_ref := js "s3LA"; chapter := None;
           section := js "3LA"; title := js "Person with knowledge";
           content := js "(a) a person." |}].
Proof.
  destruct heading_level_normalization as (H18 & H9 & Hscan & _ & Hsec).
  split; [|split].
  - eexists _, {| class := js "Heading" ++ [ch "5"]; text := _; index := _;
                 end_ := _ |}.
    split; [vm_compute; reflexivity|].
    split; [reflexivity|]. split; [reflexivity|].
    split.
    { apply (H18 _ (js "Heading") (ch "5")); [reflexivity|].
      vm_compute; split; discriminate. }
    match goal with
    | |- _ /\ (split_iter ?html ?hs ?st ?i
               = split_iter _ (<[_:=?h5]> _) _ _) /\ _ =>
        destruct (H9 html hs st i _ h5 (js "Heading") (js "Heading")
                    ltac:(vm_compute; reflexivity) ltac:(reflexivity)
                    ltac:(reflexivity) ltac:(reflexivity) ltac:(reflexivity)
                    ltac:(reflexivity)) as (L9 & _ & Heq)
    end.
    split; [exact L9|]. split; [exact Heq|].
    apply (Hscan doc_level9). vm_compute. left.
  - destruct (Hsec doc_level9 0 _ (js "Heading") _
                ltac:(vm_compute; reflexivity) ltac:(reflexivity)
                ltac:(vm_compute; reflexivity))
      as (sec & Hin & Hpos & Hnum & Htitle & Hbody).
    exists sec. split; [exact Hin|].
    split; [rewrite Hpos; vm_compute; reflexivity|].
    split; [rewrite Hnum; vm_compute; reflexivity|].
    split; [rewrite Htitle; vm_compute; reflexivity|].
    rewrite Hbody. vm_compute. reflexivity.
  - vm_compute. reflexivity.
Defined.

(** ** The definition expression on a definition paragraph *)

(** A literal word under the flag [i]: a comparison of upper cases. *)
Lemma m_lits_ci {A} n u (k : jsstring -> caps -> option A) : forall s c,
  m true n (lits u) k s c
  = if is_prefix (map ascii_upper u) (map ascii_upper s)
    then k (drop (length u) s) c
    else None.
Proof.
  induction u as [|a u IH]; intros s c; [done|].
  cbn [lits foldr m]. fold (lits u). destruct s as [|x s]; [done|].
  cbn [map is_prefix length drop]. unfold lit_eq.
  destruct (ascii_upper a =? ascii_upper x)%N; [|done]. cbn [andb]. apply IH.
Qed.

Lemma m_not_gt_cons {A} n (k : jsstring -> caps -> option A) x t c :
  x <> ch ">" ->
  m true n (Star true not_gt) k (x :: t) c
  = match m true n (Star true not_gt) k t c with
    | Some y => Some y
    | None => k (x :: t) c
    end.
Proof.
  intros Hx. cbn [m length star_loop]. cbv zeta. unfold not_gt at 1.
  cbn [m]. apply in_class_not_gt in Hx. rewrite Hx.
  assert ((length t <? S (length t)) = true) as -> by (apply Nat.ltb_lt; lia).
  done.
Qed.

Lemma m_not_gt_stop {A} n (k : jsstring -> caps -> option A) t c :
  match t with [] => True | x :: _ => x = ch ">" end ->
  m true n (Star true not_gt) k t c = k t c.
Proof.
  destruct t as [|x t]; [done|]. intros ->.
  cbn [m length star_loop]. cbv zeta. unfold not_gt at 1. cbn [m].
  assert (xorb true (in_class true [CChar (ch ">")] (ch ">")) = false) as ->
    by reflexivity.
  done.
Qed.

(** The greedy run of attribute characters gives back code units until
    what follows it in the expression fits. *)
Lemma m_not_gt_all_fail {A} n (k : jsstring -> caps -> option A) tail c b :
  match tail with [] => True | x :: _ => x = ch ">" end ->
  Forall (fun x => x <> ch ">") b ->
  (forall j, j <= length b -> k (drop j b ++ tail) c = None) ->
  m true n (Star true not_gt) k (b ++ tail) c = None.
Proof.
  intros Htail Hb. induction Hb as [|x b Hx _ IH]; intros Hk.
  - cbn [app]. rewrite m_not_gt_stop by done. apply (Hk 0). done.
  - cbn [app]. rewrite m_not_gt_cons by done. rewrite IH.
    + apply (Hk 0). simpl. lia.
    + intros j Hj. apply (Hk (S j)). simpl. lia.
Qed.

Lemma m_not_gt_fit {A} n (k : jsstring -> caps -> option A) tail c a1 a2 :
  match tail with [] => True | x :: _ => x = ch ">" end ->
  Forall (fun x => x <> ch ">") a1 ->
  Forall (fun x => x <> ch ">") a2 ->
  (forall j, j < length a2 -> k (drop (S j) a2 ++ tail) c = None) ->
  is_Some (k (a2 ++ tail) c) ->
  m true n (Star true not_gt) k (a1 ++ a2 ++ tail) c = k (a2 ++ tail) c.
Proof.
  intros Htail Ha1 Ha2 Hfail [y Hy].
  assert (H2 : m true n (Star true not_gt) k (a2 ++ tail) c = Some y).
  { destruct Ha2 as [|x a2 Hx Ha2].
    - cbn [app] in *. by rewrite m_not_gt_stop.
    - cbn [app] in *. rewrite m_not_gt_cons by done.
      rewrite (m_not_gt_all_fail n k tail c a2); [done..|].
      intros j Hj. destruct (decide (j < length (x :: a2))) as [Hlt|Hge].
      + apply (Hfail j Hlt).
      + simpl in Hge. lia. }
  rewrite Hy. induction Ha1 as [|x a1 Hx _ IH]; [exact H2|].
  cbn [app]. rewrite m_not_gt_cons by done. by rewrite IH.
Qed.

(** The lazy content of a paragraph ends where what follows it in the
    expression first fits. *)
Lemma m_lazy_any {A} n (k : jsstring -> caps -> option A) t c : forall f,
  (forall j, j < length f -> k (drop j f ++ t) c = None) ->
  is_Some (k t c) ->
  m true n (Star false any) k (f ++ t) c = k t c.
Proof.
  intros f Hfail [y Hy]. induction f as [|x f IH].
  - cbn [app m]. destruct t as [|z t]; cbn [length star_loop]; [done|].
    cbv zeta. by rewrite Hy.
  - cbn [app m length star_loop]. cbv zeta.
    pose proof (Hfail 0 ltac:(simpl; lia)) as H0. cbn [drop app] in H0.
    rewrite H0.
    unfold any at 1. cbn [m]. rewrite in_class_any. cbn [xorb].
    assert ((length (f ++ t) <? S (length (f ++ t))) = true) as ->
      by (apply Nat.ltb_lt; lia).
    apply IH. intros j Hj. apply (Hfail (S j)). simpl. lia.
Qed.

Lemma includes_false s w :
  includes s w = false -> forall j, is_prefix w (drop j s) = false.
Proof.
  revert w. induction s as [|x s IH]; intros w H j.
  - rewrite drop_nil. cbn [includes] in H. by apply orb_false_iff in H as [H _].
  - cbn [includes] in H. apply orb_false_iff in H as [H1 H2].
    destruct j as [|j]; [exact H1|]. cbn [drop]. by apply IH.
Qed.

(** A fragment without a closing paragraph tag does not close early. *)
Lemma no_close_before f rest j :
  includes (map ascii_upper f) (js "</P>") = false ->
  j < length f ->
  is_prefix (map ascii_upper (js "</p>"))
    (map ascii_upper (drop j f ++ p_close ++ rest)) = false.
Proof.
  intros Hinc Hj.
  pose proof (includes_false _ _ Hinc j) as Hpre.
  rewrite skipn_map in Hpre.
  assert (Hne : drop j f <> []).
  { intros E. apply (f_equal length) in E. rewrite length_drop in E.
    simpl in E. lia. }
  rewrite !map_app.
  change (map ascii_upper (js "</p>")) with [60; 47; 80; 62]%N.
  change (map ascii_upper p_close) with [60; 47; 80; 62]%N.
  change (js "</P>") with [60; 47; 80; 62]%N in Hpre.
  destruct (map ascii_upper (drop j f)) as [|a [|b [|d [|e g]]]] eqn:E.
  - by apply map_eq_nil in E.
  - cbn [app is_prefix]. destruct (60 =? a)%N; reflexivity.
  - cbn [app is_prefix]. destruct (60 =? a)%N, (47 =? b)%N; reflexivity.
  - cbn [app is_prefix].
    destruct (60 =? a)%N, (47 =? b)%N, (80 =? d)%N; reflexivity.
  - cbn [app is_prefix] in *. exact Hpre.
Qed.

Lemma is_prefix_app w s : is_prefix w (w ++ s) = true.
Proof. induction w as [|a w IH]; [done|]. cbn [app is_prefix]. by rewrite N.eqb_refl. Qed.

Lemma m_lits_app {A} n u (k : jsstring -> caps -> option A) s c :
  m true n (lits u) k (u ++ s) c = k s c.
Proof.
  rewrite m_lits_ci, map_app, is_prefix_app. by rewrite drop_app_length.
Qed.

Lemma m_Lit_cons {A} n a (k : jsstring -> caps -> option A) s c :
  m true n (Lit a) k (a :: s) c = k s c.
Proof. cbn [m]. unfold lit_eq. by rewrite N.eqb_refl. Qed.

Lemma m_Grp {A} ic n i r (k : jsstring -> caps -> option A) s c :
  m ic n (Grp i r) k s c
  = m ic n r (fun s' c' => k s' ((i, take (length s - length s') s) :: c')) s c.
Proof. reflexivity. Qed.

Lemma class_attr_heads tail j :
  j < 18 ->
  is_prefix (map ascii_upper (js "class="))
    (map ascii_upper
       (drop (S j) (js "class=" ++ [dq] ++ js "Definition" ++ [dq])
        ++ ch ">" :: tail)) = false.
Proof. intros Hj. do 18 (destruct j as [|j]; [reflexivity|]). lia. Qed.

(** The definition expression on a definition paragraph: the match is the
    paragraph and the capture is its content, when the content holds no
    closing paragraph tag. *)
Lemma definition_paragraph_match n f rest :
  includes (map ascii_upper f) (js "</P>") = false ->
  match_here true defRegex n (p_open "Definition" ++ f ++ p_close ++ rest)
  = Some (rest, [(1, f)]).
Proof.
  intros Hf.
  set (a2 := js "class=" ++ [dq] ++ js "Definition" ++ [dq]).
  set (tail := ch ">" :: f ++ p_close ++ rest).
  assert (E : p_open "Definition" ++ f ++ p_close ++ rest
              = js "<p" ++ [32%N] ++ a2 ++ tail) by reflexivity.
  rewrite E. clear E. unfold match_here, defRegex.
  rewrite m_seqs_cons. unfold word at 1. rewrite m_lits_app.
  rewrite m_seqs_cons.
  set (K1 := m true n (seqs [word "class="; Lit dq; word "Definition"; Lit dq;
                             Star true not_gt; Lit (ch ">");
                             Grp 1 (Star false any); word "</p>"])
               (fun s' c' => Some (s', c'))).
  assert (HK1 : K1 (a2 ++ tail) [] = Some (rest, [(1, f)])).
  { subst K1 a2. rewrite <- !app_assoc.
    rewrite m_seqs_cons. unfold word at 1. rewrite m_lits_app.
    rewrite m_seqs_cons. cbn [app]. rewrite m_Lit_cons.
    rewrite m_seqs_cons. unfold word at 1. rewrite m_lits_app.
    rewrite m_seqs_cons. cbn [app]. rewrite m_Lit_cons.
    rewrite m_seqs_cons. subst tail. rewrite m_not_gt_stop by done.
    rewrite m_seqs_cons. rewrite m_Lit_cons.
    rewrite m_seqs_cons. rewrite m_Grp.
    rewrite m_lazy_any.
    - cbn [seqs]. unfold word. unfold p_close at 1.
      rewrite m_lits_app.
      rewrite length_app, Nat.add_sub, take_app_length. done.
    - intros j Hj. cbn [seqs]. unfold word. rewrite m_lits_ci.
      by rewrite no_close_before.
    - cbn [seqs]. unfold word. unfold p_close at 1.
      by rewrite m_lits_app. }
  rewrite (m_not_gt_fit n K1 tail [] [32%N] a2).
  - exact HK1.
  - done.
  - by repeat constructor.
  - apply Forall_forall. intros x Hx ->. revert Hx.
    apply (bool_decide_unpack _). vm_compute. exact I.
  - intros j Hj. subst K1. rewrite m_seqs_cons. unfold word at 1.
    rewrite m_lits_ci. subst tail. by rewrite class_attr_heads.
  - by rewrite HK1.
Qed.

(** ** The scan over a sequence of paragraphs *)

Lemma exec_go_skip ic r n w rest : forall pos,
  exec_go ic r n (w ++ rest) pos (length w)
  = exec_go ic r n rest (pos + length w) 0.
Proof.
  induction w as [|x w IH]; intros pos.
  - cbn [app length]. by rewrite Nat.add_0_r.
  - cbn [app length exec_go]. rewrite IH. f_equal. lia.
Qed.

(** A match at the front of the input is the first match of the scan, which
    goes on behind it. *)
Lemma exec_go_front ic r n w rest c pos :
  w <> [] ->
  match_here ic r n (w ++ rest) = Some (rest, c) ->
  exec_go ic r n (w ++ rest) pos 0
  = {| mindex := pos; matched := w; groups := c |}
    :: exec_go ic r n rest (pos + length w) 0.
Proof.
  intros Hw Hm. destruct w as [|x w]; [done|].
  cbn [app exec_go]. cbn [app] in Hm. rewrite Hm. cbv zeta.
  change (x :: w ++ rest) with ((x :: w) ++ rest).
  rewrite length_app, Nat.add_sub, take_app_length.
  f_equal. cbn [length]. rewrite Nat.sub_1_r. cbn [Nat.pred].
  rewrite exec_go_skip. f_equal. lia.
Qed.

Lemma exec_definition_paragraphs n fragments :
  Forall (fun f => includes (map ascii_upper f) (js "</P>") = false)
    fragments ->
  forall pos,
    capture 1
      <$> exec_go true defRegex n
            (concat ((fun f => p_open "Definition" ++ f ++ p_close)
                       <$> fragments)) pos 0
    = fragments.
Proof.
  induction 1 as [|f fragments Hf _ IH]; intros pos; [reflexivity|].
  cbn [fmap list_fmap concat]. rewrite <- !app_assoc.
  pose proof (definition_paragraph_match n f
                (concat ((fun f => p_open "Definition" ++ f ++ p_close)
                           <$> fragments)) Hf) as Hm.
  set (rest := concat _) in *.
  replace (p_open "Definition" ++ f ++ p_close ++ rest)
    with ((p_open "Definition" ++ f ++ p_close) ++ rest) in *
    by (by rewrite <- !app_assoc).
  assert (Hne : p_open "Definition" ++ f ++ p_close <> []) by discriminate.
  rewrite (exec_go_front true defRegex n _ rest _ pos Hne Hm).
  cbn [fmap list_fmap]. f_equal. apply IH.
Qed.

Lemma omap_fmap_compose {A B C} (g : A -> B) (f : B -> option C) (l : list A) :
  omap f (g <$> l) = omap (fun x => f (g x)) l.
Proof.
  induction l as [|x l IH]; [done|]. cbn [fmap list_fmap omap list_omap].
  by rewrite IH.
Qed.

(** Every match of the definition expression in a body lies over a
    paragraph of class Definition of the body, which starts at the index of
    the match, and its capture is the content of the paragraph. *)
Lemma definition_match_at bodyHtml i mr :
  exec_all true defRegex bodyHtml !! i = Some mr ->
  mindex mr + length (matched mr) <= length bodyHtml
  /\ matched mr
     = slice bodyHtml (mindex mr) (mindex mr + length (matched mr))
  /\ definition_paragraph (capture 1 mr) (matched mr).
Proof.
  intros Hmr.
  destruct (exec_all_gap _ _ _ _ _ Hmr) as (rest & Hm & Hidx & Hdrop & _).
  destruct (definition_match_shape _ _ _ _ Hm)
    as (fragment & w & Hw & Hg & Hpara).
  assert (w = matched mr) as ->.
  { rewrite Hdrop in Hw. by apply app_inv_tail in Hw. }
  destruct (slice_of_drop _ _ _ _ Hidx Hdrop) as [Hle Hslice].
  split; [exact Hle|]. split; [by rewrite Hslice|].
  unfold capture. by rewrite Hg.
Qed.

(** ** Content and definitions: the claims *)

(** C8.  The definitions of a body are what its definition-class fragments
    yield, in their order: a fragment yields a pair exactly when an
    emphasised span is found in the raw fragment and the normalized text of
    the first such span is longer than 1 and shorter than 100 characters;
    the term is that text, the definition is the normalized fragment capped
    at 4000 characters, and the source is the reference of the section.  The
    fragments are the contents of the paragraphs of class Definition of the
    body: every match of the scan lies over such a paragraph, and a body made
    of paragraphs of class Definition, whose contents hold no closing
    paragraph tag, yields what its contents yield, one by one. *)
Theorem definition_pairs bodyHtml provisionRef :
  extractDefinitions bodyHtml provisionRef
  = omap (fun mr => definition_of_fragment provisionRef (capture 1 mr))
      (exec_all true defRegex bodyHtml)
  /\ (forall fragment d,
        definition_of_fragment provisionRef fragment = Some d
        <-> exists span,
              search true termRegex fragment = Some span
              /\ 1 < length (stripHtml (capture 1 span)) < 100
              /\ d = {| term := stripHtml (capture 1 span);
                        definition := take 4000 (stripHtml fragment);
                        source_provision := Some provisionRef |})
  /\ (forall i mr,
        exec_all true defRegex bodyHtml !! i = Some mr ->
        mindex mr + length (matched mr) <= length bodyHtml
        /\ definition_paragraph (capture 1 mr)
             (slice bodyHtml (mindex mr) (mindex mr + length (matched mr))))
  /\ (forall definitions mr,
        definition_iter provisionRef definitions mr
        = match search true termRegex (capture 1 mr) with
          | Some span =>
              if (1 <? length (stripHtml (capture 1 span)))
                 && (length (stripHtml (capture 1 span)) <? 100)
              then definitions
                   ++ [{| term := stripHtml (capture 1 span);
                          definition :=
                            take 4000 (stripHtml (capture 1 mr));
                          source_provision := Some provisionRef |}]
              else definitions
          | None => definitions
          end)
  /\ (forall fragments,
        Forall (fun f => includes (map ascii_upper f) (js "</P>") = false)
          fragments ->
        extractDefinitions
          (concat ((fun f => p_open "Definition" ++ f ++ p_close)
                     <$> fragments)) provisionRef
        = omap (definition_of_fragment provisionRef) fragments).
Proof.
  split_and!.
  - unfold extractDefinitions. by rewrite fold_definition_iter.
  - apply definition_of_fragment_Some.
  - intros i mr Hmr.
    destruct (definition_match_at bodyHtml i mr Hmr) as (Hle & Hslice & Hpara).
    split; [exact Hle|]. by rewrite <- Hslice.
  - intros definitions mr. rewrite definition_iter_spec.
    unfold definition_of_fragment.
    destruct (search true termRegex (capture 1 mr)) as [span|];
      [|apply app_nil_r].
    cbv zeta. destruct (_ && _); [reflexivity|apply app_nil_r].
  - intros fragments Hfs.
    unfold extractDefinitions. rewrite fold_definition_iter, app_nil_l.
    rewrite <- (omap_fmap_compose (capture 1)
                  (definition_of_fragment provisionRef)).
    unfold exec_all. by rewrite exec_definition_paragraphs.
Qed.

Lemma definition_pairs_witness :
  definition_of_fragment (js "s6") fragment_personal
  = Some {| term := js "personal information";
            definition :=
              js "personal information means information about an identified individual.";
            source_provision := Some (js "s6") |}
  /\ extractDefinitions body_definitions (js "s6")
     = [{| term := js "personal information";
           definition :=
             js "personal information means information about an identified individual.";
           source_provision := Some (js "s6") |}].
Proof.
  destruct (definition_pairs body_definitions (js "s6"))
    as (_ & Hiff & _ & _ & Hbody).
  split.
  - apply Hiff. eexists. split; [vm_compute; reflexivity|].
    split; [vm_compute; lia|]. vm_compute. reflexivity.
  - change body_definitions
      with (concat ((fun f => p_open "Definition" ++ f ++ p_close)
                      <$> [fragment_personal; fragment_plain;
                           fragment_short])).
    rewrite Hbody.
    + vm_compute. reflexivity.
    + apply (bool_decide_unpack _). vm_compute. exact I.
Defined.

(** C9.  In the record of any markup, the content of every provision has at
    most 8000 characters and the text of every definition at most 4000. *)
Theorem length_caps toLowerCase html :
  Forall (fun p => length (content p) <= 8000)
    (provisions (parseAustralianHtml toLowerCase html))
  /\ Forall (fun d => length (definition d) <= 4000)
       (definitions (parseAustralianHtml toLowerCase html)).
Proof.
  unfold parseAustralianHtml. cbv zeta. cbn [provisions definitions].
  unfold parse_run.
  apply (fold_left_inv (parse_iter toLowerCase)
           (fun st =>
              Forall (fun p => length (content p) <= 8000) (acc_provisions st)
              /\ Forall (fun d => length (definition d) <= 4000)
                   (acc_definitions st))); [|split; constructor].
  intros st sec [Hp Hd].
  rewrite parse_iter_provisions, parse_iter_definitions.
  destruct (decide _); [by split|].
  destruct (_ <? _); [by split|].
  split.
  - apply Forall_app. split; [exact Hp|]. constructor; [|constructor].
    cbn [content]. apply extractSectionContent_length.
  - destruct (is_definitions_title _ _); [|exact Hd].
    apply Forall_app. split; [exact Hd|]. apply Forall_forall.
    intros d Hin.
    by apply extractDefinitions_elem in Hin as [_ ?].
Qed.

(** C10.  In the record of any markup, the source of every definition is
    set and is the reference of a provision of the same record. *)
Theorem definitions_have_provisions toLowerCase html :
  Forall (fun d =>
            exists p,
              p ∈ provisions (parseAustralianHtml toLowerCase html)
              /\ source_provision d = Some (provision_ref p))
    (definitions (parseAustralianHtml toLowerCase html)).
Proof.
  unfold parseAustralianHtml. cbv zeta. cbn [provisions definitions].
  unfold parse_run.
  apply (fold_left_inv (parse_iter toLowerCase)
           (fun st =>
              Forall (fun d =>
                        exists p, p ∈ acc_provisions st
                          /\ source_provision d = Some (provision_ref p))
                (acc_definitions st))); [|constructor].
  intros st sec Hd.
  rewrite parse_iter_provisions, parse_iter_definitions.
  destruct (decide _); [exact Hd|].
  destruct (_ <? _); [exact Hd|].
  assert (Hold :
    Forall (fun d =>
              exists p,
                p ∈ acc_provisions st ++
                    [{| provision_ref := js "s" ++ sectionNum sec;
                        chapter := partContext sec;
                        section := sectionNum sec;
                        title := sectionTitle sec;
                        content := extractSectionContent (bodyHtml sec) |}]
                /\ source_provision d = Some (provision_ref p))
      (acc_definitions st)).
  { eapply Forall_impl; [exact Hd|]. intros d (p & Hp & Hs).
    exists p. split; [|exact Hs]. rewrite elem_of_app. by left. }
  destruct (is_definitions_title _ _); [|exact Hold].
  apply Forall_app. split; [exact Hold|]. apply Forall_forall.
  intros d Hin.
  apply extractDefinitions_elem in Hin as [Hs _].
  exists {| provision_ref := js "s" ++ sectionNum sec;
            chapter := partContext sec;
            section := sectionNum sec;
            title := sectionTitle sec;
            content := extractSectionContent (bodyHtml sec) |}.
  split; [|exact Hs].
  rewrite elem_of_app, list_elem_of_singleton. by right.
Qed.

(** * Further properties of the parser, the fetcher and the ingestion script *)

(** ** Lengths of matches and replacements *)

Lemma lang_min_len ic r : forall w, lang ic r w -> min_len r <= length w.
Proof.
  induction r as [|a|neg items| |r1 IH1 r2 IH2|r1 IH1 r2 IH2|g r0 IH|i r0 IH| |];
    intros w; simpl.
  - lia.
  - by intros (x & -> & _).
  - by intros (x & -> & _).
  - by intros (x & -> & _).
  - intros (w1 & w2 & -> & H1%IH1 & H2%IH2). rewrite length_app. lia.
  - intros [H%IH1 | H%IH2]; lia.
  - lia.
  - apply IH.
  - lia.
  - lia.
Qed.

Lemma match_here_min_len ic r n s rest c :
  match_here ic r n s = Some (rest, c) ->
  min_len r + length rest <= length s.
Proof.
  intros (w & -> & Hw%lang_min_len)%match_here_sound.
  rewrite length_app. lia.
Qed.

Lemma replace_go_length ic r n rep : forall s skip,
  length rep <= min_len r ->
  length (replace_go ic r n rep s skip) <= length s - skip.
Proof.
  intros s skip Hrep. revert skip.
  induction s as [|x s IH]; intros skip.
  - destruct skip; simpl; [|lia].
    destruct (match_here ic r n []) as [[rest c]|] eqn:E; simpl; [|lia].
    apply match_here_min_len in E. simpl in E.
    rewrite app_nil_r. lia.
  - destruct skip as [|skip]; cbn [replace_go].
    + destruct (match_here ic r n (x :: s)) as [[rest c]|] eqn:E.
      * apply match_here_min_len in E.
        set (len := length (x :: s) - length rest).
        assert (Hlen : length rep <= len) by (subst len; lia).
        assert (Hle : len <= length (x :: s)) by (subst len; lia).
        rewrite length_app.
        destruct (Nat.eqb_spec len 0) as [H0|H0].
        -- simpl. specialize (IH 0). simpl in Hle. lia.
        -- specialize (IH (len - 1)). simpl in *. lia.
      * simpl. specialize (IH 0). lia.
    + specialize (IH skip). simpl. lia.
Qed.

(** A replacement that is no longer than the shortest match does not
    lengthen the string. *)
Lemma replace_length ic r rep s :
  length rep <= min_len r -> length (replace ic r rep s) <= length s.
Proof.
  intros H. unfold replace.
  pose proof (replace_go_length ic r (length s) rep s 0 H). lia.
Qed.

Lemma trim_start_length s : length (trim_start s) <= length s.
Proof. destruct (trim_start_suffix s) as [p Hp]. rewrite Hp at 2. rewrite length_app. lia. Qed.

Lemma trim_length s : length (trim s) <= length s.
Proof.
  unfold trim. rewrite length_rev.
  etrans; [apply trim_start_length|]. rewrite length_rev. apply trim_start_length.
Qed.

Lemma stripHtml_shrinks (html : jsstring) :
  length (stripHtml html) <= length html.
Proof.
  unfold stripHtml. cbv zeta.
  etrans; [apply trim_length|].
  repeat (etrans; [apply replace_length; vm_compute; lia|]).
  done.
Qed.

(** X1.  [stripHtml] never lengthens its input: tags, entities and runs of
    white space are replaced by text that is no longer than they are. *)
Theorem stripHtml_length (html : jsstring) :
  length (stripHtml html) <= length html.
Proof. exact (stripHtml_shrinks html). Qed.

(** ** Repetition of a single code unit *)

Section StarSingle.
Context {A : Type}.
Variable body : (jsstring -> caps -> option A) -> jsstring -> caps -> option A.
Variable p : N -> bool.
Hypothesis body_cons : forall k x s c,
  body k (x :: s) c = if p x then k s c else None.
Hypothesis body_nil : forall k c, body k [] c = None.

(** A greedy repetition of a single code unit takes the longest run when
    what follows accepts anything. *)
Lemma star_greedy_total (k : jsstring -> caps -> option A) :
  (forall s c, is_Some (k s c)) ->
  forall fuel s c,
    length s <= fuel ->
    star_loop true body k fuel s c = k (drop_while p s) c.
Proof.
  intros Hk fuel. induction fuel as [|fuel IH]; intros s c Hlen.
  - destruct s; [done|simpl in Hlen; lia].
  - cbn [star_loop]. destruct s as [|x s].
    + by rewrite body_nil.
    + rewrite body_cons. cbn [drop_while]. destruct (p x); [|done].
      assert ((length s <? length (x :: s)) = true) as ->
        by (apply Nat.ltb_lt; simpl; lia).
      rewrite IH by (simpl in Hlen; lia).
      by destruct (Hk (drop_while p s) c) as [y ->].
Qed.
End StarSingle.

Lemma take_drop_while p s : take_while p s ++ drop_while p s = s.
Proof. induction s as [|x s IH]; simpl; [done|]. destruct (p x); simpl; [by f_equal|done]. Qed.

Lemma drop_while_length p s : length (drop_while p s) <= length s.
Proof. rewrite <- (take_drop_while p s) at 2. rewrite length_app. lia. Qed.

Lemma drop_while_head p s :
  match drop_while p s with x :: _ => p x = false | [] => True end.
Proof. induction s as [|x s IH]; simpl; [done|]. by destruct (p x) eqn:E. Qed.

Lemma take_while_all p s : Forall (fun x => p x = true) (take_while p s).
Proof.
  induction s as [|x s IH]; simpl; [constructor|].
  destruct (p x) eqn:E; by constructor.
Qed.

Lemma drop_while_none p s :
  Forall (fun x => p x = true) s -> drop_while p s = [].
Proof. induction 1 as [|x s Hx _ IH]; simpl; [done|]. by rewrite Hx. Qed.

Lemma in_class_space x : in_class false [CSpace] x = is_space x.
Proof. unfold in_class. simpl. by rewrite !orb_false_r. Qed.

(** A match of [\s+] takes a whole run of white space. *)
Lemma match_plus_space n s :
  match_here false (Plus space) n s
  = match s with
    | x :: s' => if is_space x then Some (drop_while is_space s', []) else None
    | [] => None
    end.
Proof.
  unfold match_here, Plus, space. cbn [m].
  destruct s as [|x s]; [done|]. rewrite in_class_space. cbn [xorb].
  destruct (is_space x); [|done].
  apply (star_greedy_total _ is_space); [| |by eauto|done].
  - intros k y t c. cbn [m]. by rewrite in_class_space.
  - done.
Qed.

Lemma replace_go_skip ic r n rep l1 l2 :
  replace_go ic r n rep (l1 ++ l2) (length l1) = replace_go ic r n rep l2 0.
Proof. induction l1 as [|x l1 IH]; [done|]. simpl. exact IH. Qed.

(** ** White space after normalization *)

Lemma collapse_spaces n : forall fuel s,
  length s <= fuel ->
  ws_collapsed (replace_go false (Plus space) n (js " ") s 0) = true
  /\ match s with
     | x :: _ =>
         if is_space x then True
         else head (replace_go false (Plus space) n (js " ") s 0) = Some x
     | [] => replace_go false (Plus space) n (js " ") s 0 = []
     end.
Proof.
  induction fuel as [|fuel IH]; intros s Hlen.
  - destruct s; [|simpl in Hlen; lia]. cbn [replace_go].
    rewrite match_plus_space. done.
  - destruct s as [|x s].
    + cbn [replace_go]. rewrite match_plus_space. done.
    + cbn [replace_go]. rewrite match_plus_space.
      destruct (is_space x) eqn:Ex.
      * split; [|done].
        pose proof (take_drop_while is_space s) as Htd.
        pose proof (drop_while_length is_space s) as Hdl.
        assert (Hlen' : length (x :: s) - length (drop_while is_space s)
                        = S (length (take_while is_space s))).
        { rewrite <- Htd at 1. simpl. rewrite length_app. lia. }
        rewrite Hlen'. cbn [Nat.eqb Nat.sub]. rewrite Nat.sub_0_r.
        rewrite <- Htd at 1. rewrite replace_go_skip.
        destruct (IH (drop_while is_space s)) as [Hc Hh];
          [simpl in Hlen; lia|].
        change (js " " ++ ?l) with (32%N :: l). cbn [ws_collapsed].
        rewrite Hc, andb_true_r.
        change (is_space 32) with true. cbn [N.eqb Pos.eqb andb].
        pose proof (drop_while_head is_space s) as Hd.
        destruct (drop_while is_space s) as [|y t].
        -- by rewrite Hh.
        -- rewrite Hd in Hh.
           destruct (replace_go false (Plus space) n (js " ") (y :: t) 0);
             [done|]. injection Hh as ->. by rewrite Hd.
      * destruct (IH s) as [Hc Hh]; [simpl in Hlen; lia|].
        split; [|done]. cbn [ws_collapsed]. by rewrite Ex, Hc.
Qed.

Lemma ws_collapsed_app_r a b :
  ws_collapsed (a ++ b) = true -> ws_collapsed b = true.
Proof.
  induction a as [|c a IH]; [done|]. simpl.
  intros [_ H]%andb_true_iff. by apply IH.
Qed.

Lemma ws_collapsed_app_l a b :
  ws_collapsed (a ++ b) = true -> ws_collapsed a = true.
Proof.
  induction a as [|c a IH]; [done|]. simpl.
  intros [H1 H2]%andb_true_iff. rewrite (IH H2), andb_true_r.
  destruct (is_space c); [|done].
  apply andb_true_iff in H1 as [-> H1]. destruct a; [done|exact H1].
Qed.

Lemma trim_infix s : exists p q, s = p ++ trim s ++ q.
Proof.
  unfold trim. destruct (trim_start_suffix s) as [p Hp].
  destruct (trim_start_suffix (rev (trim_start s))) as [q Hq].
  exists p, (rev q). rewrite <- rev_app_distr, <- Hq, rev_involutive. exact Hp.
Qed.

Lemma trim_clean s : starts_clean (trim s) = true /\ ends_clean (trim s) = true.
Proof.
  unfold ends_clean, trim. rewrite rev_involutive.
  pose proof (trim_start_head s) as Hh.
  pose proof (trim_start_head (rev (trim_start s))) as Hu.
  destruct (trim_start_suffix (rev (trim_start s))) as [q Hq].
  set (t := trim_start s) in *. set (u := trim_start (rev t)) in *.
  split.
  - assert (Ht : t = rev u ++ rev q).
    { rewrite <- (rev_involutive t), Hq, rev_app_distr. done. }
    destruct (rev u) as [|y v] eqn:Er; [done|].
    rewrite Ht in Hh. simpl in Hh. simpl. by rewrite Hh.
  - destruct u as [|y v]; [done|]. simpl. by rewrite Hu.
Qed.

Lemma stripHtml_clean (html : jsstring) :
  ws_collapsed (stripHtml html) = true
  /\ starts_clean (stripHtml html) = true
  /\ ends_clean (stripHtml html) = true
  /\ Forall (fun c => is_space c = true -> c = 32%N) (stripHtml html)
  /\ Forall (fun c => is_line_terminator c = false) (stripHtml html).
Proof.
  assert (Hc : ws_collapsed (stripHtml html) = true).
  { unfold stripHtml. cbv zeta.
    match goal with |- ws_collapsed (trim ?s) = true => set (t := s) end.
    destruct (trim_infix t) as (p & q & Ht).
    apply (ws_collapsed_app_l _ q), (ws_collapsed_app_r p).
    rewrite <- Ht. subst t. unfold replace at 1.
    by eapply collapse_spaces. }
  assert (Hsp : Forall (fun c => is_space c = true -> c = 32%N) (stripHtml html)).
  { revert Hc. generalize (stripHtml html). intros t.
    induction t as [|c t IH]; [constructor|]. simpl.
    intros [H1 H2]%andb_true_iff. constructor; [|by apply IH].
    intros Hs. rewrite Hs in H1. apply andb_true_iff in H1 as [H1 _].
    by apply N.eqb_eq in H1. }
  split_and!; [done|unfold stripHtml; apply trim_clean..|done|].
  eapply Forall_impl; [exact Hsp|]. intros c H.
  destruct (is_line_terminator c) eqn:E; [|done].
  assert (is_space c = true) as Hs.
  { unfold is_line_terminator in E.
    repeat (apply orb_true_iff in E as [E|E]);
      apply N.eqb_eq in E; subst c; reflexivity. }
  rewrite (H Hs) in E. done.
Qed.

(** X2.  The text that [stripHtml] returns has no white space at either end,
    and its white space is single ASCII spaces: a white space code unit is
    never followed by another, every white space code unit is U+0020, and
    there is no line terminator. *)
Theorem stripHtml_normalized (html : jsstring) :
  ws_collapsed (stripHtml html) = true
  /\ starts_clean (stripHtml html) = true
  /\ ends_clean (stripHtml html) = true
  /\ Forall (fun c => is_space c = true -> c = 32%N) (stripHtml html)
  /\ Forall (fun c => is_line_terminator c = false) (stripHtml html).
Proof. exact (stripHtml_clean html). Qed.

(** ** The text of a section heading *)

Lemma search_from_anchored ic r n : forall s pos,
  length s < n -> search_from ic (Seq Bol r) n s pos = None.
Proof.
  induction s as [|x s IH]; intros pos Hlen.
  - cbn [search_from]. unfold match_here. cbn [m].
    destruct (Nat.eqb_spec (length (@nil N)) n); [simpl in *; lia|done].
  - cbn [search_from]. unfold match_here. cbn [m].
    destruct (Nat.eqb_spec (length (x :: s)) n); [lia|].
    apply IH. simpl in Hlen. lia.
Qed.

(** An expression anchored at the start matches at the start or nowhere. *)
Lemma search_anchored ic r t sm :
  search ic (Seq Bol r) t = Some sm ->
  exists rest,
    match_here ic (Seq Bol r) (length t) t = Some (rest, groups sm)
    /\ mindex sm = 0.
Proof.
  unfold search. destruct t as [|x t]; cbn [search_from].
  - destruct (match_here ic (Seq Bol r) (length (@nil N)) []) as [[rest c]|];
      [|done]. intros [= <-]. by exists rest.
  - destruct (match_here ic (Seq Bol r) (length (x :: t)) (x :: t))
      as [[rest c]|].
    + intros [= <-]. by exists rest.
    + rewrite search_from_anchored by (simpl; lia). done.
Qed.

Lemma lang_star_class ic g neg items w :
  lang ic (Star g (Class neg items)) w ->
  Forall (fun x => xorb neg (in_class ic items x) = true) w.
Proof.
  intros (ws & -> & Hws). induction Hws as [|v ws (x & -> & Hx) _ IH]; simpl.
  - constructor.
  - by constructor.
Qed.

Lemma lang_plus_class ic neg items w :
  lang ic (Plus (Class neg items)) w ->
  exists x w', w = x :: w'
    /\ Forall (fun x => xorb neg (in_class ic items x) = true) (x :: w').
Proof.
  intros (w1 & w2 & -> & (x & -> & Hx) & Hw2%lang_star_class).
  exists x, w2. split; [done|]. by constructor.
Qed.

Lemma in_class_letters x :
  in_class false [CRange (ch "A") (ch "Z"); CRange (ch "a") (ch "z")] x
  = is_ascii_letter x.
Proof. unfold in_class, is_ascii_letter, ch. simpl. by rewrite !orb_false_r. Qed.

(** The words of the section number pattern. *)
Lemma lang_section_number w :
  lang false
    (seqs [Plus digit; Star true (Seq (Lit (ch ".")) (Plus digit));
           Star true (Class false [CRange (ch "A") (ch "Z");
                                   CRange (ch "a") (ch "z")])]) w ->
  (exists d w', w = d :: w' /\ is_digit d = true)
  /\ Forall (fun c => is_section_char c = true) w.
Proof.
  intros (wa & wbc & -> & Ha & wb & wc & -> & Hb & Hc).
  apply lang_plus_class in Ha as (d & wa' & -> & Ha).
  assert (Hda : Forall (fun c => is_section_char c = true) (d :: wa')).
  { eapply Forall_impl; [exact Ha|]. intros c Hc'. cbn [xorb] in Hc'.
    rewrite in_class_digit in Hc'. unfold is_section_char. by rewrite Hc'. }
  split.
  - exists d, (wa' ++ wb ++ wc). split; [done|].
    apply Forall_inv in Ha. cbn [xorb] in Ha. by rewrite in_class_digit in Ha.
  - apply Forall_app. split; [exact Hda|]. apply Forall_app. split.
    + destruct Hb as (ws & -> & Hws).
      induction Hws as [|v ws Hv _ IH]; [constructor|]. simpl.
      apply Forall_app. split; [|exact IH].
      destruct Hv as (v1 & v2 & -> & (x & -> & Hx) & Hv2).
      apply lang_plus_class in Hv2 as (e & v2' & -> & Hv2).
      constructor.
      * unfold lit_eq in Hx. apply N.eqb_eq in Hx. subst x.
        reflexivity.
      * eapply Forall_impl; [exact Hv2|]. intros c Hc'. cbn [xorb] in Hc'.
        rewrite in_class_digit in Hc'. unfold is_section_char. by rewrite Hc'.
    + apply lang_star_class in Hc.
      eapply Forall_impl; [exact Hc|]. intros c Hc'. cbn [xorb] in Hc'.
      rewrite in_class_letters in Hc'. unfold is_section_char.
      rewrite Hc'. by rewrite orb_true_r.
Qed.

(** What a match of the section heading pattern consists of. *)
Lemma anchored_two_fields n R1 t rest c :
  match_here false
    (Seq Bol (Seq (Grp 1 R1) (Seq (Plus space) (Grp 2 (Star true Dot))))) n t
  = Some (rest, c) ->
  exists num ws s2,
    t = num ++ ws ++ s2
    /\ lang false R1 num
    /\ (exists x ws', ws = x :: ws' /\ Forall (fun y => is_space y = true) ws)
    /\ rest = drop_while (fun y => negb (is_line_terminator y)) s2
    /\ group 1 c = Some num
    /\ group 2 c
       = Some (take (length s2
                     - length (drop_while (fun y => negb (is_line_terminator y)) s2))
                 s2).
Proof.
  unfold match_here. cbn [m].
  destruct (length t =? n); [|done].
  intros (num & s1 & c1 & -> & Hnum & H & Hg1)%m_sound.
  cbv beta in H. rewrite length_app, Nat.add_sub, take_app_length in H.
  apply m_sound in H as (ws & s2 & c2 & -> & Hws & H & Hg2).
  cbn [m] in H.
  rewrite (star_greedy_total _ (fun y => negb (is_line_terminator y))) in H.
  - injection H as <- <-.
    exists num, ws, s2. split_and!; [done|done| |done| |].
    + apply lang_plus_class in Hws as (x & ws' & -> & Hws).
      exists x, ws'. split; [done|].
      eapply Forall_impl; [exact Hws|]. intros y Hy. cbn [xorb] in Hy.
      by rewrite in_class_space in Hy.
    + cbn [group Nat.eqb]. rewrite Hg2 by (by intros ?%elem_of_nil).
      cbn [group]. by rewrite Nat.eqb_refl.
    + cbn [group]. by rewrite Nat.eqb_refl.
  - intros k y s c0. cbn [m]. by destruct (is_line_terminator y).
  - done.
  - by eauto.
  - done.
Qed.

Lemma trim_clean_id s :
  starts_clean s = true -> ends_clean s = true -> trim s = s.
Proof.
  unfold ends_clean, starts_clean, trim. intros Hs He.
  rewrite (trim_start_fix s) by (destruct s; [done|by apply negb_true_iff]).
  rewrite (trim_start_fix (rev s))
    by (destruct (rev s); [done|by apply negb_true_iff]).
  apply rev_involutive.
Qed.

(** In a normalized text, a token followed by white space and a rest is
    followed by exactly one space and a rest that is not empty. *)
Lemma normalized_fields t num ws s2 :
  t = num ++ ws ++ s2 ->
  ws_collapsed t = true -> ends_clean t = true ->
  (exists x ws', ws = x :: ws' /\ Forall (fun y => is_space y = true) ws) ->
  ws = [32%N] /\ s2 <> [] /\ starts_clean s2 = true /\ ends_clean s2 = true.
Proof.
  intros -> Hc He (x & ws' & -> & Hws).
  apply ws_collapsed_app_r in Hc. cbn [app ws_collapsed] in Hc.
  apply Forall_cons in Hws as [Hx Hws']. rewrite Hx in Hc.
  apply andb_true_iff in Hc as [Hc _].
  apply andb_true_iff in Hc as [Hx32 Hnext]. apply N.eqb_eq in Hx32. subst x.
  destruct ws' as [|y ws'].
  - cbn [app] in Hnext.
    assert (Hne : s2 <> []).
    { intros ->. unfold ends_clean in He.
      rewrite app_nil_r, rev_app_distr in He. done. }
    split_and!; [done|done| |].
    + destruct s2; [done|exact Hnext].
    + unfold ends_clean in *. rewrite !rev_app_distr in He.
      destruct (rev s2) as [|z v] eqn:Er; [|exact He].
      apply (f_equal (@rev N)) in Er. rewrite rev_involutive in Er. done.
  - apply Forall_cons in Hws' as [Hy _]. cbn [app] in Hnext.
    by rewrite Hy in Hnext.
Qed.

(** Every section of the loop is built at the turn of a section heading,
    from the match of its text and the state before the turn. *)
Lemma split_run_built html hs k sec :
  sec ∈ sections (split_run html hs k) ->
  exists i h sectMatch,
    i < k /\ hs !! i = Some h /\ (level_of h = 5 \/ level_of h = 9)
    /\ search false sectRegex (text h) = Some sectMatch
    /\ sec = {| sectionNum := capture 1 sectMatch;
                sectionTitle := trim (capture 2 sectMatch);
                bodyHtml := substring html (end_ h) (next_start html hs i);
                partContext :=
                  context_label (currentPart (split_run html hs i))
                    (currentDivision (split_run html hs i));
                position := index h |}.
Proof.
  induction k as [|k IH]; [by intros ?%elem_of_nil|].
  rewrite split_run_S.
  destruct (split_iter_emits html hs (split_run html hs k) k)
    as [-> | (h & sm & Hi & Hl & Hs & ->)].
  - intros (i & h & sm & ? & Hrest)%IH. exists i, h, sm. split; [lia|exact Hrest].
  - rewrite elem_of_app, list_elem_of_singleton. intros [H| ->].
    + apply IH in H as (i & h' & sm' & ? & Hrest).
      exists i, h', sm'. split; [lia|exact Hrest].
    + exists k, h, sm. split_and!; try done. lia.
Qed.

Lemma section_heading_text html sec :
  sec ∈ splitIntoSections html ->
  exists h,
    h ∈ scanHeadings html /\ index h = position sec
    /\ text h = sectionNum sec ++ [32%N] ++ sectionTitle sec
    /\ (exists d w, sectionNum sec = d :: w /\ is_digit d = true)
    /\ Forall (fun c => is_section_char c = true) (sectionNum sec)
    /\ sectionTitle sec <> []
    /\ ws_collapsed (sectionTitle sec) = true
    /\ starts_clean (sectionTitle sec) = true
    /\ ends_clean (sectionTitle sec) = true.
Proof.
  intros (i & h & sm & _ & Hi & _ & Hs & ->)%split_run_built.
  cbn [sectionNum sectionTitle position].
  exists h. split; [by eapply list_elem_of_lookup_2|]. split; [done|].
  destruct (scanHeadings_lookup _ _ _ Hi) as (mr & _ & _ & Ht & _).
  destruct (stripHtml_clean (capture 2 mr)) as (Hc & _ & He & _ & Hlt).
  rewrite <- Ht in Hc, He, Hlt.
  unfold sectRegex in Hs. cbn [seqs] in Hs.
  apply search_anchored in Hs as (rest & Hm & _).
  apply anchored_two_fields in Hm
    as (num & ws & s2 & Heq & Hnum & Hws & _ & Hg1 & Hg2).
  destruct (normalized_fields _ _ _ _ Heq Hc He Hws) as (-> & Hne & Hs2 & He2).
  assert (Hd : drop_while (fun y => negb (is_line_terminator y)) s2 = []).
  { apply drop_while_none. rewrite Heq in Hlt.
    apply Forall_app in Hlt as [_ Hlt]. apply Forall_app in Hlt as [_ Hlt].
    eapply Forall_impl; [exact Hlt|]. intros y ->. done. }
  rewrite Hd in Hg2. cbn [length] in Hg2. rewrite Nat.sub_0_r, firstn_all in Hg2.
  unfold capture. rewrite Hg1, Hg2. cbn [from_option id].
  rewrite (trim_clean_id s2 Hs2 He2).
  apply lang_section_number in Hnum as [Hdig Hall].
  split_and!; try done.
  rewrite Heq in Hc. by apply ws_collapsed_app_r, ws_collapsed_app_r in Hc.
Qed.

(** X3.  Every section of [splitIntoSections] comes from a heading of the scan
    at the position of the section, and the text of that heading is the
    section number, one space and the section title.  The number starts with
    a digit and holds only digits, dots and ASCII letters; the title is not
    empty, has no white space at either end and only single spaces inside. *)
Theorem heading_text_round_trip html sec :
  sec ∈ splitIntoSections html ->
  exists h,
    h ∈ scanHeadings html /\ index h = position sec
    /\ text h = sectionNum sec ++ [32%N] ++ sectionTitle sec
    /\ (exists d w, sectionNum sec = d :: w /\ is_digit d = true)
    /\ Forall (fun c => is_section_char c = true) (sectionNum sec)
    /\ sectionTitle sec <> []
    /\ ws_collapsed (sectionTitle sec) = true
    /\ starts_clean (sectionTitle sec) = true
    /\ ends_clean (sectionTitle sec) = true.
Proof. exact (section_heading_text html sec). Qed.

Lemma heading_text_round_trip_witness :
  exists sec h,
    splitIntoSections doc_interpretation = [sec]
    /\ h ∈ scanHeadings doc_interpretation
    /\ text h = sectionNum sec ++ [32%N] ++ sectionTitle sec
    /\ sectionNum sec = js "6" /\ sectionTitle sec = js "Interpretation".
Proof.
  eexists.
  destruct (heading_text_round_trip doc_interpretation
              {| sectionNum := js "6"; sectionTitle := js "Interpretation";
                 bodyHtml := p_open "Definition"
                   ++ js "<b>personal information</b> means information about an identified individual."
                   ++ p_close;
                 partContext := Some (js "Part I" ++ [8212%N] ++ js "Preliminary");
                 position := 49 |})
    as (h & Hin & _ & Ht & _).
  { vm_compute. left. }
  exists h. split; [vm_compute; reflexivity|].
  split; [exact Hin|]. split; [exact Ht|]. split; reflexivity.
Defined.

(** ** The provisions of a record *)

Lemma context_label_not_empty p d : context_label p d <> Some [].
Proof. by destruct p as [[|a p]|], d as [[|b d]|]. Qed.

Lemma parse_run_provisions_from toLowerCase secs p :
  p ∈ acc_provisions (parse_run toLowerCase secs) ->
  exists sec, sec ∈ secs /\ p = provision_of sec.
Proof.
  rewrite <- (take_ge secs (length secs)) at 1 by lia.
  intros (i & sec & _ & Hi & _ & ->)%parse_run_first.
  exists sec. split; [by eapply list_elem_of_lookup_2|done].
Qed.

(** X4.  In the record of any markup, every provision has the reference "s"
    followed by its section number; the number starts with a digit and holds
    only digits, dots and ASCII letters; the title is not empty and is
    normalized; the chapter is absent or not empty. *)
Theorem provision_fields toLowerCase html :
  Forall (fun p =>
            provision_ref p = js "s" ++ section p
            /\ (exists d w, section p = d :: w /\ is_digit d = true)
            /\ Forall (fun c => is_section_char c = true) (section p)
            /\ title p <> []
            /\ ws_collapsed (title p) = true
            /\ starts_clean (title p) = true
            /\ ends_clean (title p) = true
            /\ chapter p <> Some [])
    (provisions (parseAustralianHtml toLowerCase html)).
Proof.
  apply Forall_forall. intros p Hp.
  unfold parseAustralianHtml in Hp. cbv zeta in Hp. cbn [provisions] in Hp.
  apply parse_run_provisions_from in Hp as (sec & Hsec & ->).
  pose proof Hsec as Hb.
  apply split_run_built in Hb as (i & h & sm & _ & _ & _ & _ & Hb).
  apply section_heading_text in Hsec
    as (h' & _ & _ & _ & Hd & Hall & Hne & Hc & Hs & He).
  unfold provision_of. cbn [provision_ref section title chapter].
  split_and!; try done.
  rewrite Hb. cbn [partContext]. apply context_label_not_empty.
Qed.

Lemma parse_iter_sublist toLowerCase st sec :
  exists l, acc_provisions (parse_iter toLowerCase st sec) = acc_provisions st ++ l
            /\ l `sublist_of` [provision_of sec].
Proof.
  rewrite parse_iter_provisions.
  destruct (decide _); [exists []; rewrite app_nil_r; split; [done|apply sublist_nil_l]|].
  destruct (_ <? _); [exists []; rewrite app_nil_r; split; [done|apply sublist_nil_l]|].
  exists [provision_of sec]. done.
Qed.

Lemma parse_fold_sublist toLowerCase secs : forall st,
  exists l,
    acc_provisions (fold_left (parse_iter toLowerCase) secs st)
    = acc_provisions st ++ l
    /\ l `sublist_of` (provision_of <$> secs).
Proof.
  induction secs as [|sec secs IH]; intros st.
  - exists []. by rewrite app_nil_r.
  - cbn [fold_left]. destruct (IH (parse_iter toLowerCase st sec)) as (l & -> & Hl).
    destruct (parse_iter_sublist toLowerCase st sec) as (l0 & -> & Hl0).
    exists (l0 ++ l). rewrite app_assoc. split; [done|].
    change (provision_of <$> sec :: secs)
      with ([provision_of sec] ++ (provision_of <$> secs)).
    by apply sublist_app.
Qed.

Lemma split_run_count html hs k :
  length (sections (split_run html hs k)) <= k `min` length hs.
Proof.
  induction k as [|k IH]; [cbn; lia|].
  rewrite split_run_S.
  destruct (split_iter_emits html hs (split_run html hs k) k)
    as [E | (h & sm & Hi & _ & _ & E)]; rewrite E.
  - etrans; [exact IH|]. apply Nat.min_le_compat_r. lia.
  - apply lookup_lt_Some in Hi. rewrite length_app. cbn [length].
    assert (k `min` length hs = k) as Hk by lia. rewrite Hk in IH.
    assert (S k `min` length hs = S k) as -> by lia. lia.
Qed.

(** X5.  The provisions of a record are, in the same order, provisions of
    sections of [splitIntoSections]; the positions of the sections increase
    strictly; there are at most as many provisions as sections, and at most
    as many sections as headings. *)
Theorem provisions_in_document_order toLowerCase html :
  provisions (parseAustralianHtml toLowerCase html)
    `sublist_of` (provision_of <$> splitIntoSections html)
  /\ (forall i j a b,
        i < j -> splitIntoSections html !! i = Some a ->
        splitIntoSections html !! j = Some b -> position a < position b)
  /\ length (provisions (parseAustralianHtml toLowerCase html))
     <= length (splitIntoSections html)
  /\ length (splitIntoSections html) <= length (scanHeadings html).
Proof.
  assert (Hsub : provisions (parseAustralianHtml toLowerCase html)
                   `sublist_of` (provision_of <$> splitIntoSections html)).
  { unfold parseAustralianHtml, parse_run. cbv zeta. cbn [provisions].
    destruct (parse_fold_sublist toLowerCase (splitIntoSections html) parse_init)
      as (l & -> & Hl). exact Hl. }
  split_and!.
  - exact Hsub.
  - apply (sections_in_document_order html (length (scanHeadings html))).
  - apply sublist_length in Hsub. by rewrite length_fmap in Hsub.
  - unfold splitIntoSections. cbv zeta.
    pose proof (split_run_count html (scanHeadings html)
                  (length (scanHeadings html))). lia.
Qed.

(** ** Markup without markers *)

Lemma lit_lt_only x : lit_eq true (ch "<") x = true -> x = ch "<".
Proof.
  unfold lit_eq. change (ascii_upper (ch "<")) with 60%N. change (ch "<") with 60%N.
  intros H%N.eqb_eq. unfold ascii_upper in H.
  destruct (N.leb_spec 97 x), (N.leb_spec x 122); simpl in H; lia.
Qed.

Lemma match_here_first_lit ic n a u rs s rest c :
  match_here ic (seqs (lits (a :: u) :: rs)) n s = Some (rest, c) ->
  exists x s', s = x :: s' /\ lit_eq ic a x = true.
Proof.
  unfold match_here. rewrite m_seqs_cons. cbn [lits foldr m].
  destruct s as [|x s]; [done|].
  destruct (lit_eq ic a x) eqn:E; [|done]. intros _. by exists x, s.
Qed.

Lemma match_here_needs_lt R n s rest c :
  R ∈ [headingRegex; contentRegex; defRegex] ->
  match_here true R n s = Some (rest, c) ->
  exists s', s = ch "<" :: s'.
Proof.
  rewrite !elem_of_cons, elem_of_nil.
  intros [-> | [-> | [-> | []]]] H;
    destruct (match_here_first_lit true n (ch "<") (js "p") _ s rest c H)
      as (x & s' & -> & ->%lit_lt_only); by exists s'.
Qed.

Lemma exec_go_no_lt R n : forall s pos skip,
  R ∈ [headingRegex; contentRegex; defRegex] ->
  Forall (fun c => c <> ch "<") s ->
  exec_go true R n s pos skip = [].
Proof.
  intros s pos skip HR. revert pos skip.
  induction s as [|x s IH]; intros pos skip Hs.
  - destruct skip; cbn [exec_go]; [|done].
    destruct (match_here true R n []) as [[rest c]|] eqn:E; [|done].
    by apply (match_here_needs_lt R) in E as (? & ?).
  - apply Forall_cons in Hs as [Hx Hs].
    destruct skip; cbn [exec_go]; [|by apply IH].
    destruct (match_here true R n (x :: s)) as [[rest c]|] eqn:E; [|by apply IH].
    apply (match_here_needs_lt R) in E as (? & [= -> _]); done.
Qed.

(** X6.  Markup in which no [<] occurs has no heading, and its record has no
    provision and no definition. *)
Theorem no_markup_empty_record toLowerCase html :
  Forall (fun c => c <> ch "<") html ->
  scanHeadings html = []
  /\ parseAustralianHtml toLowerCase html
     = {| provisions := []; definitions := [] |}.
Proof.
  intros H.
  assert (Hs : scanHeadings html = []).
  { unfold scanHeadings, exec_all. rewrite exec_go_no_lt; [done| |done].
    rewrite !elem_of_cons. by left. }
  split; [exact Hs|].
  unfold parseAustralianHtml, splitIntoSections. cbv zeta. by rewrite Hs.
Qed.

Lemma no_markup_empty_record_witness :
  parseAustralianHtml ascii_toLowerCase (js "An Act about nothing at all.")
  = {| provisions := []; definitions := [] |}
  /\ parseAustralianHtml ascii_toLowerCase []
     = {| provisions := []; definitions := [] |}.
Proof.
  split.
  - apply (no_markup_empty_record ascii_toLowerCase).
    apply Forall_forall. intros c Hc. vm_compute in Hc.
    repeat (apply elem_of_cons in Hc as [Hc|Hc]; [subst c; discriminate|]).
    by apply elem_of_nil in Hc.
  - apply (no_markup_empty_record ascii_toLowerCase). constructor.
Defined.

(** ** The bodies of the sections *)




(** ** The length of the content *)

Lemma min_len_seqs_cons a rs :
  min_len (seqs (a :: rs)) = min_len a + min_len (seqs rs).
Proof. destruct rs; simpl; lia. Qed.

(** Where the capture of a group lies in the match of a sequence. *)
Lemma seqs_capture_pos ic n pre i R post :
  i ∉ grp_ids (seqs post) ->
  forall s c0 rest c,
    m ic n (seqs (pre ++ Grp i R :: post)) (fun s' c' => Some (s', c')) s c0
    = Some (rest, c) ->
    exists wp w wq,
      s = wp ++ w ++ wq ++ rest /\ lang ic R w /\ group i c = Some w
      /\ min_len (seqs pre) <= length wp.
Proof.
  intros Hpost. induction pre as [|a pre IH]; intros s c0 rest c H.
  - simpl app in H. rewrite m_seqs_cons in H. simpl in H.
    apply m_sound in H as (w & s1 & c1 & -> & Hw & H & _).
    apply m_sound in H as (wq & s2 & c2 & -> & _ & [= <- <-] & Hg).
    exists [], w, wq. split_and!; [done|done| |simpl; lia].
    rewrite Hg by exact Hpost.
    simpl. by rewrite Nat.eqb_refl, length_app, Nat.add_sub, take_app_length.
  - change ((a :: pre) ++ Grp i R :: post) with (a :: (pre ++ Grp i R :: post)) in H.
    rewrite m_seqs_cons in H.
    apply m_sound in H as (wa & s1 & c1 & -> & Hwa%lang_min_len & H & _).
    apply IH in H as (wp & w & wq & -> & Hw & Hg & Hlen).
    exists (wa ++ wp), w, wq. split_and!; [by rewrite <- app_assoc|done|done|].
    rewrite min_len_seqs_cons, length_app. lia.
Qed.

Lemma contentRegex_parts :
  contentRegex
  = seqs ([word "<p"; Star true not_gt; word "class="; Lit dq;
           Grp 1 (alts (map word CONTENT_CLASSES));
           Lit dq; Star true not_gt; Lit (ch ">")]
          ++ Grp 2 (Star false any) :: [word "</p>"]).
Proof. reflexivity. Qed.

Lemma content_match_parts n s0 rest c :
  match_here true contentRegex n s0 = Some (rest, c) ->
  exists wp w wq,
    s0 = (wp ++ w ++ wq) ++ rest /\ group 2 c = Some w /\ 1 <= length wp.
Proof.
  intros Hm. unfold match_here in Hm. rewrite contentRegex_parts in Hm.
  apply seqs_capture_pos in Hm;
    [|apply (bool_decide_unpack _); vm_compute; exact I].
  destruct Hm as (wp & w & wq & -> & _ & Hg & Hlen).
  exists wp, w, wq. split_and!; [by rewrite <- !app_assoc|done|].
  etrans; [|exact Hlen]. apply Nat.leb_le. vm_compute. reflexivity.
Qed.

Lemma content_match_capture body mr :
  mr ∈ exec_all true contentRegex body ->
  length (capture 2 mr) + 1 <= length (matched mr).
Proof.
  intros Hmr. apply exec_go_match in Hmr as (s0 & rest & Hm & Hmatched).
  apply content_match_parts in Hm as (wp & w & wq & Hs0 & Hg & Hlen).
  unfold capture. rewrite Hmatched, Hg, Hs0.
  rewrite length_app, Nat.add_sub, take_app_length, !length_app.
  cbn [from_option id]. lia.
Qed.

Lemma fold_push_long (f : MatchResult -> jsstring) l : forall parts,
  fold_left (fun parts mr =>
               let text := f mr in
               if 2 <? length text then parts ++ [text] else parts) l parts
  = parts ++ filter (fun t : jsstring => 2 < length t) (f <$> l).
Proof.
  induction l as [|mr l IH]; intros parts; cbn [fold_left fmap list_fmap].
  - by rewrite app_nil_r.
  - rewrite IH. cbv zeta. rewrite filter_cons.
    destruct (Nat.ltb_spec 2 (length (f mr))).
    + rewrite decide_True by done. by rewrite <- app_assoc.
    + rewrite decide_False by lia. done.
Qed.

Lemma fold_content_iter l contentParts :
  fold_left content_iter l contentParts
  = contentParts
    ++ filter (fun t : jsstring => 2 < length t)
         ((fun mr => stripHtml (capture 2 mr)) <$> l).
Proof. exact (fold_push_long (fun mr => stripHtml (capture 2 mr)) l contentParts). Qed.

Lemma join_length sep parts :
  length (join sep parts)
  <= sum_list ((fun p => length p + length sep) <$> parts).
Proof.
  induction parts as [|p parts IH]; [done|].
  destruct parts as [|q parts].
  - simpl. lia.
  - change (join sep (p :: q :: parts)) with (p ++ sep ++ join sep (q :: parts)).
    rewrite !length_app. rewrite fmap_cons. simpl sum_list. simpl sum_list in IH.
    lia.
Qed.

Lemma chained_total lo l hi :
  chained lo l hi ->
  lo + sum_list ((fun mr => length (matched mr)) <$> l) <= lo `max` hi.
Proof.
  revert lo. induction l as [|mr l IH]; intros lo.
  - simpl. lia.
  - intros (Hlo & Hhi & Hc). apply IH in Hc.
    rewrite fmap_cons. simpl sum_list. simpl sum_list in Hc. lia.
Qed.

Lemma content_parts_total body :
  sum_list ((fun t : jsstring => length t + 1)
              <$> filter (fun t : jsstring => 2 < length t)
                    ((fun mr => stripHtml (capture 2 mr))
                       <$> exec_all true contentRegex body))
  <= length body.
Proof.
  pose proof (exec_go_chained true contentRegex (length body) body 0 0) as Hc.
  apply chained_total in Hc. simpl in Hc.
  etrans; [|exact Hc]. clear Hc.
  assert (Hall : forall mr, mr ∈ exec_all true contentRegex body ->
                   length (capture 2 mr) + 1 <= length (matched mr))
    by (intros; by eapply content_match_capture).
  fold (exec_all true contentRegex body).
  induction (exec_all true contentRegex body) as [|mr l IH]; [done|].
  cbn [fmap list_fmap]. rewrite filter_cons.
  assert (Hmr : length (stripHtml (capture 2 mr)) + 1 <= length (matched mr)).
  { pose proof (stripHtml_shrinks (capture 2 mr)).
    pose proof (Hall mr ltac:(left)). lia. }
  assert (IH' := IH (fun mr' H => Hall mr' ltac:(by right))).
  destruct (decide _) as [Hd|Hd].
  - rewrite fmap_cons.
    change (sum_list (?a :: ?l)) with (a + sum_list l).
    lia.
  - change (sum_list (?a :: ?l)) with (a + sum_list l).
    lia.
Qed.

(** X8.  The content that [extractSectionContent] returns is never longer
    than the body it is given. *)
Theorem content_no_longer_than_body (bodyHtml : jsstring) :
  length (extractSectionContent bodyHtml) <= length bodyHtml.
Proof.
  unfold extractSectionContent. cbv zeta. rewrite substring_0, length_take.
  etrans; [apply Nat.le_min_r|].
  rewrite fold_content_iter, app_nil_l.
  pose proof (content_parts_total bodyHtml) as Htot.
  set (ps := filter _ _) in *.
  clearbody ps. destruct ps as [|p ps].
  - cbn [length Nat.eqb app].
    destruct (10 <? length (stripHtml bodyHtml)).
    + cbn [join]. apply stripHtml_shrinks.
    + simpl. lia.
  - cbn [length Nat.eqb].
    etrans; [apply join_length|].
    etrans; [|exact Htot]. apply Nat.eq_le_incl. done.
Qed.

(** X9.  When the normalized text of every content paragraph of a body has at
    most 2 characters, none of them counts, and the content is the fallback:
    the normalized body capped at 8000 characters when it is longer than 10
    characters, and the empty string otherwise. *)
Theorem fallback_when_fragments_short (bodyHtml : jsstring) :
  Forall (fun mr => length (stripHtml (capture 2 mr)) <= 2)
    (exec_all true contentRegex bodyHtml) ->
  extractSectionContent bodyHtml
  = if 10 <? length (stripHtml bodyHtml)
    then take 8000 (stripHtml bodyHtml)
    else [].
Proof.
  intros Hshort. unfold extractSectionContent. cbv zeta.
  rewrite fold_content_iter, app_nil_l.
  assert (filter (fun t : jsstring => 2 < length t)
            ((fun mr => stripHtml (capture 2 mr))
               <$> exec_all true contentRegex bodyHtml) = []) as ->.
  { induction Hshort as [|mr l Hmr _ IH]; [done|].
    rewrite fmap_cons, filter_cons, decide_False by lia. exact IH. }
  cbn [length Nat.eqb app].
  destruct (10 <? length (stripHtml bodyHtml)).
  - cbn [join]. apply substring_0.
  - cbn [join]. rewrite substring_0. apply take_nil.
Qed.

Lemma fallback_when_fragments_short_witness :
  length (exec_all true contentRegex doc_short_fragment) = 1
  /\ extractSectionContent doc_short_fragment
     = js "ab Some plain text that is long enough.".
Proof.
  split; [vm_compute; reflexivity|].
  rewrite (fallback_when_fragments_short doc_short_fragment).
  - vm_compute. reflexivity.
  - apply (bool_decide_unpack _). vm_compute. exact I.
Defined.

(** ** White space in the content *)

Lemma starts_clean_app a b : a <> [] -> starts_clean (a ++ b) = starts_clean a.
Proof. by destruct a. Qed.

Lemma ends_clean_app a b : b <> [] -> ends_clean (a ++ b) = ends_clean b.
Proof.
  intros Hb. unfold ends_clean. rewrite rev_app_distr. apply starts_clean_app.
  intros H. apply (f_equal (@rev N)) in H. by rewrite rev_involutive in H.
Qed.

Lemma ws_collapsed_space_between a b :
  a <> [] -> ws_collapsed a = true -> ends_clean a = true ->
  ws_collapsed b = true -> starts_clean b = true ->
  ws_collapsed (a ++ 32%N :: b) = true.
Proof.
  intros Ha Hca Hea Hcb Hsb. induction a as [|c a IH]; [done|].
  destruct a as [|c' a].
  - unfold ends_clean in Hea. cbn [rev app starts_clean] in Hea.
    apply negb_true_iff in Hea.
    cbn [app ws_collapsed]. rewrite Hea, Hcb.
    change (is_space 32) with true. cbn [N.eqb Pos.eqb andb].
    rewrite andb_true_r. destruct b; [done|exact Hsb].
  - cbn [ws_collapsed] in Hca. apply andb_true_iff in Hca as [Hc Hca].
    change ((c :: c' :: a) ++ 32%N :: b) with (c :: (c' :: a) ++ 32%N :: b).
    cbn [ws_collapsed]. rewrite IH; [|done|exact Hca|].
    + rewrite andb_true_r. exact Hc.
    + rewrite <- Hea. symmetry. apply (ends_clean_app [c]). done.
Qed.

Lemma join_clean parts :
  parts <> [] ->
  Forall (fun t => t <> [] /\ ws_collapsed t = true
                   /\ starts_clean t = true /\ ends_clean t = true) parts ->
  join (js " ") parts <> []
  /\ ws_collapsed (join (js " ") parts) = true
  /\ starts_clean (join (js " ") parts) = true
  /\ ends_clean (join (js " ") parts) = true.
Proof.
  intros Hne Hall. induction Hall as [|p parts (Hp & Hc & Hs & He) Hall IH]; [done|].
  destruct parts as [|q parts]; [done|].
  destruct IH as (Hj & Hcj & Hsj & Hej); [done|].
  change (join (js " ") (p :: q :: parts))
    with (p ++ 32%N :: join (js " ") (q :: parts)).
  split_and!.
  - by destruct p.
  - by apply ws_collapsed_space_between.
  - by rewrite starts_clean_app.
  - rewrite ends_clean_app by done.
    transitivity (ends_clean (join (js " ") (q :: parts))); [|exact Hej].
    apply (ends_clean_app [32%N]). exact Hj.
Qed.

(** X10.  The content of a section has only single spaces as white space
    and no white space at its start; it has none at its end unless it was cut
    at 8000 characters; and it is empty or has at least 3 characters. *)
Theorem content_normalized (bodyHtml : jsstring) :
  ws_collapsed (extractSectionContent bodyHtml) = true
  /\ starts_clean (extractSectionContent bodyHtml) = true
  /\ (length (extractSectionContent bodyHtml) < 8000 ->
      ends_clean (extractSectionContent bodyHtml) = true)
  /\ (extractSectionContent bodyHtml = []
      \/ 3 <= length (extractSectionContent bodyHtml)).
Proof.
  unfold extractSectionContent. cbv zeta.
  rewrite fold_content_iter, app_nil_l, substring_0.
  set (parts := filter _ _).
  set (final := if length parts =? 0
                then if 10 <? length (stripHtml bodyHtml)
                     then parts ++ [stripHtml bodyHtml] else parts
                else parts).
  assert (Hall : Forall (fun t : jsstring =>
                    2 < length t /\ ws_collapsed t = true
                    /\ starts_clean t = true /\ ends_clean t = true) final).
  { assert (Hparts : Forall (fun t : jsstring =>
                    2 < length t /\ ws_collapsed t = true
                    /\ starts_clean t = true /\ ends_clean t = true) parts).
    { apply Forall_forall. intros t Ht. subst parts.
      apply list_elem_of_filter in Ht as [Hlen Ht].
      apply list_elem_of_fmap in Ht as (mr & -> & _).
      destruct (stripHtml_clean (capture 2 mr)) as (? & ? & ? & _).
      done. }
    subst final. destruct (length parts =? 0); [|exact Hparts].
    destruct (Nat.ltb_spec 10 (length (stripHtml bodyHtml))); [|exact Hparts].
    apply Forall_app. split; [exact Hparts|]. constructor; [|constructor].
    destruct (stripHtml_clean bodyHtml) as (? & ? & ? & _).
    split_and!; [lia|done..]. }
  destruct final as [|p rest] eqn:Efinal.
  - cbn [join]. rewrite take_nil. split_and!; [done|done|done|by left].
  - destruct (join_clean (p :: rest)) as (Hj & Hcj & Hsj & Hej); [done| |].
    { eapply Forall_impl; [exact Hall|]. intros t (Hlen & ? & ? & ?).
      split_and!; try done. intros ->. simpl in Hlen. lia. }
    set (j := join (js " ") (p :: rest)) in *.
    assert (Hjlen : 3 <= length j).
    { apply Forall_inv in Hall as [Hlen _]. subst j.
      destruct rest; [simpl; lia|].
      change (join (js " ") (p :: l :: rest))
        with (p ++ js " " ++ join (js " ") (l :: rest)).
      rewrite length_app. lia. }
    split_and!.
    + apply (ws_collapsed_app_l _ (drop 8000 j)). by rewrite take_drop.
    + destruct j as [|x j']; [done|]. by rewrite <- (Nat.succ_pred 8000).
    + intros Hlt. rewrite length_take in Hlt.
      rewrite take_ge by lia. exact Hej.
    + right. rewrite length_take.
      assert (3 <= 8000) by (apply Nat.leb_le; vm_compute; reflexivity).
      lia.
Qed.

Lemma content_normalized_witness :
  length (extractSectionContent doc_short_fragment) < 8000
  /\ ends_clean (extractSectionContent doc_short_fragment) = true.
Proof.
  assert (H : length (extractSectionContent doc_short_fragment) < 8000).
  { apply Nat.ltb_lt. vm_compute. reflexivity. }
  split; [exact H|].
  destruct (content_normalized doc_short_fragment) as (_ & _ & He & _).
  exact (He H).
Defined.

(** ** The definitions of a record *)

Lemma extractDefinitions_fields bodyHtml provisionRef d :
  d ∈ extractDefinitions bodyHtml provisionRef ->
  2 <= length (term d) <= 99
  /\ ws_collapsed (term d) = true
  /\ starts_clean (term d) = true
  /\ ends_clean (term d) = true
  /\ source_provision d = Some provisionRef.
Proof.
  unfold extractDefinitions. rewrite fold_definition_iter, app_nil_l.
  rewrite list_elem_of_omap.
  intros (mr & _ & (span & _ & Hlen & ->)%definition_of_fragment_Some).
  cbn [term source_provision].
  destruct (stripHtml_clean (capture 1 span)) as (? & ? & ? & _).
  split_and!; [lia|lia|done..].
Qed.

Lemma extractDefinitions_count bodyHtml provisionRef :
  length (extractDefinitions bodyHtml provisionRef)
  <= length (exec_all true defRegex bodyHtml).
Proof.
  unfold extractDefinitions. rewrite fold_definition_iter, app_nil_l.
  induction (exec_all true defRegex bodyHtml) as [|mr l IH]; [done|].
  cbn [omap list_omap].
  destruct (definition_of_fragment provisionRef (capture 1 mr)); simpl; lia.
Qed.

(** X11.  In the record of any markup, the term of every definition has 2 to
    99 characters and is normalized, and the source of the definition is a
    provision of the record whose title passes the test for a definitions
    section. *)
Theorem definition_fields toLowerCase html :
  Forall (fun d =>
            2 <= length (term d) <= 99
            /\ ws_collapsed (term d) = true
            /\ starts_clean (term d) = true
            /\ ends_clean (term d) = true
            /\ exists p,
                 p ∈ provisions (parseAustralianHtml toLowerCase html)
                 /\ source_provision d = Some (provision_ref p)
                 /\ is_definitions_title toLowerCase (title p) = true)
    (definitions (parseAustralianHtml toLowerCase html)).
Proof.
  unfold parseAustralianHtml. cbv zeta. cbn [provisions definitions].
  unfold parse_run.
  apply (fold_left_inv (parse_iter toLowerCase)
           (fun st =>
              Forall (fun d =>
                        2 <= length (term d) <= 99
                        /\ ws_collapsed (term d) = true
                        /\ starts_clean (term d) = true
                        /\ ends_clean (term d) = true
                        /\ exists p, p ∈ acc_provisions st
                             /\ source_provision d = Some (provision_ref p)
                             /\ is_definitions_title toLowerCase (title p) = true)
                (acc_definitions st))); [|constructor].
  intros st sec Hd.
  rewrite parse_iter_provisions, parse_iter_definitions.
  destruct (decide _); [exact Hd|].
  destruct (_ <? _); [exact Hd|].
  set (prov := {| provision_ref := js "s" ++ sectionNum sec;
                  chapter := partContext sec; section := sectionNum sec;
                  title := sectionTitle sec;
                  content := extractSectionContent (bodyHtml sec) |}).
  assert (Hold :
    Forall (fun d =>
              2 <= length (term d) <= 99
              /\ ws_collapsed (term d) = true
              /\ starts_clean (term d) = true
              /\ ends_clean (term d) = true
              /\ exists p, p ∈ acc_provisions st ++ [prov]
                   /\ source_provision d = Some (provision_ref p)
                   /\ is_definitions_title toLowerCase (title p) = true)
      (acc_definitions st)).
  { eapply Forall_impl; [exact Hd|].
    intros d (H1 & H2 & H3 & H4 & p & Hp & Hs).
    split; [exact H1|]. split; [exact H2|]. split; [exact H3|].
    split; [exact H4|]. exists p. split; [|exact Hs].
    rewrite elem_of_app. by left. }
  destruct (is_definitions_title toLowerCase (sectionTitle sec)) eqn:Et;
    [|exact Hold].
  apply Forall_app. split; [exact Hold|]. apply Forall_forall.
  intros d Hin.
  apply extractDefinitions_fields in Hin as (H1 & H2 & H3 & H4 & Hs).
  split; [exact H1|]. split; [exact H2|]. split; [exact H3|].
  split; [exact H4|]. exists prov. split_and!; [|exact Hs|exact Et].
  rewrite elem_of_app, list_elem_of_singleton. by right.
Qed.

(** ** The dates and the status of the record *)

Lemma uint_digits_are_digits u :
  Forall (fun c => is_digit c = true) (uint_digits u).
Proof. induction u; simpl; constructor; done. Qed.

Lemma before_T_no_T s : Forall (fun c => c <> ch "T") (before_T s).
Proof.
  unfold before_T. eapply Forall_impl; [apply take_while_all|].
  intros c Hc ->. done.
Qed.

Lemma before_T_date d time :
  Forall (fun c => c <> ch "T") d -> before_T (d ++ ch "T" :: time) = d.
Proof.
  unfold before_T. induction 1 as [|x d Hx _ IH]; [done|].
  cbn [app take_while]. apply N.eqb_neq in Hx. rewrite Hx. cbn [negb].
  by rewrite IH.
Qed.

Lemma fallback_date_no_T n :
  Forall (fun c => c <> ch "T") (Number_toString n ++ js "-01-01").
Proof.
  apply Forall_app. split.
  - eapply Forall_impl; [apply uint_digits_are_digits|].
    intros c Hc ->. done.
  - apply (bool_decide_unpack _). vm_compute. exact I.
Qed.

(** X12.  The dates of a record hold no [T]: [issued_date] is the making date
    of the version up to its first [T], and [in_force_date] the start date of
    the version up to its first [T]; without a version both are the year of
    the act followed by "-01-01". *)
Theorem record_dates toLowerCase html act versionInfo :
  let record := parseAustralianHtml_record toLowerCase html act versionInfo in
  Forall (fun c => c <> ch "T") (Parsed.issued_date record)
  /\ Forall (fun c => c <> ch "T") (Parsed.in_force_date record)
  /\ (forall v date time,
        versionInfo = Some v ->
        Version.makingDate v = Some (date ++ ch "T" :: time) ->
        Forall (fun c => c <> ch "T") date ->
        Parsed.issued_date record = date)
  /\ (forall v date time,
        versionInfo = Some v ->
        Version.start v = date ++ ch "T" :: time ->
        Forall (fun c => c <> ch "T") date ->
        Parsed.in_force_date record = date)
  /\ (versionInfo = None ->
      Parsed.issued_date record = Number_toString (Act.year act) ++ js "-01-01"
      /\ Parsed.in_force_date record
         = Number_toString (Act.year act) ++ js "-01-01").
Proof.
  intros record. subst record. unfold parseAustralianHtml_record. cbv zeta.
  cbn [Parsed.issued_date Parsed.in_force_date].
  split_and!.
  - destruct versionInfo as [v|]; [|apply fallback_date_no_T].
    destruct (Version.makingDate v) as [d|]; [|apply fallback_date_no_T].
    destruct (truthy d); [apply before_T_no_T|apply fallback_date_no_T].
  - destruct versionInfo as [v|]; [|apply fallback_date_no_T].
    destruct (truthy (Version.start v));
      [apply before_T_no_T|apply fallback_date_no_T].
  - intros v date time -> Hm Hd. rewrite Hm.
    assert (truthy (date ++ ch "T" :: time) = true) as ->.
    { unfold truthy. rewrite length_app. cbn [length].
      by rewrite Nat.add_succ_r. }
    by apply before_T_date.
  - intros v date time -> Hm Hd. rewrite Hm.
    assert (truthy (date ++ ch "T" :: time) = true) as ->.
    { unfold truthy. rewrite length_app. cbn [length].
      by rewrite Nat.add_succ_r. }
    by apply before_T_date.
  - by intros ->.
Qed.

Lemma record_dates_witness :
  Parsed.issued_date
    (parseAustralianHtml_record ascii_toLowerCase doc_interpretation
       act_example (Some version_example)) = js "1988-12-14"
  /\ Parsed.in_force_date
       (parseAustralianHtml_record ascii_toLowerCase doc_interpretation
          act_example (Some version_example)) = js "2025-06-10"
  /\ Parsed.issued_date
       (parseAustralianHtml_record ascii_toLowerCase doc_interpretation
          act_example None) = js "1988-01-01".
Proof.
  destruct (record_dates ascii_toLowerCase doc_interpretation act_example
              (Some version_example)) as (_ & _ & Hi & Hf & _).
  destruct (record_dates ascii_toLowerCase doc_interpretation act_example
              None) as (_ & _ & _ & _ & Hn).
  split_and!.
  - apply (Hi version_example (js "1988-12-14") (js "00:00:00"));
      [reflexivity|reflexivity|].
    apply (bool_decide_unpack _). vm_compute. exact I.
  - apply (Hf version_example (js "2025-06-10") (js "00:00:00"));
      [reflexivity|reflexivity|].
    apply (bool_decide_unpack _). vm_compute. exact I.
  - destruct (Hn eq_refl) as [-> _]. vm_compute. reflexivity.
Defined.

Lemma statusMap_get_cases key :
  statusMap_get key
  = if decide (key = js "InForce") then Some (StatusOf in_force)
    else if decide (key = js "Ceased") then Some (StatusOf repealed)
    else if decide (key = js "Repealed") then Some (StatusOf repealed)
    else if decide (key = js "NeverEffective") then Some (StatusOf repealed)
    else if bool_decide (key ∈ js <$> Object_prototype_names)
         then Some (PrototypeMember key)
         else None.
Proof.
  unfold statusMap_get, statusMap. cbn [list_find fst].
  repeat (case_decide; [reflexivity|]). reflexivity.
Qed.

(** X13.  When the version has a status that is not empty, the status of the
    record is read from [statusMap]: it is [repealed] exactly for Ceased,
    Repealed and NeverEffective, it is never [amended] nor
    [not_yet_in_force], and it is [in_force] for every other status except
    the names that [statusMap] inherits from [Object.prototype], for which
    the record gets the inherited member instead of a status. *)
Theorem version_status_mapping toLowerCase html act v :
  let st := Parsed.status
              (parseAustralianHtml_record toLowerCase html act (Some v)) in
  truthy (Version.status v) = true ->
  (st = StatusOf repealed
   <-> Version.status v ∈ [js "Ceased"; js "Repealed"; js "NeverEffective"])
  /\ (st = StatusOf in_force
      <-> (Version.status v
             ∉ [js "Ceased"; js "Repealed"; js "NeverEffective"])
          /\ (Version.status v ∉ js <$> Object_prototype_names))
  /\ st <> StatusOf amended
  /\ st <> StatusOf not_yet_in_force
  /\ (forall key,
        st = PrototypeMember key
        <-> key = Version.status v
            /\ Version.status v ∈ js <$> Object_prototype_names).
Proof.
  intros st Ht. subst st. unfold parseAustralianHtml_record. cbv zeta.
  cbn [Parsed.status]. rewrite Ht, statusMap_get_cases.
  set (key := Version.status v).
  assert (Hnp : forall k, k ∈ [js "InForce"; js "Ceased"; js "Repealed";
                              js "NeverEffective"] ->
                k ∉ js <$> Object_prototype_names).
  { intros k Hk.
    repeat (apply elem_of_cons in Hk as [->|Hk];
            [apply (bool_decide_unpack _); vm_compute; exact I|]).
    by apply elem_of_nil in Hk. }
  rewrite !elem_of_cons, !elem_of_nil.
  destruct (decide (key = js "InForce")) as [E|N1].
  { cbn [default from_option id]. pose proof (Hnp key) as Hk.
    rewrite !elem_of_cons, elem_of_nil in Hk. rewrite E in *.
    split_and!; try done.
    - split; [done|]. intros [[=]|[[=]|[[=]|[]]]].
    - split; [intros _|done]. split; [|apply Hk; by left].
      intros [[=]|[[=]|[[=]|[]]]].
    - intros k. split; [done|]. intros [_ H]. exfalso. apply Hk; [by left|done]. }
  destruct (decide (key = js "Ceased")) as [E|N2].
  { cbn [default from_option id]. pose proof (Hnp key) as Hk.
    rewrite !elem_of_cons, elem_of_nil in Hk.
    split_and!; try done.
    - split; [intros _; by left|done].
    - split; [done|]. intros [H _]. exfalso. apply H. by left.
    - intros k. split; [done|]. intros [_ H]. exfalso. apply Hk; [right; by left|done]. }
  destruct (decide (key = js "Repealed")) as [E|N3].
  { cbn [default from_option id]. pose proof (Hnp key) as Hk.
    rewrite !elem_of_cons, elem_of_nil in Hk.
    split_and!; try done.
    - split; [intros _; right; by left|done].
    - split; [done|]. intros [H _]. exfalso. apply H. right. by left.
    - intros k. split; [done|]. intros [_ H]. exfalso.
      apply Hk; [right; right; by left|done]. }
  destruct (decide (key = js "NeverEffective")) as [E|N4].
  { cbn [default from_option id]. pose proof (Hnp key) as Hk.
    rewrite !elem_of_cons, elem_of_nil in Hk.
    split_and!; try done.
    - split; [intros _; right; right; by left|done].
    - split; [done|]. intros [H _]. exfalso. apply H. right. right. by left.
    - intros k. split; [done|]. intros [_ H]. exfalso.
      apply Hk; [right; right; right; by left|done]. }
  destruct (bool_decide_reflect (key ∈ js <$> Object_prototype_names)) as [Hp|Hp];
    cbn [default from_option id].
  - split_and!; try done.
    + split; [done|]. intros [?|[?|[?|[]]]]; done.
    + split; [done|]. intros [_ H]. done.
    + intros k. split; [by intros [= <-]|]. by intros [-> _].
  - split_and!; try done.
    + split; [done|]. intros [?|[?|[?|[]]]]; done.
    + split; [intros _|done]. split; [|done]. intros [?|[?|[?|[]]]]; done.
    + intros k. split; [done|]. by intros [_ H].
Qed.

Lemma version_status_mapping_witness :
  Parsed.status
    (parseAustralianHtml_record ascii_toLowerCase doc_interpretation
       act_example (Some version_example)) = StatusOf in_force.
Proof.
  destruct (version_status_mapping ascii_toLowerCase doc_interpretation
              act_example version_example eq_refl) as (_ & Hin & _).
  apply Hin. split; apply (bool_decide_unpack _); vm_compute; exact I.
Defined.

(** ** The fetcher *)

Section NetFacts.
Variable Date_now : nat -> Z.
Variable network : nat -> jsstring -> jsstring -> option Http.Response.

Lemma rateLimit_spec w :
  rateLimit Date_now w
  = (Returned tt,
     {| lastRequestTime := Date_now (S (clock_reads w));
        clock_reads := S (S (clock_reads w));
        requests := requests w;
        trace := trace w
                 ++ if (Date_now (clock_reads w) - lastRequestTime w
                        <? MIN_DELAY_MS)%Z
                    then [Sleep (MIN_DELAY_MS
                                 - (Date_now (clock_reads w)
                                    - lastRequestTime w))]
                    else [] |}).
Proof.
  unfold rateLimit, bind, date_now, get_lastRequestTime, set_lastRequestTime.
  cbn [lastRequestTime clock_reads requests trace].
  destruct (_ <? _)%Z; unfold emit, ret;
    cbn [lastRequestTime clock_reads requests trace]; [done|].
  by rewrite app_nil_r.
Qed.

Lemma attempts_S remaining url accept maxRetries attempt w :
  attempts network (S remaining) url accept maxRetries attempt w
  = let w1 := {| lastRequestTime := lastRequestTime w;
                 clock_reads := clock_reads w;
                 requests := S (requests w);
                 trace := trace w ++ [Request url accept] |} in
    match network (requests w) url accept with
    | None => (Threw Rejected, w1)
    | Some response =>
        if retryable (Http.status response) && (attempt <? maxRetries)%Z
        then attempts network remaining url accept maxRetries (attempt + 1)
               {| lastRequestTime := lastRequestTime w;
                  clock_reads := clock_reads w;
                  requests := S (requests w);
                  trace := trace w
                           ++ retry_events url accept attempt
                                (Http.status response) |}
        else match Http.text response with
             | Some body =>
                 (Returned {| Fetch.status := Http.status response;
                              Fetch.body := body;
                              Fetch.contentType :=
                                default [] (Http.content_type response) |},
                  w1)
             | None => (Threw Rejected, w1)
             end
    end.
Proof.
  cbn [attempts]. unfold bind at 1. unfold fetch. cbv zeta.
  destruct (network (requests w) url accept) as [response|]; [|done].
  destruct (retryable _ && _).
  - unfold bind, emit, retry_events.
    cbn [lastRequestTime clock_reads requests trace].
    by rewrite <- !app_assoc.
  - unfold response_text, bind. by destruct (Http.text response).
Qed.

(** The outcome of the loop and the world it leaves, for the iterations
    that remain. *)
Lemma attempts_spec url accept maxRetries remaining : forall attempt w,
  (Z.of_nat remaining = maxRetries + 1 - attempt)%Z ->
  0 < remaining ->
  exists statuses,
    Forall (fun s => retryable s = true) statuses
    /\ (forall j s, statuses !! j = Some s ->
          Http.status <$> network (requests w + j) url accept = Some s)
    /\ (attempt + Z.of_nat (length statuses) <= maxRetries)%Z
    /\ (snd (attempts network remaining url accept maxRetries attempt w)
        = {| lastRequestTime := lastRequestTime w;
             clock_reads := clock_reads w;
             requests := requests w + length statuses + 1;
             trace := trace w ++ retries_events url accept attempt statuses
                      ++ [Request url accept] |})
    /\ match network (requests w + length statuses) url accept with
       | None =>
           fst (attempts network remaining url accept maxRetries attempt w)
           = Threw Rejected
       | Some response =>
           (retryable (Http.status response) = true ->
            (attempt + Z.of_nat (length statuses))%Z = maxRetries)
           /\ fst (attempts network remaining url accept maxRetries attempt w)
              = match Http.text response with
                | Some body =>
                    Returned
                      {| Fetch.status := Http.status response;
                         Fetch.body := body;
                         Fetch.contentType :=
                           default [] (Http.content_type response) |}
                | None => Threw Rejected
                end
       end.
Proof.
  induction remaining as [|remaining IH]; intros attempt w Hrem Hpos; [lia|].
  rewrite attempts_S. cbv zeta.
  destruct (network (requests w) url accept) as [response|] eqn:Enet.
  2:{ exists []. cbn [length retries_events app].
      rewrite !Nat.add_0_r, Enet, Nat.add_1_r.
      split; [constructor|]. split; [by intros ? ? [=]|].
      split; [lia|]. by split. }
  destruct (retryable (Http.status response)) eqn:Eretry;
    [destruct (Z.ltb_spec attempt maxRetries) as [Hlt|Hge]|]; cbn [andb].
  - destruct (IH (attempt + 1)%Z
                {| lastRequestTime := lastRequestTime w;
                   clock_reads := clock_reads w;
                   requests := S (requests w);
                   trace := trace w
                            ++ retry_events url accept attempt
                                 (Http.status response) |})
      as (statuses & Hall & Hnet & Hle & Hw & Hout); [lia|lia|].
    cbn [lastRequestTime clock_reads requests trace] in Hnet, Hw, Hout.
    exists (Http.status response :: statuses). cbn [length retries_events].
    split_and!.
    + by constructor.
    + intros [|j] s Hj.
      * injection Hj as <-. by rewrite Nat.add_0_r, Enet.
      * rewrite <- Nat.add_succ_comm. by apply Hnet.
    + lia.
    + rewrite Hw. f_equal; [lia|]. by rewrite <- !app_assoc.
    + rewrite <- Nat.add_succ_comm.
      destruct (network (S (requests w) + length statuses) url accept);
        [|exact Hout].
      destruct Hout as [Hlast Hout]. split; [|exact Hout].
      intros Hr. specialize (Hlast Hr). lia.
  - exists []. cbn [length retries_events app].
    rewrite !Nat.add_0_r, Enet, Nat.add_1_r.
    split; [constructor|]. split; [by intros ? ? [=]|].
    split; [lia|]. split.
    + by destruct (Http.text response).
    + split; [intros _; lia|]. by destruct (Http.text response).
  - exists []. cbn [length retries_events app].
    rewrite !Nat.add_0_r, Enet, Nat.add_1_r.
    split; [constructor|]. split; [by intros ? ? [=]|].
    split; [lia|]. split.
    + by destruct (Http.text response).
    + split; [by rewrite Eretry|]. by destruct (Http.text response).
Qed.


Lemma requests_of_app t1 t2 :
  requests_of (t1 ++ t2) = requests_of t1 ++ requests_of t2.
Proof. apply omap_app. Qed.


Lemma requests_of_retries url accept statuses : forall attempt,
  requests_of (retries_events url accept attempt statuses)
  = replicate (length statuses) (url, accept).
Proof.
  induction statuses as [|s statuses IH]; intros attempt; [done|].
  cbn [retries_events length replicate]. rewrite requests_of_app, IH. done.
Qed.




Variable fetchVersionInfo : jsstring -> M (option Version.VersionInfo).

Lemma fetchWithRateLimit_eq url accept maxRetries w :
  fetchWithRateLimit Date_now network url accept maxRetries w
  = attempts network (Z.to_nat (maxRetries + 1)) url accept maxRetries 0
      {| lastRequestTime := Date_now (S (clock_reads w));
         clock_reads := S (S (clock_reads w));
         requests := requests w;
         trace := trace w
                  ++ if (Date_now (clock_reads w) - lastRequestTime w
                         <? MIN_DELAY_MS)%Z
                     then [Sleep (MIN_DELAY_MS
                                  - (Date_now (clock_reads w)
                                     - lastRequestTime w))]
                     else [] |}.
Proof. unfold fetchWithRateLimit, bind. by rewrite rateLimit_spec. Qed.

Lemma fetchLegislationHtml_eq titleId w :
  fetchLegislationHtml Date_now network fetchVersionInfo titleId w
  = match fetchVersionInfo titleId w with
    | (Threw e, w1) => (Threw e, w1)
    | (Returned None, w1) =>
        (Returned {| Legislation.status := 404%N; Legislation.body := [];
                     Legislation.contentType := [];
                     Legislation.versionInfo := None |}, w1)
    | (Returned (Some v), w1) =>
        match fetchWithRateLimit Date_now network
                (buildEpubHtmlUrl (Version.titleId v) (Version.start v)
                   (Version.retrospectiveStart v))
                DEFAULT_ACCEPT DEFAULT_MAX_RETRIES w1 with
        | (Threw e, w2) => (Threw e, w2)
        | (Returned result, w2) =>
            if (Fetch.status result =? 200)%N
               && includes (Fetch.body result) SPA_SHELL_MARKER
            then
              (Returned {| Legislation.status := 404%N;
                           Legislation.body := [];
                           Legislation.contentType := [];
                           Legislation.versionInfo := Some v |},
               {| lastRequestTime := lastRequestTime w2;
                  clock_reads := clock_reads w2;
                  requests := requests w2;
                  trace := trace w2 ++ [LogSpaShell titleId] |})
            else
              (Returned {| Legislation.status := Fetch.status result;
                           Legislation.body := Fetch.body result;
                           Legislation.contentType :=
                             Fetch.contentType result;
                           Legislation.versionInfo := Some v |}, w2)
        end
    end.
Proof.
  unfold fetchLegislationHtml. unfold bind at 1.
  destruct (fetchVersionInfo titleId w) as [[[v|]|e] w1]; [|done|done].
  cbv zeta. unfold bind at 1.
  destruct (fetchWithRateLimit _ _ _ _ _ w1) as [[result|e] w2]; [|done].
  by destruct (_ && _).
Qed.

(** X16.  [fetchLegislationHtml] passes on what [fetchVersionInfo] throws, and
    without a version it answers 404 with an empty body and sends no request.
    With a version it requests the EPUB address of the version, one to four
    times; a result keeps the version, a result of status 200 never holds
    the marker of the single page application, and a result whose status is
    429 or 5xx was requested four times. *)
Theorem legislation_html_result titleId w :
  match fetchVersionInfo titleId w with
  | (Threw e, w1) =>
      fetchLegislationHtml Date_now network fetchVersionInfo titleId w
      = (Threw e, w1)
  | (Returned None, w1) =>
      fetchLegislationHtml Date_now network fetchVersionInfo titleId w
      = (Returned {| Legislation.status := 404%N; Legislation.body := [];
                     Legislation.contentType := [];
                     Legislation.versionInfo := None |}, w1)
  | (Returned (Some v), w1) =>
      let epubUrl :=
        buildEpubHtmlUrl (Version.titleId v) (Version.start v)
          (Version.retrospectiveStart v) in
      let result :=
        fetchLegislationHtml Date_now network fetchVersionInfo titleId w in
      exists n,
        1 <= n <= 4
        /\ requests_of (trace (snd result))
           = requests_of (trace w1) ++ replicate n (epubUrl, DEFAULT_ACCEPT)
        /\ match fst result with
           | Threw e => e = Rejected
           | Returned r =>
               Legislation.versionInfo r = Some v
               /\ (Legislation.status r = 200%N ->
                   includes (Legislation.body r) SPA_SHELL_MARKER = false)
               /\ (retryable (Legislation.status r) = true -> n = 4)
           end
  end.
Proof.
  rewrite fetchLegislationHtml_eq.
  destruct (fetchVersionInfo titleId w) as [[[v|]|e] w1]; [|done|done].
  cbv zeta.
  set (epubUrl := buildEpubHtmlUrl _ _ _).
  rewrite fetchWithRateLimit_eq.
  set (w2 := {| lastRequestTime := _ |}).
  destruct (attempts_spec epubUrl DEFAULT_ACCEPT DEFAULT_MAX_RETRIES
              (Z.to_nat (DEFAULT_MAX_RETRIES + 1)) 0%Z w2)
    as (statuses & _ & _ & Hle & Hw & Hout);
    [reflexivity|apply Nat.ltb_lt; reflexivity|].
  destruct (attempts network _ epubUrl DEFAULT_ACCEPT DEFAULT_MAX_RETRIES 0 w2)
    as [o w3].
  cbn [fst snd] in Hw, Hout.
  assert (Hreq : requests_of (trace w3)
                 = requests_of (trace w1)
                   ++ replicate (S (length statuses)) (epubUrl, DEFAULT_ACCEPT)).
  { assert (Hwait : requests_of (trace w2) = requests_of (trace w1)).
    { subst w2. cbn [trace]. rewrite requests_of_app.
      destruct (_ <? _)%Z; by rewrite app_nil_r. }
    rewrite Hw. cbn [trace].
    rewrite !requests_of_app, requests_of_retries, Hwait.
    f_equal. cbn [requests_of omap list_omap].
    change [(epubUrl, DEFAULT_ACCEPT)]
      with (replicate 1 (epubUrl, DEFAULT_ACCEPT)).
    rewrite <- replicate_add. f_equal. lia. }
  assert (Hn : 1 <= S (length statuses) <= 4).
  { unfold DEFAULT_MAX_RETRIES in Hle. lia. }
  exists (S (length statuses)).
  split; [exact Hn|].
  destruct (network (requests w2 + length statuses) epubUrl DEFAULT_ACCEPT)
    as [response|].
  2:{ rewrite Hout. cbn [fst snd]. by split. }
  destruct Hout as [Hlast ->].
  destruct (Http.text response) as [body|]; [|cbn [fst snd]; by split].
  cbn [Fetch.status Fetch.body Fetch.contentType].
  destruct ((Http.status response =? 200)%N && includes body SPA_SHELL_MARKER)
    eqn:Eshell.
  - cbn [fst snd trace].
    rewrite requests_of_app, app_nil_r. split; [exact Hreq|].
    cbn [Legislation.versionInfo Legislation.status Legislation.body].
    split; [done|]. split; [done|]. intros Hr. by vm_compute in Hr.
  - cbn [fst snd].
    split; [exact Hreq|].
    cbn [Legislation.versionInfo Legislation.status Legislation.body].
    split; [done|]. split.
    + intros H200. rewrite H200 in Eshell. exact Eshell.
    + intros Hr. specialize (Hlast Hr). unfold DEFAULT_MAX_RETRIES in Hlast.
      lia.
Qed.
End NetFacts.


(** ** The arguments of the ingestion script *)

Lemma parseArgs_loop_cons a rest limit skipFetch :
  parseArgs_loop (a :: rest) limit skipFetch
  = match rest with
    | next :: rest' =>
        if bool_decide (a = js "--limit") && truthy next
        then parseArgs_loop rest' (parseInt10 next) skipFetch
        else parseArgs_loop rest limit
               (bool_decide (a = js "--skip-fetch") || skipFetch)
    | [] => {| Args.limit := limit;
               Args.skipFetch :=
                 bool_decide (a = js "--skip-fetch") || skipFetch |}
    end.
Proof.
  cbn [parseArgs_loop]. cbv zeta.
  destruct rest as [|next rest'].
  - by destruct (bool_decide (a = js "--skip-fetch")).
  - destruct (_ && _); [done|].
    by destruct (bool_decide (a = js "--skip-fetch")).
Qed.

Lemma parseArgs_loop_no_limit args : forall limit skipFetch,
  js "--limit" ∉ args ->
  parseArgs_loop args limit skipFetch
  = {| Args.limit := limit;
       Args.skipFetch :=
         skipFetch || bool_decide (js "--skip-fetch" ∈ args) |}.
Proof.
  induction args as [|a rest IH]; intros limit skipFetch Hno.
  - cbn [parseArgs_loop]. f_equal.
    rewrite bool_decide_eq_false_2 by apply not_elem_of_nil.
    by rewrite orb_false_r.
  - apply not_elem_of_cons in Hno as [Ha Hrest].
    rewrite parseArgs_loop_cons.
    assert (Hskip : bool_decide (js "--skip-fetch" ∈ a :: rest)
                    = bool_decide (a = js "--skip-fetch")
                      || bool_decide (js "--skip-fetch" ∈ rest)).
    { apply eq_true_iff_eq.
      rewrite orb_true_iff, !bool_decide_eq_true, elem_of_cons. split.
      - intros [->|?]; [by left|by right].
      - intros [->|?]; [by left|by right]. }
    destruct rest as [|next rest'].
    + f_equal. rewrite Hskip.
      rewrite (bool_decide_eq_false_2 (_ ∈ [])) by apply not_elem_of_nil.
      rewrite orb_false_r. apply orb_comm.
    + rewrite (bool_decide_eq_false_2 (a = js "--limit")) by done.
      cbn [andb]. rewrite IH by exact Hrest. f_equal.
      rewrite Hskip, orb_assoc. f_equal. apply orb_comm.
Qed.

Lemma parseArgs_loop_origin n : forall args limit skipFetch,
  length args <= n ->
  (Args.limit (parseArgs_loop args limit skipFetch) = limit
   \/ exists i next,
        args !! i = Some (js "--limit") /\ args !! S i = Some next
        /\ truthy next = true
        /\ Args.limit (parseArgs_loop args limit skipFetch) = parseInt10 next)
  /\ (Args.skipFetch (parseArgs_loop args limit skipFetch) = true ->
      skipFetch = true \/ js "--skip-fetch" ∈ args).
Proof.
  induction n as [|n IH]; intros args limit skipFetch Hlen.
  { destruct args; [|simpl in Hlen; lia].
    cbn [parseArgs_loop Args.limit Args.skipFetch]. split; [by left|by left]. }
  destruct args as [|a rest].
  { cbn [parseArgs_loop Args.limit Args.skipFetch]. split; [by left|by left]. }
  cbn [length] in Hlen. rewrite parseArgs_loop_cons.
  destruct rest as [|next rest'].
  { cbn [Args.limit Args.skipFetch]. split; [by left|].
    intros [Ha|Hs]%orb_true_iff; [right|by left].
    apply bool_decide_eq_true in Ha as ->. by left. }
  cbn [length] in Hlen.
  destruct (bool_decide_reflect (a = js "--limit")) as [->|Ha]; cbn [andb].
  - destruct (truthy next) eqn:Enext.
    + destruct (IH rest' (parseInt10 next) skipFetch) as [Hlim Hskip]; [lia|].
      split.
      * right. destruct Hlim as [Hlim|(i & next' & H1 & H2 & H3 & H4)].
        -- exists 0, next. by rewrite Hlim.
        -- exists (S (S i)), next'. done.
      * intros [?|?]%Hskip; [by left|right]. by do 2 right.
    + destruct (IH (next :: rest') limit
                  (bool_decide (js "--limit" = js "--skip-fetch")
                   || skipFetch)) as [Hlim Hskip]; [simpl; lia|].
      split.
      * destruct Hlim as [Hlim|(i & next' & H1 & H2 & H3 & H4)];
          [by left|right].
        exists (S i), next'. done.
      * intros [[H|?]%orb_true_iff|?]%Hskip; [|by left|right; by right].
        by apply bool_decide_eq_true in H.
  - destruct (IH (next :: rest') limit
                (bool_decide (a = js "--skip-fetch") || skipFetch))
      as [Hlim Hskip]; [simpl; lia|].
    split.
    + destruct Hlim as [Hlim|(i & next' & H1 & H2 & H3 & H4)];
        [by left|right].
      exists (S i), next'. done.
    + intros [[H|?]%orb_true_iff|?]%Hskip; [|by left|right; by right].
      apply bool_decide_eq_true in H as ->. right. by left.
Qed.

(** X17.  Without [--limit] among the arguments the limit is [null] and
    [skipFetch] tells whether [--skip-fetch] is among them.  In general the
    limit is [null] or [parseInt] of a non-empty argument that follows a
    [--limit], and [skipFetch] is set only if [--skip-fetch] is among the
    arguments. *)
Theorem parseArgs_flags argv :
  (js "--limit" ∉ drop 2 argv ->
   parseArgs argv
   = {| Args.limit := JsNull;
        Args.skipFetch := bool_decide (js "--skip-fetch" ∈ drop 2 argv) |})
  /\ (Args.limit (parseArgs argv) = JsNull
      \/ exists i next,
           argv !! (2 + i) = Some (js "--limit")
           /\ argv !! (3 + i) = Some next
           /\ next <> []
           /\ Args.limit (parseArgs argv) = parseInt10 next)
  /\ (Args.skipFetch (parseArgs argv) = true ->
      js "--skip-fetch" ∈ drop 2 argv).
Proof.
  unfold parseArgs. cbv zeta. split_and!.
  - intros Hno. by rewrite parseArgs_loop_no_limit.
  - destruct (parseArgs_loop_origin (length (drop 2 argv)) (drop 2 argv)
                JsNull false) as [[Hlim|(i & next & H1 & H2 & H3 & H4)] _];
      [done|by left|right].
    exists i, next. rewrite lookup_drop in H1. rewrite lookup_drop in H2.
    split; [exact H1|]. split; [exact H2|]. split; [|exact H4].
    intros ->. done.
  - intros Hs.
    destruct (parseArgs_loop_origin (length (drop 2 argv)) (drop 2 argv)
                JsNull false) as [_ [?|?]]; done.
Qed.

Lemma parseArgs_flags_witness :
  parseArgs (argv_of ["--verbose"; "--skip-fetch"]%string)
  = {| Args.limit := JsNull; Args.skipFetch := true |}.
Proof.
  destruct (parseArgs_flags (argv_of ["--verbose"; "--skip-fetch"]%string))
    as (H & _ & _).
  rewrite H; [reflexivity|].
  apply (bool_decide_unpack _). vm_compute. exact I.
Defined.

(** ** The acts that are ingested *)

Lemma slice_0_prefix {A} (l : list A) e : slice_0 l e `prefix_of` l.
Proof. unfold slice_0. cbv zeta. apply prefix_take. Qed.

Lemma slice_0_length {A} (l : list A) e :
  length (slice_0 l e)
  = Z.to_nat (if (e <? 0)%Z then Z.max (Z.of_nat (length l) + e) 0
              else Z.min e (Z.of_nat (length l))).
Proof.
  unfold slice_0. cbv zeta. rewrite length_take.
  destruct (Z.ltb_spec e 0); lia.
Qed.

Lemma KEY_AUSTRALIAN_ACTS_length : length KEY_AUSTRALIAN_ACTS = 10.
Proof. reflexivity. Qed.

Lemma KEY_AUSTRALIAN_ACTS_ids : NoDup (Act.id <$> KEY_AUSTRALIAN_ACTS).
Proof. apply (bool_decide_unpack _). vm_compute. exact I. Qed.

Lemma selected_acts_prefix limit :
  selected_acts limit `prefix_of` KEY_AUSTRALIAN_ACTS.
Proof.
  unfold selected_acts. destruct limit as [| |z]; [done|done|].
  destruct (limit_truthy _); [apply slice_0_prefix|done].
Qed.

(** X18.  The acts that [main] ingests are a prefix of [KEY_AUSTRALIAN_ACTS],
    so their identifiers are distinct: the first [min(limit, 10)] acts for a
    positive limit, all but the last [-limit] for a negative one, and all of
    them when the limit is [null], [NaN] or 0. *)
Theorem main_acts_selection argv :
  let limit := Args.limit (parseArgs argv) in
  main_acts argv `prefix_of` KEY_AUSTRALIAN_ACTS
  /\ NoDup (Act.id <$> main_acts argv)
  /\ (forall z, limit = JsInt z -> (0 < z)%Z ->
        length (main_acts argv) = Z.to_nat (Z.min z 10))
  /\ (forall z, limit = JsInt z -> (z < 0)%Z ->
        length (main_acts argv) = Z.to_nat (10 + z))
  /\ (limit = JsNull \/ limit = JsNaN \/ limit = JsInt 0 ->
      main_acts argv = KEY_AUSTRALIAN_ACTS).
Proof.
  intros limit. unfold main_acts. fold limit. clearbody limit. split_and!.
  - apply selected_acts_prefix.
  - destruct (selected_acts_prefix limit) as [rest Hrest].
    pose proof KEY_AUSTRALIAN_ACTS_ids as Hids.
    rewrite Hrest, fmap_app in Hids. by apply NoDup_app in Hids as [? _].
  - intros z -> Hz. unfold selected_acts, limit_truthy.
    destruct (Z.eqb_spec z 0) as [->|_]; [lia|]. cbn [negb].
    rewrite slice_0_length, KEY_AUSTRALIAN_ACTS_length.
    destruct (Z.ltb_spec z 0); [lia|]. done.
  - intros z -> Hz. unfold selected_acts, limit_truthy.
    destruct (Z.eqb_spec z 0) as [->|_]; [lia|]. cbn [negb].
    rewrite slice_0_length, KEY_AUSTRALIAN_ACTS_length.
    destruct (Z.ltb_spec z 0); [|lia]. lia.
  - by intros [->|[->| ->]].
Qed.

Lemma main_acts_selection_witness :
  length (main_acts (argv_of ["--limit"; "-3"]%string)) = 7
  /\ main_acts (argv_of ["--limit"; "0"]%string) = KEY_AUSTRALIAN_ACTS
  /\ main_acts (argv_of ["--limit"; "--skip-fetch"]%string)
     = KEY_AUSTRALIAN_ACTS.
Proof.
  split_and!.
  - destruct (main_acts_selection (argv_of ["--limit"; "-3"]%string))
      as (_ & _ & _ & H & _).
    apply (H (-3)%Z); [reflexivity|lia].
  - destruct (main_acts_selection (argv_of ["--limit"; "0"]%string))
      as (_ & _ & _ & _ & H).
    apply H. right. right. reflexivity.
  - destruct (main_acts_selection (argv_of ["--limit"; "--skip-fetch"]%string))
      as (_ & _ & _ & _ & H).
    apply H. right. left. reflexivity.
Defined.
